(** * RoboMaster / Unity Bridge client: a verification model

    The development follows the Go sources package by package:

    - [Tag]        the 64-bit tag layout read by [callbackHandler]
                   (example/example.go);
    - [strconv], [utf8]  the conversions of Go's library that the
                   JSON codec relies on;
    - [json]       the part of Go's [encoding/json] that the result
                   package calls;
    - [result]     unity/result/result.go;
    - [camera]     the video-callback table of the camera module;
    - [listeners], [video]  the video manager
                   (sdk2/internal/manager/video.go);
    - [camera_module]  the start, the stop and the texture data of the
                   camera module;
    - [connection] the connection module ([Start], [Stop], the status
                   wait);
    - [client]     the sdk2 client and its modules;
    - [dlopen]     the loader of the bridge library;
    - [handler]    the event callback of example/example.go.

    Integers of a fixed width are values of [Z] or [N] with the
    wrap-around written out, byte slices and Go strings are [list byte]. *)

From Stdlib Require Import ZArith NArith List Lia Bool.
From Stdlib Require Import DecimalPos DecimalN.
From Stdlib Require Import Strings.Byte Strings.String Strings.Ascii.
From stdpp Require Import base tactics option list gmap.

Import ListNotations.

#[local] Open Scope Z_scope.

(** ** Tag codec *)

Module Tag.

(** A tag is a [uint64]. *)
Definition uint64_wrap (z : Z) : Z := z mod 2 ^ 64.

(** [callbackHandler], line 13: [dataType := (tag >> 56) & 0xff]. *)
Definition dataType (tag : Z) : Z := Z.land (Z.shiftr tag 56) 0xff.

(** [callbackHandler], line 23: [tag = tag & 0x0000ffffffffffff]. *)
Definition sequence (tag : Z) : Z := Z.land tag 0x0000ffffffffffff.

Definition Decode (tag : Z) : Z * Z := (dataType tag, sequence tag).

(** Modelled from the spec: the repository sources read tags but never
    build one; the spec gives the layout as
    [(dataTypeDiscriminator << 56) | sequenceNumber], both operands
    being [uint64]. *)
Definition Encode (d s : Z) : Z :=
  Z.lor (uint64_wrap (Z.shiftl d 56)) s.

Lemma mask8 : 0xff = Z.ones 8.
Proof. reflexivity. Qed.

Lemma mask48 : 0x0000ffffffffffff = Z.ones 48.
Proof. reflexivity. Qed.

(** The discriminator occupies bits 56..63 and survives the wrap. *)
Lemma shifted_discriminator_bits (d i : Z) :
  0 <= d < 2 ^ 8 -> 0 <= i ->
  Z.testbit (uint64_wrap (Z.shiftl d 56)) i =
  (56 <=? i) && Z.testbit d (i - 56).
Proof.
  intros Hd Hi. unfold uint64_wrap.
  destruct (Z.ltb_spec i 64) as [Hlt | Hge].
  - rewrite Z.mod_pow2_bits_low by lia.
    rewrite Z.shiftl_spec by lia.
    destruct (Z.leb_spec 56 i) as [H56 | H56]; [reflexivity |].
    apply Z.testbit_neg_r. lia.
  - rewrite Z.mod_pow2_bits_high by lia.
    replace (56 <=? i) with true by (symmetry; apply Z.leb_le; lia).
    symmetry. simpl.
    apply (Z.bits_above_log2 d (i - 56)); [lia |].
    destruct (Z.eq_dec d 0) as [-> | Hnz]; [simpl; lia |].
    assert (Z.log2 d < 8) by (apply Z.log2_lt_pow2; lia).
    lia.
Qed.

Lemma sequence_bits_high (s i : Z) :
  0 <= s < 2 ^ 48 -> 48 <= i -> Z.testbit s i = false.
Proof.
  intros Hs Hi.
  destruct (Z.eq_dec s 0) as [-> | Hnz]; [apply Z.bits_0 |].
  apply Z.bits_above_log2; [lia |].
  assert (Z.log2 s < 48) by (apply Z.log2_lt_pow2; lia).
  lia.
Qed.

Lemma dataType_Encode (d s : Z) :
  0 <= d < 2 ^ 8 -> 0 <= s < 2 ^ 48 -> dataType (Encode d s) = d.
Proof.
  intros Hd Hs. unfold dataType, Encode.
  apply Z.bits_inj'. intros i Hi.
  rewrite mask8, Z.land_spec, Z.shiftr_spec, Z.lor_spec by lia.
  rewrite shifted_discriminator_bits by lia.
  rewrite (sequence_bits_high s (i + 56)) by lia.
  replace (i + 56 - 56) with i by lia.
  replace (56 <=? i + 56) with true by (symmetry; apply Z.leb_le; lia).
  rewrite orb_false_r. simpl.
  destruct (Z.ltb_spec i 8) as [Hlt | Hge].
  - rewrite Z.ones_spec_low by lia. apply andb_true_r.
  - rewrite Z.ones_spec_high by lia. rewrite andb_false_r.
    symmetry.
    destruct (Z.eq_dec d 0) as [-> | Hnz]; [apply Z.bits_0 |].
    apply Z.bits_above_log2; [lia |].
    assert (Z.log2 d < 8) by (apply Z.log2_lt_pow2; lia).
    lia.
Qed.

Lemma sequence_Encode (d s : Z) :
  0 <= d < 2 ^ 8 -> 0 <= s < 2 ^ 48 -> sequence (Encode d s) = s.
Proof.
  intros Hd Hs. unfold sequence, Encode.
  apply Z.bits_inj'. intros i Hi.
  rewrite mask48, Z.land_spec, Z.lor_spec.
  rewrite shifted_discriminator_bits by lia.
  destruct (Z.ltb_spec i 48) as [Hlt | Hge].
  - rewrite Z.ones_spec_low by lia. rewrite andb_true_r.
    replace (56 <=? i) with false by (symmetry; apply Z.leb_gt; lia).
    reflexivity.
  - rewrite Z.ones_spec_high by lia. rewrite andb_false_r.
    symmetry. apply sequence_bits_high; lia.
Qed.

(** An encoded tag is a [uint64]: no bit is lost to the wrap. *)
Lemma Encode_range (d s : Z) :
  0 <= d < 2 ^ 8 -> 0 <= s < 2 ^ 48 -> uint64_wrap (Encode d s) = Encode d s.
Proof.
  intros Hd Hs. unfold Encode at 1 2.
  apply Z.bits_inj'. intros i Hi.
  unfold uint64_wrap at 1.
  destruct (Z.ltb_spec i 64) as [Hlt | Hge].
  - now rewrite Z.mod_pow2_bits_low by lia.
  - rewrite Z.mod_pow2_bits_high by lia.
    rewrite Z.lor_spec, (sequence_bits_high s i) by lia.
    unfold uint64_wrap. rewrite Z.mod_pow2_bits_high by lia.
    reflexivity.
Qed.

(** C4. For a discriminator [d] in {0, 1} and a sequence number
    [s < 2^48], decoding the tag [(d << 56) | s] with the shifts and
    masks of [callbackHandler] gives back exactly [(d, s)]. *)
Theorem Decode_Encode (d s : Z) :
  d = 0 \/ d = 1 -> 0 <= s < 2 ^ 48 -> Decode (Encode d s) = (d, s).
Proof.
  intros Hd Hs. unfold Decode.
  assert (0 <= d < 2 ^ 8) by (destruct Hd; subst; lia).
  rewrite dataType_Encode, sequence_Encode by assumption.
  reflexivity.
Qed.

Lemma Decode_Encode_witness :
  (1 = 0 \/ 1 = 1) /\ 0 <= 4242 < 2 ^ 48 /\
  Decode (Encode 1 4242) = (1, 4242).
Proof.
  split; [right; reflexivity |].
  split; [lia |].
  apply (Decode_Encode 1 4242); [right; reflexivity | lia].
Defined.

(** *** What decoding looks at *)

Lemma dataType_bits (tag i : Z) :
  0 <= i ->
  Z.testbit (dataType tag) i = Z.testbit tag (i + 56) && (i <? 8).
Proof.
  intros Hi. unfold dataType.
  rewrite mask8, Z.land_spec, Z.shiftr_spec by lia.
  destruct (Z.ltb_spec i 8).
  - now rewrite Z.ones_spec_low by lia.
  - now rewrite Z.ones_spec_high by lia.
Qed.

Lemma sequence_bits (tag i : Z) :
  0 <= i ->
  Z.testbit (sequence tag) i = Z.testbit tag i && (i <? 48).
Proof.
  intros Hi. unfold sequence.
  rewrite mask48, Z.land_spec.
  destruct (Z.ltb_spec i 48).
  - now rewrite Z.ones_spec_low by lia.
  - now rewrite Z.ones_spec_high by lia.
Qed.

Lemma dataType_range (tag : Z) : 0 <= dataType tag < 2 ^ 8.
Proof.
  unfold dataType. rewrite mask8, Z.land_ones by lia.
  apply Z.mod_pos_bound. lia.
Qed.

Lemma sequence_range (tag : Z) : 0 <= sequence tag < 2 ^ 48.
Proof.
  unfold sequence. rewrite mask48, Z.land_ones by lia.
  apply Z.mod_pos_bound. lia.
Qed.

(** X6. Decoding looks at bits 0 to 47 and 56 to 63 of a tag and at
    nothing else: two tags decode to the same discriminator and
    sequence number exactly when they agree on these bits.  Bits 48 to
    55 are ignored. *)
Theorem Decode_eq_iff (tag1 tag2 : Z) :
  Decode tag1 = Decode tag2 <->
  forall i, 0 <= i < 48 \/ 56 <= i < 64 ->
            Z.testbit tag1 i = Z.testbit tag2 i.
Proof.
  unfold Decode. split.
  - intros H i Hi. injection H as Hd Hs. destruct Hi as [Hi | Hi].
    + assert (Hb : Z.testbit (sequence tag1) i = Z.testbit (sequence tag2) i)
        by now rewrite Hs.
      rewrite !sequence_bits in Hb by lia.
      replace (i <? 48) with true in Hb by (symmetry; apply Z.ltb_lt; lia).
      now rewrite !andb_true_r in Hb.
    + assert (Hb : Z.testbit (dataType tag1) (i - 56)
                   = Z.testbit (dataType tag2) (i - 56)) by now rewrite Hd.
      rewrite !dataType_bits in Hb by lia.
      replace (i - 56 + 56) with i in Hb by lia.
      replace (i - 56 <? 8) with true in Hb by (symmetry; apply Z.ltb_lt; lia).
      now rewrite !andb_true_r in Hb.
  - intros H. f_equal.
    + apply Z.bits_inj'. intros i Hi. rewrite !dataType_bits by lia.
      destruct (Z.ltb_spec i 8); [| now rewrite !andb_false_r].
      rewrite H by lia. reflexivity.
    + apply Z.bits_inj'. intros i Hi. rewrite !sequence_bits by lia.
      destruct (Z.ltb_spec i 48); [| now rewrite !andb_false_r].
      rewrite H by lia. reflexivity.
Qed.

(** X7. What decoding returns is in range, a discriminator below 256
    and a sequence number below [2^48], and building a tag from it
    gives the [uint64] tag decoded with bits 48 to 55 cleared. *)
Theorem Encode_Decode (tag : Z) :
  0 <= tag < 2 ^ 64 ->
  0 <= dataType tag < 2 ^ 8 /\
  0 <= sequence tag < 2 ^ 48 /\
  Encode (dataType tag) (sequence tag) = Z.ldiff tag (Z.shiftl 0xff 48).
Proof.
  intros Htag.
  split; [apply dataType_range |]. split; [apply sequence_range |].
  unfold Encode. apply Z.bits_inj'. intros i Hi.
  rewrite Z.lor_spec, Z.ldiff_spec, Z.shiftl_spec by lia.
  rewrite shifted_discriminator_bits by (apply dataType_range || lia).
  rewrite sequence_bits by lia. rewrite mask8.
  destruct (Z.ltb_spec i 48) as [H48 | H48].
  { replace (56 <=? i) with false by (symmetry; apply Z.leb_gt; lia).
    rewrite Z.testbit_neg_r with (n := i - 48) by lia.
    simpl. now rewrite !andb_true_r. }
  rewrite andb_false_r, orb_false_r.
  destruct (Z.leb_spec 56 i) as [H56 | H56].
  - rewrite Z.ones_spec_high by lia. rewrite dataType_bits by lia.
    replace (i - 56 + 56) with i by lia. simpl.
    destruct (Z.ltb_spec (i - 56) 8) as [H64 | H64].
    + now rewrite !andb_true_r.
    + rewrite !andb_false_r, andb_true_r. symmetry.
      destruct (Z.eq_dec tag 0) as [-> | Hnz]; [apply Z.bits_0 |].
      apply Z.bits_above_log2; [lia |].
      assert (Z.log2 tag < 64) by (apply Z.log2_lt_pow2; lia). lia.
  - rewrite Z.ones_spec_low by lia. simpl. now rewrite andb_false_r.
Qed.

Lemma Encode_Decode_witness :
  Encode (dataType 0x01ab000000001092) (sequence 0x01ab000000001092)
  = 0x0100000000001092.
Proof.
  destruct (Encode_Decode 0x01ab000000001092) as (_ & _ & H); [lia |].
  exact H.
Defined.

End Tag.

(** ** Go strings, errors and decimal numerals *)

(** A Go string and a [[]byte] are both sequences of bytes. *)
Definition gostring := list byte.

Definition str (s : string) : gostring := list_byte_of_string s.

#[global] Instance byte_eq_dec : EqDecision byte.
Proof.
  intros x y. destruct (Byte.eqb x y) eqn:E.
  - left. now apply Byte.byte_dec_bl.
  - right. now apply Byte.eqb_false.
Defined.

(** An [error] value is represented by the message its [Error()] method
    returns; [nil] is [None] in an [option error]. *)
Definition error := gostring.

Module strconv.

#[local] Open Scope N_scope.
#[local] Open Scope byte_scope.

Fixpoint digits (d : Decimal.uint) : gostring :=
  match d with
  | Decimal.Nil => []
  | Decimal.D0 d => "0" :: digits d
  | Decimal.D1 d => "1" :: digits d
  | Decimal.D2 d => "2" :: digits d
  | Decimal.D3 d => "3" :: digits d
  | Decimal.D4 d => "4" :: digits d
  | Decimal.D5 d => "5" :: digits d
  | Decimal.D6 d => "6" :: digits d
  | Decimal.D7 d => "7" :: digits d
  | Decimal.D8 d => "8" :: digits d
  | Decimal.D9 d => "9" :: digits d
  end.

(** [strconv.FormatUint(n, 10)], also the rendering of [%d] for an
    unsigned operand. *)
Definition FormatUint (n : N) : gostring := digits (N.to_uint n).

(** [strconv.FormatInt(z, 10)], also the rendering of [%d]. *)
Definition FormatInt (z : Z) : gostring :=
  match z with
  | Zneg p => "-" :: digits (Pos.to_uint p)
  | _ => FormatUint (Z.to_N z)
  end.

Definition isDigit (c : byte) : bool :=
  (48 <=? Byte.to_N c) && (Byte.to_N c <=? 57).

Definition digitValue (c : byte) : N := Byte.to_N c - 48.

(** The value of a run of decimal digits, most significant first. *)
Fixpoint accumulate (acc : N) (s : gostring) : option N :=
  match s with
  | [] => Some acc
  | c :: s' =>
      if isDigit c then accumulate (10 * acc + digitValue c) s' else None
  end.

(** [strconv.ParseUint(s, 10, bitSize)]: digits only, and the value
    must fit in [bitSize] bits. *)
Definition ParseUint (s : gostring) (bitSize : N) : option N :=
  match s with
  | [] => None
  | _ =>
      match accumulate 0 s with
      | Some n => if n <? 2 ^ bitSize then Some n else None
      | None => None
      end
  end.

(** [strconv.ParseInt(s, 10, bitSize)]: an optional sign, then digits;
    the value must fit in a signed integer of [bitSize] bits. *)
Definition ParseInt (s : gostring) (bitSize : N) : option Z :=
  let magnitude (neg : bool) (s' : gostring) : option Z :=
    match s' with
    | [] => None
    | _ =>
        match accumulate 0 s' with
        | Some n =>
            if neg then
              if n <=? 2 ^ (bitSize - 1) then Some (- Z.of_N n)%Z else None
            else
              if n <? 2 ^ (bitSize - 1) then Some (Z.of_N n) else None
        | None => None
        end
    end in
  match s with
  | "-" :: s' => magnitude true s'
  | "+" :: s' => magnitude false s'
  | _ => magnitude false s
  end.

(** *** Reading back what was written *)

Lemma accumulate_pos (d : Decimal.uint) :
  forall p, accumulate (N.pos p) (digits d) = Some (N.pos (Pos.of_uint_acc d p)).
Proof.
  induction d; intros p; simpl; try reflexivity;
    match goal with
    | |- accumulate ?n _ = Some (N.pos (Pos.of_uint_acc _ ?q)) =>
        replace n with (N.pos q) by (unfold digitValue; simpl; lia)
    end; apply IHd.
Qed.

Lemma accumulate_digits (d : Decimal.uint) :
  accumulate 0 (digits d) = Some (N.of_uint d).
Proof.
  unfold N.of_uint.
  induction d; simpl; try reflexivity; try exact IHd;
    match goal with
    | |- accumulate ?n _ = Some (N.pos (Pos.of_uint_acc _ ?q)) =>
        change n with (N.pos q)
    end; apply accumulate_pos.
Qed.

(** A numeral with no leading zero. *)
Definition leads (d : Decimal.uint) : Prop :=
  match d with
  | Decimal.Nil | Decimal.D0 _ => False
  | _ => True
  end.

Lemma nzhead_no_zero (u u' : Decimal.uint) : Decimal.nzhead u <> Decimal.D0 u'.
Proof. induction u; simpl; try discriminate. exact IHu. Qed.

Lemma unorm_leads (d : Decimal.uint) :
  Decimal.unorm d = d -> d <> Decimal.zero -> leads d.
Proof.
  intros Hn Hz. destruct d; simpl; auto.
  unfold Decimal.unorm in Hn. simpl in Hn.
  destruct (Decimal.nzhead d) eqn:Hh; try discriminate Hn.
  - injection Hn as <-. now apply Hz.
  - apply (nzhead_no_zero d u). rewrite Hh. congruence.
Qed.

Lemma to_uint_leads (p : positive) : leads (Pos.to_uint p).
Proof.
  apply unorm_leads.
  - pose proof (DecimalPos.Unsigned.to_of (Pos.to_uint p)) as H.
    rewrite DecimalPos.Unsigned.of_to in H. symmetry. exact H.
  - apply DecimalPos.Unsigned.to_uint_nonzero.
Qed.

Lemma leads_nonempty (d : Decimal.uint) :
  leads d ->
  exists c ds, digits d = c :: ds /\ c <> "-" /\ c <> "+".
Proof.
  destruct d; simpl; intros H; try contradiction;
    eexists; eexists; (split; [reflexivity | split; discriminate]).
Qed.

Lemma ParseUint_FormatUint (n bitSize : N) :
  n < 2 ^ bitSize -> ParseUint (FormatUint n) bitSize = Some n.
Proof.
  intros Hn. unfold ParseUint, FormatUint.
  rewrite accumulate_digits, DecimalN.Unsigned.of_to.
  apply N.ltb_lt in Hn. rewrite Hn.
  destruct n as [| p]; [reflexivity |].
  change (N.to_uint (N.pos p)) with (Pos.to_uint p).
  destruct (leads_nonempty _ (to_uint_leads p)) as (c & ds & -> & _).
  reflexivity.
Qed.

Lemma ParseInt_FormatInt (z : Z) (bitSize : N) :
  (- 2 ^ (Z.of_N bitSize - 1) <= z < 2 ^ (Z.of_N bitSize - 1))%Z ->
  0 < bitSize ->
  ParseInt (FormatInt z) bitSize = Some z.
Proof.
  intros Hz Hb.
  assert (Hpow : Z.of_N (2 ^ (bitSize - 1)) = (2 ^ (Z.of_N bitSize - 1))%Z).
  { rewrite N2Z.inj_pow, N2Z.inj_sub by lia. reflexivity. }
  unfold ParseInt, FormatInt. destruct z as [| p | p].
  - simpl. change (10 * 0 + digitValue "0") with 0.
    replace (0 <? 2 ^ (bitSize - 1)) with true; [reflexivity |].
    symmetry. apply N.ltb_lt. lia.
  - unfold FormatUint. simpl Z.to_N. simpl N.to_uint.
    destruct (leads_nonempty _ (to_uint_leads p)) as (c & ds & Hd & Hm & Hp).
    pose proof (accumulate_digits (Pos.to_uint p)) as Hacc.
    change (N.of_uint (Pos.to_uint p)) with (Pos.of_uint (Pos.to_uint p)) in Hacc.
    rewrite DecimalPos.Unsigned.of_to in Hacc. rewrite Hd in *.
    destruct c; try congruence; rewrite Hacc;
      (replace (N.pos p <? 2 ^ (bitSize - 1)) with true
        by (symmetry; apply N.ltb_lt; lia)); reflexivity.
  - destruct (leads_nonempty _ (to_uint_leads p)) as (c & ds & Hd & _).
    pose proof (accumulate_digits (Pos.to_uint p)) as Hacc.
    change (N.of_uint (Pos.to_uint p)) with (Pos.of_uint (Pos.to_uint p)) in Hacc.
    rewrite DecimalPos.Unsigned.of_to in Hacc. rewrite Hd in *.
    rewrite Hacc.
    replace (N.pos p <=? 2 ^ (bitSize - 1)) with true
      by (symmetry; apply N.leb_le; lia).
    reflexivity.
Qed.


End strconv.

(** ** [unicode/utf8] *)

Module utf8.

#[local] Open Scope N_scope.

Definition RuneError : N := 0xFFFD.
Definition RuneSelf : N := 0x80.

Definition byte_of (n : N) : byte := default "000"%byte (Byte.of_N n).

Definition between (lo hi : N) (b : byte) : bool :=
  (lo <=? Byte.to_N b) && (Byte.to_N b <=? hi).

(** Continuation bytes. *)
Definition locb : N := 0x80.
Definition hicb : N := 0xBF.

(** The [first] and [acceptRanges] tables: for a leading byte above
    ASCII, the length of the sequence and the range allowed for its
    second byte; [None] for a byte that cannot lead. *)
Definition leading (p0 : N) : option (nat * N * N) :=
  if (0xC2 <=? p0) && (p0 <=? 0xDF) then Some (2%nat, locb, hicb)
  else if p0 =? 0xE0 then Some (3%nat, 0xA0, hicb)
  else if (0xE1 <=? p0) && (p0 <=? 0xEC) then Some (3%nat, locb, hicb)
  else if p0 =? 0xED then Some (3%nat, locb, 0x9F)
  else if (0xEE <=? p0) && (p0 <=? 0xEF) then Some (3%nat, locb, hicb)
  else if p0 =? 0xF0 then Some (4%nat, 0x90, hicb)
  else if (0xF1 <=? p0) && (p0 <=? 0xF3) then Some (4%nat, locb, hicb)
  else if p0 =? 0xF4 then Some (4%nat, locb, 0x8F)
  else None.

(** The rune encoded by two, three and four bytes. *)
Definition rune2 (x y : N) : N :=
  N.lor (N.shiftl (N.land x 0x1F) 6) (N.land y 0x3F).

Definition rune3 (x y z : N) : N :=
  N.lor (N.shiftl (N.land x 0x0F) 12)
        (N.lor (N.shiftl (N.land y 0x3F) 6) (N.land z 0x3F)).

Definition rune4 (x y z w : N) : N :=
  N.lor (N.shiftl (N.land x 0x07) 18)
        (N.lor (N.shiftl (N.land y 0x3F) 12)
               (N.lor (N.shiftl (N.land z 0x3F) 6) (N.land w 0x3F))).

(** [utf8.DecodeRune]: the first rune of [p] and its width in bytes;
    [(RuneError, 1)] for bytes that are no encoding, [(RuneError, 0)]
    for no bytes. *)
Definition DecodeRune (p : gostring) : N * nat :=
  match p with
  | [] => (RuneError, 0%nat)
  | p0 :: t =>
      let x := Byte.to_N p0 in
      if x <? RuneSelf then (x, 1%nat)
      else
        match leading x, t with
        | Some (2%nat, lo, hi), b1 :: _ =>
            if between lo hi b1
            then (rune2 x (Byte.to_N b1), 2%nat)
            else (RuneError, 1%nat)
        | Some (3%nat, lo, hi), b1 :: b2 :: _ =>
            if between lo hi b1 && between locb hicb b2
            then (rune3 x (Byte.to_N b1) (Byte.to_N b2), 3%nat)
            else (RuneError, 1%nat)
        | Some (4%nat, lo, hi), b1 :: b2 :: b3 :: _ =>
            if between lo hi b1 && between locb hicb b2 && between locb hicb b3
            then (rune4 x (Byte.to_N b1) (Byte.to_N b2) (Byte.to_N b3), 4%nat)
            else (RuneError, 1%nat)
        | _, _ => (RuneError, 1%nat)
        end
  end.

Definition cont (r : N) (shift : N) : byte :=
  byte_of (N.lor 0x80 (N.land (N.shiftr r shift) 0x3F)).

(** [utf8.EncodeRune] (and [AppendRune]): surrogates and values past
    U+10FFFF are written as U+FFFD. *)
Definition EncodeRune (r : N) : gostring :=
  if r <=? 0x7F then [byte_of r]
  else if r <=? 0x7FF then [byte_of (N.lor 0xC0 (N.shiftr r 6)); cont r 0]
  else if (0x10FFFF <? r) || ((0xD800 <=? r) && (r <=? 0xDFFF))
  then [byte_of 0xEF; byte_of 0xBF; byte_of 0xBD]
  else if r <=? 0xFFFF
  then [byte_of (N.lor 0xE0 (N.shiftr r 12)); cont r 6; cont r 0]
  else [byte_of (N.lor 0xF0 (N.shiftr r 18)); cont r 12; cont r 6; cont r 0].

(** [utf8.Valid]: every rune of [p] is well encoded. *)
Fixpoint Valid (p : gostring) : bool :=
  match p with
  | [] => true
  | b :: t =>
      if Byte.to_N b <? RuneSelf then Valid t
      else
        match DecodeRune p, t with
        | (_, 2%nat), _ :: t2 => Valid t2
        | (_, 3%nat), _ :: _ :: t3 => Valid t3
        | (_, 4%nat), _ :: _ :: _ :: t4 => Valid t4
        | _, _ => false
        end
  end.

(** The shapes of what [DecodeRune] returns for a byte above ASCII: a
    sequence of two, three or four bytes is decoded whatever follows
    it, and [EncodeRune] writes the same bytes again. *)
Inductive decoded (b : byte) (t : gostring) : N * nat -> Prop :=
| decoded_invalid :
    decoded b t (RuneError, 1%nat)
| decoded_2 b1 t2 c :
    t = b1 :: t2 -> RuneSelf <= Byte.to_N b1 ->
    EncodeRune c = [b; b1] ->
    (forall t', DecodeRune (b :: b1 :: t') = (c, 2%nat)) ->
    decoded b t (c, 2%nat)
| decoded_3 b1 b2 t3 c :
    t = b1 :: b2 :: t3 -> RuneSelf <= Byte.to_N b1 -> RuneSelf <= Byte.to_N b2 ->
    EncodeRune c = [b; b1; b2] ->
    (forall t', DecodeRune (b :: b1 :: b2 :: t') = (c, 3%nat)) ->
    decoded b t (c, 3%nat)
| decoded_4 b1 b2 b3 t4 c :
    t = b1 :: b2 :: b3 :: t4 ->
    RuneSelf <= Byte.to_N b1 -> RuneSelf <= Byte.to_N b2 ->
    RuneSelf <= Byte.to_N b3 ->
    EncodeRune c = [b; b1; b2; b3] ->
    (forall t', DecodeRune (b :: b1 :: b2 :: b3 :: t') = (c, 4%nat)) ->
    decoded b t (c, 4%nat).

Lemma leading_spec (x : N) (n : nat) (lo hi : N) :
  leading x = Some (n, lo, hi) ->
  (n = 2 \/ n = 3 \/ n = 4)%nat /\ RuneSelf <= lo /\ hi <= 0xBF /\ x <= 0xFF.
Proof.
  unfold leading, RuneSelf, locb, hicb.
  repeat match goal with
  | |- context [if ?b then _ else _] => destruct b eqn:?
  end; intros H; inversion H; subst; repeat split; auto.
  all: repeat match goal with
       | H : _ && _ = true |- _ => apply andb_true_iff in H as [? ?]
       | H : (_ <=? _) = true |- _ => apply N.leb_le in H
       | H : (_ =? _) = true |- _ => apply N.eqb_eq in H
       end.
  all: try lia.
Qed.

Lemma between_spec (lo hi : N) (b : byte) :
  between lo hi b = true -> lo <= Byte.to_N b <= hi.
Proof.
  unfold between. intros H. apply andb_true_iff in H as [H1 H2].
  apply N.leb_le in H1, H2. lia.
Qed.

Lemma byte_of_to_N (b : byte) : byte_of (Byte.to_N b) = b.
Proof. unfold byte_of. now rewrite Byte.of_to_N. Qed.

(** The numbers from [lo] to [hi]. *)
Definition range (lo hi : N) : list N :=
  map (fun i => lo + N.of_nat i) (seq 0 (N.to_nat (hi + 1 - lo))).

Lemma in_range (lo hi n : N) : lo <= n <= hi -> In n (range lo hi).
Proof.
  intros H. unfold range. apply in_map_iff.
  exists (N.to_nat (n - lo)). split; [lia |]. apply in_seq. lia.
Qed.

Fixpoint same (a b : gostring) : bool :=
  match a, b with
  | [], [] => true
  | x :: a', y :: b' => Byte.eqb x y && same a' b'
  | _, _ => false
  end.

Lemma same_eq (a b : gostring) : same a b = true -> a = b.
Proof.
  revert b. induction a as [| x a IH]; intros [| y b] H;
    try discriminate H; [reflexivity |].
  simpl in H. apply andb_true_iff in H as [Hx H].
  apply Byte.byte_dec_bl in Hx. subst y. f_equal. now apply IH.
Qed.

(** A rune as its last six bits and what stands above them. *)
Lemma lor_shiftl (h l k : N) :
  l < 2 ^ k -> N.lor (N.shiftl h k) l = h * 2 ^ k + l.
Proof.
  intros Hl. rewrite N.shiftl_mul_pow2.
  assert (H0 : N.land (h * 2 ^ k) l = 0).
  { apply N.bits_inj_0. intros i. rewrite N.land_spec.
    destruct (N.lt_ge_cases i k) as [Hi | Hi].
    - now rewrite N.mul_pow2_bits_low.
    - rewrite <- (N.mod_small l (2 ^ k)) by exact Hl.
      rewrite N.mod_pow2_bits_high by exact Hi. apply andb_false_r. }
  now rewrite <- N.lxor_lor, <- N.add_nocarry_lxor.
Qed.

Lemma low6_lt (a : N) : N.land a 0x3F < 64.
Proof.
  change 0x3F with (N.ones 6). rewrite N.land_ones.
  apply N.mod_lt. discriminate.
Qed.

Lemma rune2_sum (x y : N) :
  rune2 x y = 64 * N.land x 0x1F + N.land y 0x3F.
Proof.
  unfold rune2. rewrite lor_shiftl by apply low6_lt.
  change (2 ^ 6) with 64. lia.
Qed.

Lemma rune3_sum (x y z : N) :
  rune3 x y z = 64 * (64 * N.land x 0x0F + N.land y 0x3F) + N.land z 0x3F.
Proof.
  unfold rune3. pose proof (low6_lt y). pose proof (low6_lt z).
  rewrite (lor_shiftl _ (N.land z 0x3F) 6) by assumption.
  rewrite lor_shiftl by (change (2 ^ 6) with 64; change (2 ^ 12) with 4096; lia).
  change (2 ^ 6) with 64; change (2 ^ 12) with 4096. lia.
Qed.

Lemma rune4_sum (x y z w : N) :
  rune4 x y z w
  = 64 * (64 * (64 * N.land x 0x07 + N.land y 0x3F) + N.land z 0x3F)
    + N.land w 0x3F.
Proof.
  unfold rune4.
  pose proof (low6_lt y). pose proof (low6_lt z). pose proof (low6_lt w).
  rewrite (lor_shiftl _ (N.land w 0x3F) 6) by assumption.
  rewrite (lor_shiftl _ _ 12)
    by (change (2 ^ 6) with 64; change (2 ^ 12) with 4096; lia).
  rewrite lor_shiftl
    by (change (2 ^ 6) with 64; change (2 ^ 12) with 4096;
        change (2 ^ 18) with 262144; lia).
  change (2 ^ 6) with 64; change (2 ^ 12) with 4096;
    change (2 ^ 18) with 262144. lia.
Qed.

(** The bytes [EncodeRune] writes before the last one, from what stands
    above the last six bits of the rune; [None] where it writes one
    byte, or U+FFFD. *)
Definition front (h : N) : option gostring :=
  if h <=? 1 then None
  else if h <=? 0x1F then Some [byte_of (N.lor 0xC0 h)]
  else if (0x43FF <? h) || ((0x360 <=? h) && (h <=? 0x37F)) then None
  else if h <=? 0x3FF
  then Some [byte_of (N.lor 0xE0 (N.shiftr h 6));
             byte_of (N.lor 0x80 (N.land h 0x3F))]
  else Some [byte_of (N.lor 0xF0 (N.shiftr h 12));
             byte_of (N.lor 0x80 (N.land (N.shiftr h 6) 0x3F));
             byte_of (N.lor 0x80 (N.land h 0x3F))].

Lemma EncodeRune_front (h l : N) (f : gostring) :
  l < 64 -> front h = Some f ->
  EncodeRune (64 * h + l) = f ++ [byte_of (N.lor 0x80 l)].
Proof.
  intros Hl. unfold front, EncodeRune, cont.
  assert (H6 : N.shiftr (64 * h + l) 6 = h).
  { rewrite N.shiftr_div_pow2. symmetry. now apply N.div_unique with l. }
  assert (H12 : N.shiftr (64 * h + l) 12 = N.shiftr h 6).
  { change 12 with (6 + 6). now rewrite <- N.shiftr_shiftr, H6. }
  assert (H18 : N.shiftr (64 * h + l) 18 = N.shiftr h 12).
  { change 18 with (6 + 12). now rewrite <- N.shiftr_shiftr, H6. }
  assert (H0 : N.land (64 * h + l) 0x3F = l).
  { change 0x3F with (N.ones 6). rewrite N.land_ones. symmetry.
    now apply N.mod_unique with h. }
  rewrite N.shiftr_0_r, H6, H12, H18, H0.
  destruct (N.leb_spec h 1) as [H1 | H1]; [discriminate |].
  replace (64 * h + l <=? 0x7F) with false by (symmetry; apply N.leb_gt; lia).
  destruct (N.leb_spec h 0x1F) as [H2 | H2].
  { replace (64 * h + l <=? 0x7FF) with true by (symmetry; apply N.leb_le; lia).
    now intros [= <-]. }
  replace (64 * h + l <=? 0x7FF) with false by (symmetry; apply N.leb_gt; lia).
  destruct (N.ltb_spec 0x43FF h) as [H3 | H3]; [discriminate |].
  replace (0x10FFFF <? 64 * h + l) with false by (symmetry; apply N.ltb_ge; lia).
  cbn [orb].
  destruct (N.leb_spec 0x360 h) as [H4 | H4];
    destruct (N.leb_spec h 0x37F) as [H5 | H5]; try discriminate; cbn [andb].
  - replace (64 * h + l <=? 0xDFFF) with false by (symmetry; apply N.leb_gt; lia).
    rewrite andb_false_r.
    replace (64 * h + l <=? 0xFFFF) with (h <=? 0x3FF)
      by (destruct (N.leb_spec h 0x3FF);
          [symmetry; apply N.leb_le | symmetry; apply N.leb_gt]; lia).
    destruct (h <=? 0x3FF); now intros [= <-].
  - replace (0xD800 <=? 64 * h + l) with false by (symmetry; apply N.leb_gt; lia).
    cbn [andb].
    replace (64 * h + l <=? 0xFFFF) with (h <=? 0x3FF)
      by (destruct (N.leb_spec h 0x3FF);
          [symmetry; apply N.leb_le | symmetry; apply N.leb_gt]; lia).
    destruct (h <=? 0x3FF); now intros [= <-].
  - lia.
Qed.

(** Every leading byte, with every byte that may follow it but the
    last, is what [EncodeRune] writes for the rune they encode. *)
Definition writes (h : N) (f : gostring) : bool :=
  match front h with
  | Some g => same g f
  | None => false
  end.

Definition encodes_back (x : N) : bool :=
  match leading x with
  | Some (2%nat, lo, hi) => writes (N.land x 0x1F) [byte_of x]
  | Some (3%nat, lo, hi) =>
      forallb (fun y => writes (64 * N.land x 0x0F + N.land y 0x3F)
                               [byte_of x; byte_of y])
              (range lo hi)
  | Some (4%nat, lo, hi) =>
      forallb (fun y =>
        forallb (fun z =>
                   writes (64 * (64 * N.land x 0x07 + N.land y 0x3F)
                           + N.land z 0x3F)
                          [byte_of x; byte_of y; byte_of z])
                (range locb hicb))
        (range lo hi)
  | _ => true
  end.

Lemma encodes_back_true : forallb encodes_back (range 0 0xFF) = true.
Proof. vm_compute. reflexivity. Qed.

Definition last_back (w : N) : bool :=
  Byte.eqb (byte_of (N.lor 0x80 (N.land w 0x3F))) (byte_of w).

Lemma last_back_true : forallb last_back (range locb hicb) = true.
Proof. vm_compute. reflexivity. Qed.

Lemma last_byte (w : N) :
  locb <= w <= hicb -> byte_of (N.lor 0x80 (N.land w 0x3F)) = byte_of w.
Proof.
  intros Hw. apply Byte.byte_dec_bl.
  apply (proj1 (forallb_forall last_back (range locb hicb)) last_back_true).
  now apply in_range.
Qed.

Lemma writes_spec (h l : N) (f : gostring) :
  writes h f = true -> locb <= l <= hicb ->
  EncodeRune (64 * h + N.land l 0x3F) = f ++ [byte_of l].
Proof.
  unfold writes. intros Hw Hl.
  destruct (front h) as [g |] eqn:Hf; [| discriminate].
  apply same_eq in Hw. subst g.
  rewrite (EncodeRune_front h _ f (low6_lt l) Hf). now rewrite last_byte.
Qed.

Lemma encodes_back_at (x : N) (n : nat) (lo hi : N) :
  leading x = Some (n, lo, hi) ->
  match n with
  | 2%nat =>
      forall y, lo <= y <= hi ->
        EncodeRune (rune2 x y) = [byte_of x; byte_of y]
  | 3%nat =>
      forall y z, lo <= y <= hi -> locb <= z <= hicb ->
        EncodeRune (rune3 x y z) = [byte_of x; byte_of y; byte_of z]
  | 4%nat =>
      forall y z w, lo <= y <= hi -> locb <= z <= hicb -> locb <= w <= hicb ->
        EncodeRune (rune4 x y z w)
        = [byte_of x; byte_of y; byte_of z; byte_of w]
  | _ => True
  end.
Proof.
  intros Hl. destruct (leading_spec _ _ _ _ Hl) as (Hn & Hlo & Hhi & Hx).
  assert (H : encodes_back x = true).
  { apply (proj1 (forallb_forall encodes_back (range 0 0xFF)) encodes_back_true).
    apply in_range. lia. }
  unfold encodes_back in H. rewrite Hl in H.
  destruct Hn as [-> | [-> | ->]].
  - intros y Hy. rewrite rune2_sum.
    apply (writes_spec _ y _ H). unfold locb, hicb, RuneSelf in *. lia.
  - intros y z Hy Hz. rewrite forallb_forall in H.
    specialize (H y (in_range _ _ _ Hy)).
    rewrite rune3_sum. apply (writes_spec _ z _ H Hz).
  - intros y z w Hy Hz Hw. rewrite forallb_forall in H.
    specialize (H y (in_range _ _ _ Hy)). rewrite forallb_forall in H.
    specialize (H z (in_range _ _ _ Hz)).
    rewrite rune4_sum. apply (writes_spec _ w _ H Hw).
Qed.

Lemma DecodeRune_shape (b : byte) (t : gostring) :
  RuneSelf <= Byte.to_N b -> decoded b t (DecodeRune (b :: t)).
Proof.
  intros Hb.
  assert (Hb' : (Byte.to_N b <? RuneSelf) = false) by (apply N.ltb_ge; lia).
  unfold DecodeRune. rewrite Hb'.
  destruct (leading (Byte.to_N b)) as [[[n lo] hi] |] eqn:Hl;
    [| destruct t; constructor].
  destruct (leading_spec _ _ _ _ Hl) as (Hn & Hlo & _ & _).
  pose proof (encodes_back_at _ _ _ _ Hl) as Henc.
  assert (Hcb : RuneSelf <= locb) by (unfold RuneSelf, locb; lia).
  destruct Hn as [-> | [-> | ->]].
  - destruct t as [| b1 t2]; [constructor |].
    destruct (between lo hi b1) eqn:H1; [| constructor].
    pose proof (between_spec _ _ _ H1) as R1.
    econstructor; [reflexivity | lia | |].
    + rewrite (Henc _ R1), !byte_of_to_N. reflexivity.
    + intros t'. unfold DecodeRune. rewrite Hb', Hl, H1. reflexivity.
  - destruct t as [| b1 [| b2 t3]]; try constructor.
    destruct (between lo hi b1) eqn:H1; [| constructor].
    destruct (between locb hicb b2) eqn:H2; [| constructor]. simpl.
    pose proof (between_spec _ _ _ H1) as R1.
    pose proof (between_spec _ _ _ H2) as R2.
    econstructor; [reflexivity | lia | lia | |].
    + rewrite (Henc _ _ R1 R2), !byte_of_to_N. reflexivity.
    + intros t'. unfold DecodeRune. rewrite Hb', Hl, H1, H2. reflexivity.
  - destruct t as [| b1 [| b2 [| b3 t4]]]; try constructor.
    destruct (between lo hi b1) eqn:H1; [| constructor].
    destruct (between locb hicb b2) eqn:H2; [| constructor].
    destruct (between locb hicb b3) eqn:H3; [| constructor]. simpl.
    pose proof (between_spec _ _ _ H1) as R1.
    pose proof (between_spec _ _ _ H2) as R2.
    pose proof (between_spec _ _ _ H3) as R3.
    econstructor; [reflexivity | lia | lia | lia | |].
    + rewrite (Henc _ _ _ R1 R2 R3), !byte_of_to_N. reflexivity.
    + intros t'. unfold DecodeRune. rewrite Hb', Hl, H1, H2, H3. reflexivity.
Qed.

End utf8.

(** ** [encoding/json], as far as the result package uses it *)

Module json.

#[local] Open Scope N_scope.
#[local] Open Scope byte_scope.

(** *** JSON texts *)

(** What a JSON text denotes.  A number keeps its literal, which is
    converted once the Go type it is decoded into is known; a string is
    kept unquoted; the members of an object are kept in the order of
    the text, repeated names included. *)
#[warnings="-register-all"]
Inductive value :=
| Null
| Bool (b : bool)
| Number (literal : gostring)
| String (s : gostring)
| Array (elements : list value)
| Object (members : list (gostring * value)).

Definition isSpace (c : byte) : bool :=
  match c with " " | "009" | "013" | "010" => true | _ => false end.

Definition isHex (c : byte) : bool :=
  strconv.isDigit c
  || utf8.between 97 102 c    (* a-f *)
  || utf8.between 65 70 c.    (* A-F *)

Definition hexValue (c : byte) : N :=
  if strconv.isDigit c then Byte.to_N c - 48
  else if utf8.between 97 102 c then Byte.to_N c - 87
  else Byte.to_N c - 55.

(** [getu4]: the value of four hexadecimal digits. *)
Definition getu4 (h1 h2 h3 h4 : byte) : option N :=
  if isHex h1 && isHex h2 && isHex h3 && isHex h4
  then Some (4096 * hexValue h1 + 256 * hexValue h2
             + 16 * hexValue h3 + hexValue h4)
  else None.

(** [utf16.IsSurrogate] and [utf16.DecodeRune]. *)
Definition IsSurrogate (r : N) : bool := (0xD800 <=? r) && (r <? 0xE000).

Definition DecodeSurrogates (r1 r2 : N) : option N :=
  if (0xD800 <=? r1) && (r1 <? 0xDC00) && (0xDC00 <=? r2) && (r2 <? 0xE000)
  then Some (N.lor (N.shiftl (r1 - 0xD800) 10) (r2 - 0xDC00) + 0x10000)
  else None.

Definition prepend (l : gostring) (o : option gostring) : option gostring :=
  option_map (app l) o.

(** [unquoteBytes], applied to what stands between the quotes of a
    string literal: escapes are replaced by what they denote, bytes
    that are not UTF-8 by U+FFFD.  [None] when the text is no string
    literal. *)
Fixpoint unquote (s : gostring) : option gostring :=
  match s with
  | [] => Some []
  | "\" :: t =>
      match t with
      | "u" :: h1 :: h2 :: h3 :: h4 :: t1 =>
          match getu4 h1 h2 h3 h4 with
          | None => None
          | Some rr =>
              if IsSurrogate rr then
                match t1 with
                | "\" :: "u" :: g1 :: g2 :: g3 :: g4 :: t2 =>
                    match getu4 g1 g2 g3 g4 with
                    | Some rr1 =>
                        match DecodeSurrogates rr rr1 with
                        | Some dec => prepend (utf8.EncodeRune dec) (unquote t2)
                        | None =>
                            prepend (utf8.EncodeRune utf8.RuneError) (unquote t1)
                        end
                    | None =>
                        prepend (utf8.EncodeRune utf8.RuneError) (unquote t1)
                    end
                | _ => prepend (utf8.EncodeRune utf8.RuneError) (unquote t1)
                end
              else prepend (utf8.EncodeRune rr) (unquote t1)
          end
      | "034" :: t1 => prepend ["034"] (unquote t1)
      | "\" :: t1 => prepend ["\"] (unquote t1)
      | "/" :: t1 => prepend ["/"] (unquote t1)
      | "'" :: t1 => prepend ["'"] (unquote t1)
      | "b" :: t1 => prepend ["008"] (unquote t1)
      | "f" :: t1 => prepend ["012"] (unquote t1)
      | "n" :: t1 => prepend ["010"] (unquote t1)
      | "r" :: t1 => prepend ["013"] (unquote t1)
      | "t" :: t1 => prepend ["009"] (unquote t1)
      | _ => None
      end
  | c :: t =>
      if Byte.eqb c "034" || (Byte.to_N c <? 32) then None
      else if Byte.to_N c <? utf8.RuneSelf then prepend [c] (unquote t)
      else
        match utf8.DecodeRune s, t with
        | (rr, 1%nat), _ => prepend (utf8.EncodeRune rr) (unquote t)
        | (rr, 2%nat), _ :: t2 => prepend (utf8.EncodeRune rr) (unquote t2)
        | (rr, 3%nat), _ :: _ :: t3 => prepend (utf8.EncodeRune rr) (unquote t3)
        | (rr, 4%nat), _ :: _ :: _ :: t4 =>
            prepend (utf8.EncodeRune rr) (unquote t4)
        | _, _ => None
        end
  end.

(** *** The scanner *)

(** The [parseState] stack.  A frame also holds what has been read of
    the array or object it stands for. *)
Inductive frame :=
| FArray (elements : list value)
    (* [parseArrayValue] *)
| FObjKey (members : list (gostring * value))
    (* [parseObjectKey], the key not read yet *)
| FObjColon (members : list (gostring * value)) (key : gostring)
    (* [parseObjectKey], the key read *)
| FObjValue (members : list (gostring * value)) (key : gostring)
    (* [parseObjectValue], the value not read yet *)
| FObjNext (members : list (gostring * value)).
    (* [parseObjectValue], the value read *)

(** The scanner's [step] functions.  The states inside a string or a
    number hold the bytes of the literal read so far. *)
Inductive mode :=
| BeginValue
| BeginValueOrEmpty
| BeginStringOrEmpty
| BeginString
| EndValue
| EndTop
| InString (raw : gostring)
| InStringEsc (raw : gostring)
| InStringEscU (seen : nat) (raw : gostring)
| Neg (lit : gostring)
| Zero (lit : gostring)
| Digits (lit : gostring)
| Dot (lit : gostring)
| Dot0 (lit : gostring)
| Exp (lit : gostring)
| ExpSign (lit : gostring)
| Exp0 (lit : gostring)
| Word (rest : gostring) (v : value).

Record scanner := {
  step_ : mode;
  parseState : list frame;
  top : option value;
}.

Definition maxNestingDepth : N := 10000.

Definition SyntaxError (msg : string) : error :=
  str "invalid character " ++ str msg.

Definition in_mode (m : mode) (s : scanner) : scanner :=
  {| step_ := m; parseState := parseState s; top := top s |}.

(** A value is complete: it is the top-level value, an element, a key
    or a member's value, after the frame on top of the stack. *)
Definition complete (v : value) (s : scanner) : error + scanner :=
  match parseState s with
  | [] => inr {| step_ := EndTop; parseState := []; top := Some v |}
  | FArray es :: k =>
      inr {| step_ := EndValue; parseState := FArray (es ++ [v]) :: k;
             top := top s |}
  | FObjKey ms :: k =>
      match v with
      | String key =>
          inr {| step_ := EndValue; parseState := FObjColon ms key :: k;
                 top := top s |}
      | _ => inl (SyntaxError "looking for beginning of object key string")
      end
  | FObjValue ms key :: k =>
      inr {| step_ := EndValue; parseState := FObjNext (ms ++ [(key, v)]) :: k;
             top := top s |}
  | FObjColon _ _ :: _ | FObjNext _ :: _ => inl (SyntaxError "after value")
  end.

Definition pushParseState (f : frame) (m : mode) (s : scanner)
  : error + scanner :=
  if N.of_nat (length (parseState s)) <? maxNestingDepth
  then inr {| step_ := m; parseState := f :: parseState s; top := top s |}
  else inl (str "exceeded max depth").

(** [stateEndValue] and [stateEndTop]. *)
Definition stateEndValue (s : scanner) (c : byte) : error + scanner :=
  match parseState s with
  | [] =>
      if isSpace c then inr (in_mode EndTop s)
      else inl (SyntaxError "after top-level value")
  | f :: k =>
      if isSpace c then inr (in_mode EndValue s)
      else
        let popped := {| step_ := EndValue; parseState := k; top := top s |} in
        match f, c with
        | FObjColon ms key, ":" =>
            inr {| step_ := BeginValue; parseState := FObjValue ms key :: k;
                   top := top s |}
        | FObjColon _ _, _ => inl (SyntaxError "after object key")
        | FObjNext ms, "," =>
            inr {| step_ := BeginString; parseState := FObjKey ms :: k;
                   top := top s |}
        | FObjNext ms, "}" => complete (Object ms) popped
        | FObjNext _, _ => inl (SyntaxError "after object key:value pair")
        | FArray es, "," => inr (in_mode BeginValue s)
        | FArray es, "]" => complete (Array es) popped
        | FArray _, _ => inl (SyntaxError "after array element")
        | _, _ => inl (SyntaxError "")
        end
  end.

(** [stateBeginValue]. *)
Definition stateBeginValue (s : scanner) (c : byte) : error + scanner :=
  if isSpace c then inr s
  else
    match c with
    | "{" => pushParseState (FObjKey []) BeginStringOrEmpty s
    | "[" => pushParseState (FArray []) BeginValueOrEmpty s
    | "034" => inr (in_mode (InString []) s)
    | "-" => inr (in_mode (Neg [c]) s)
    | "0" => inr (in_mode (Zero [c]) s)
    | "t" => inr (in_mode (Word (str "rue") (Bool true)) s)
    | "f" => inr (in_mode (Word (str "alse") (Bool false)) s)
    | "n" => inr (in_mode (Word (str "ull") Null) s)
    | _ =>
        if strconv.isDigit c then inr (in_mode (Digits [c]) s)
        else inl (SyntaxError "looking for beginning of value")
    end.

(** [stateBeginString]. *)
Definition stateBeginString (s : scanner) (c : byte) : error + scanner :=
  if isSpace c then inr s
  else
    match c with
    | "034" => inr (in_mode (InString []) s)
    | _ => inl (SyntaxError "looking for beginning of object key string")
    end.

(** The number [lit] ends before [c]. *)
Definition end_number (lit : gostring) (s : scanner) (c : byte)
  : error + scanner :=
  match complete (Number lit) s with
  | inr s' => stateEndValue s' c
  | inl e => inl e
  end.

(** [state0]: after a leading 0, or after the digits of the integer
    part. *)
Definition state0 (lit : gostring) (s : scanner) (c : byte)
  : error + scanner :=
  match c with
  | "." => inr (in_mode (Dot (lit ++ [c])) s)
  | "e" | "E" => inr (in_mode (Exp (lit ++ [c])) s)
  | _ => end_number lit s c
  end.

Definition stateESign (lit : gostring) (s : scanner) (c : byte)
  : error + scanner :=
  if strconv.isDigit c then inr (in_mode (Exp0 (lit ++ [c])) s)
  else inl (SyntaxError "in exponent of numeric literal").

(** One byte of input. *)
Definition step (s : scanner) (c : byte) : error + scanner :=
  match step_ s with
  | BeginValue => stateBeginValue s c
  | BeginValueOrEmpty =>
      if isSpace c then inr s
      else
        match c with
        | "]" => stateEndValue s c
        | _ => stateBeginValue s c
        end
  | BeginStringOrEmpty =>
      if isSpace c then inr s
      else
        match c, parseState s with
        | "}", FObjKey ms :: k =>
            stateEndValue {| step_ := EndValue; parseState := FObjNext ms :: k;
                             top := top s |} c
        | _, _ => stateBeginString s c
        end
  | BeginString => stateBeginString s c
  | EndValue | EndTop => stateEndValue s c
  | InString raw =>
      match c with
      | "034" =>
          match unquote raw with
          | Some text => complete (String text) s
          | None => inl (SyntaxError "in string literal")
          end
      | "\" => inr (in_mode (InStringEsc (raw ++ [c])) s)
      | _ =>
          if Byte.to_N c <? 32 then inl (SyntaxError "in string literal")
          else inr (in_mode (InString (raw ++ [c])) s)
      end
  | InStringEsc raw =>
      match c with
      | "b" | "f" | "n" | "r" | "t" | "\" | "/" | "034" =>
          inr (in_mode (InString (raw ++ [c])) s)
      | "u" => inr (in_mode (InStringEscU 0 (raw ++ [c])) s)
      | _ => inl (SyntaxError "in string escape code")
      end
  | InStringEscU seen raw =>
      if isHex c then
        match seen with
        | 3%nat => inr (in_mode (InString (raw ++ [c])) s)
        | _ => inr (in_mode (InStringEscU (S seen) (raw ++ [c])) s)
        end
      else inl (SyntaxError "in \u hexadecimal character escape")
  | Neg lit =>
      match c with
      | "0" => inr (in_mode (Zero (lit ++ [c])) s)
      | _ =>
          if strconv.isDigit c then inr (in_mode (Digits (lit ++ [c])) s)
          else inl (SyntaxError "in numeric literal")
      end
  | Zero lit => state0 lit s c
  | Digits lit =>
      if strconv.isDigit c then inr (in_mode (Digits (lit ++ [c])) s)
      else state0 lit s c
  | Dot lit =>
      if strconv.isDigit c then inr (in_mode (Dot0 (lit ++ [c])) s)
      else inl (SyntaxError "after decimal point in numeric literal")
  | Dot0 lit =>
      if strconv.isDigit c then inr (in_mode (Dot0 (lit ++ [c])) s)
      else
        match c with
        | "e" | "E" => inr (in_mode (Exp (lit ++ [c])) s)
        | _ => end_number lit s c
        end
  | Exp lit =>
      match c with
      | "+" | "-" => inr (in_mode (ExpSign (lit ++ [c])) s)
      | _ => stateESign lit s c
      end
  | ExpSign lit => stateESign lit s c
  | Exp0 lit =>
      if strconv.isDigit c then inr (in_mode (Exp0 (lit ++ [c])) s)
      else end_number lit s c
  | Word rest v =>
      match rest with
      | [] => inl (SyntaxError "in literal")
      | expected :: rest' =>
          if Byte.eqb c expected then
            match rest' with
            | [] => complete v s
            | _ => inr (in_mode (Word rest' v) s)
            end
          else inl (SyntaxError "in literal")
      end
  end.

(** The scanner, fed the bytes of [data] one after the other. *)
Fixpoint scan (s : scanner) (data : gostring) : error + scanner :=
  match data with
  | [] => inr s
  | c :: data' =>
      match step s c with
      | inr s' => scan s' data'
      | inl e => inl e
      end
  end.

Definition reset : scanner :=
  {| step_ := BeginValue; parseState := []; top := None |}.

(** [checkValid] followed by the decoding of the text: the value of a
    JSON text, or the syntax error.  At the end of the input the scanner
    is fed a space, which ends a number. *)
Definition parse (data : gostring) : error + value :=
  match scan reset data with
  | inl e => inl e
  | inr s =>
      match step s " " with
      | inl e => inl e
      | inr s' =>
          match step_ s', top s' with
          | EndTop, Some v => inr v
          | _, _ => inl (str "unexpected end of JSON input")
          end
      end
  end.

(** *** Go values decoded from, and encoded to, JSON *)

(** [float64] and its conversions are taken as given: the type, what
    [strconv.ParseFloat(s, 64)] returns for a number literal ([None]
    when the value is out of range), the text [encoding/json] writes
    for a float ([None] for NaN and the infinities, which it refuses),
    and the text [fmt] writes for [%v]. *)
Class Floats := {
  float64 : Type;
  ParseFloat : gostring -> option float64;
  FormatFloat : float64 -> option gostring;
  SprintFloat : float64 -> gostring;
}.

Section Values.

Context `{FL : Floats}.

(** The dynamic types [encoding/json] stores in an [interface{}]:
    [nil], [bool], [float64], [string], [[]interface{}] and
    [map[string]interface{}].  A map is a list of entries with distinct
    keys. *)
#[warnings="-register-all"]
Inductive any :=
| ANil
| ABool (b : bool)
| AFloat64 (f : float64)
| AString (s : gostring)
| ASlice (l : list any)
| AMap (m : list (gostring * any)).

Definition eqb_bytes (a b : gostring) : bool := bool_decide (a = b).

(** [m[k]] with the comma-ok form. *)
Fixpoint map_lookup (k : gostring) (m : list (gostring * any)) : option any :=
  match m with
  | [] => None
  | (k', v) :: m' => if eqb_bytes k k' then Some v else map_lookup k m'
  end.

(** [m[k] = v]. *)
Fixpoint map_store (k : gostring) (v : any) (m : list (gostring * any))
  : list (gostring * any) :=
  match m with
  | [] => [(k, v)]
  | (k', v') :: m' =>
      if eqb_bytes k k' then (k, v) :: m' else (k', v') :: map_store k v m'
  end.

Definition UnmarshalTypeError (what : string) : error :=
  str "json: cannot unmarshal " ++ str what.

(** Decoding into an [interface{}] ([valueInterface]). *)
Fixpoint to_any (v : value) : error + any :=
  match v with
  | Null => inr ANil
  | Bool b => inr (ABool b)
  | Number lit =>
      match ParseFloat lit with
      | Some f => inr (AFloat64 f)
      | None => inl (UnmarshalTypeError "number")
      end
  | String s => inr (AString s)
  | Array l =>
      (fix elements (l : list value) (acc : list any) : error + any :=
         match l with
         | [] => inr (ASlice acc)
         | x :: l' =>
             match to_any x with
             | inr a => elements l' (acc ++ [a])
             | inl e => inl e
             end
         end) l []
  | Object ms =>
      (fix members (ms : list (gostring * value)) (acc : list (gostring * any))
         : error + any :=
         match ms with
         | [] => inr (AMap acc)
         | (k, x) :: ms' =>
             match to_any x with
             | inr a => members ms' (map_store k a acc)
             | inl e => inl e
             end
         end) ms []
  end.

(** *** Encoding *)

Definition hex (n : N) : byte :=
  utf8.byte_of (if n <? 10 then 48 + n else 87 + n).

(** [appendString] with [escapeHTML] set, for a byte below
    [utf8.RuneSelf], as of the Go release the module file names
    (1.21). *)
Definition escape_ascii (b : byte) : gostring :=
  match b with
  | "\" | "034" => ["\"; b]
  | "010" => ["\"; "n"]
  | "013" => ["\"; "r"]
  | "009" => ["\"; "t"]
  | _ =>
      if (Byte.to_N b <? 32)
         || Byte.eqb b "<" || Byte.eqb b ">" || Byte.eqb b "&"
      then ["\"; "u"; "0"; "0";
            hex (N.shiftr (Byte.to_N b) 4); hex (N.land (Byte.to_N b) 0xF)]
      else [b]
  end.

(** [appendString], what it writes between the quotes. *)
Fixpoint quote_body (s : gostring) : gostring :=
  match s with
  | [] => []
  | b :: t =>
      if Byte.to_N b <? utf8.RuneSelf then escape_ascii b ++ quote_body t
      else
        match utf8.DecodeRune s, t with
        | (_, 1%nat), _ => ["\"; "u"; "f"; "f"; "f"; "d"] ++ quote_body t
        | (_, 2%nat), b1 :: t2 => [b; b1] ++ quote_body t2
        | (c, 3%nat), b1 :: b2 :: t3 =>
            (if N.eqb c 0x2028 || N.eqb c 0x2029
             then [ "\"; "u"; "2"; "0"; "2"; hex (N.land c 0xF)]
             else [b; b1; b2]) ++ quote_body t3
        | (_, 4%nat), b1 :: b2 :: b3 :: t4 => [b; b1; b2; b3] ++ quote_body t4
        | _, _ => []
        end
  end.

Definition quote (s : gostring) : gostring :=
  ["034"] ++ quote_body s ++ ["034"].

(** Go's order on strings. *)
Fixpoint less (a b : gostring) : bool :=
  match a, b with
  | _, [] => false
  | [], _ :: _ => true
  | x :: a', y :: b' =>
      if Byte.to_N x <? Byte.to_N y then true
      else if Byte.to_N y <? Byte.to_N x then false
      else less a' b'
  end.

Fixpoint insert_by_key {A} (k : gostring) (x : A) (l : list (gostring * A))
  : list (gostring * A) :=
  match l with
  | [] => [(k, x)]
  | (k', x') :: l' =>
      if less k k' then (k, x) :: l else (k', x') :: insert_by_key k x l'
  end.

Definition sort_by_key {A} (l : list (gostring * A)) : list (gostring * A) :=
  foldr (fun kx acc => insert_by_key kx.1 kx.2 acc) [] l.

Fixpoint join (sep : gostring) (parts : list gostring) : gostring :=
  match parts with
  | [] => []
  | [p] => p
  | p :: parts' => p ++ sep ++ join sep parts'
  end.

Fixpoint all_some {A} (l : list (option A)) : option (list A) :=
  match l with
  | [] => Some []
  | Some x :: l' => option_map (cons x) (all_some l')
  | None :: _ => None
  end.

Fixpoint all_some_snd {A} (l : list (gostring * option A))
  : option (list (gostring * A)) :=
  match l with
  | [] => Some []
  | (k, Some x) :: l' => option_map (cons (k, x)) (all_some_snd l')
  | (_, None) :: _ => None
  end.

(** [json.Marshal] of a value held in an [interface{}]; [None] when it
    returns an error.  The keys of a map are written in sorted
    order. *)
Fixpoint marshal (v : any) : option gostring :=
  match v with
  | ANil => Some (str "null")
  | ABool true => Some (str "true")
  | ABool false => Some (str "false")
  | AFloat64 f => FormatFloat f
  | AString s => Some (quote s)
  | ASlice l =>
      option_map (fun parts => str "[" ++ join (str ",") parts ++ str "]")
                 (all_some (map marshal l))
  | AMap m =>
      option_map
        (fun entries =>
           str "{" ++
           join (str ",")
                (map (fun kx => quote kx.1 ++ str ":" ++ kx.2)
                     (sort_by_key entries)) ++
           str "}")
        (all_some_snd (map (fun kx => (kx.1, marshal kx.2)) m))
  end.

(** [fmt]'s [%v]. *)
Fixpoint Sprint (v : any) : gostring :=
  match v with
  | ANil => str "<nil>"
  | ABool true => str "true"
  | ABool false => str "false"
  | AFloat64 f => SprintFloat f
  | AString s => s
  | ASlice l => str "[" ++ join (str " ") (map Sprint l) ++ str "]"
  | AMap m =>
      str "map[" ++
      join (str " ")
           (map (fun kx => kx.1 ++ str ":" ++ kx.2)
                (sort_by_key (map (fun kx => (kx.1, Sprint kx.2)) m))) ++
      str "]"
  end.

End Values.

(** An instance to run the model on: the floats are the integers below
    [2^53] in magnitude, read and written in plain decimal notation. *)
Definition small_integers : Floats := {|
  float64 := Z;
  ParseFloat lit :=
    match strconv.ParseInt lit 64 with
    | Some z => if (Z.abs z <? 2 ^ 53)%Z then Some z else None
    | None => None
    end;
  FormatFloat z := Some (strconv.FormatInt z);
  SprintFloat z := strconv.FormatInt z;
|}.

(** *** Numbers and strings, as the scanner reads them *)

Lemma scan_app (s : scanner) (a b : gostring) :
  scan s (a ++ b) =
  match scan s a with
  | inr s' => scan s' b
  | inl e => inl e
  end.
Proof.
  revert s. induction a as [| c a IH]; intros s; [reflexivity |].
  simpl. destruct (step s c) as [e | s']; [reflexivity | apply IH].
Qed.

(** The grammar of number literals, as a recogniser of its own. *)
Inductive number_state :=
| NStart | NNeg | NZero | NDigits | NDot | NDot0 | NExp | NExpSign | NExp0.

Definition number_next (q : number_state) (c : byte) : option number_state :=
  let after_int :=
    if Byte.eqb c "." then Some NDot
    else if Byte.eqb c "e" || Byte.eqb c "E" then Some NExp
    else None in
  match q with
  | NStart | NNeg =>
      if Byte.eqb c "-" then (if q is NStart then Some NNeg else None)
      else if Byte.eqb c "0" then Some NZero
      else if strconv.isDigit c then Some NDigits
      else None
  | NZero => after_int
  | NDigits => if strconv.isDigit c then Some NDigits else after_int
  | NDot => if strconv.isDigit c then Some NDot0 else None
  | NDot0 =>
      if strconv.isDigit c then Some NDot0
      else if Byte.eqb c "e" || Byte.eqb c "E" then Some NExp
      else None
  | NExp =>
      if Byte.eqb c "+" || Byte.eqb c "-" then Some NExpSign
      else if strconv.isDigit c then Some NExp0
      else None
  | NExpSign | NExp0 => if strconv.isDigit c then Some NExp0 else None
  end.

Definition number_accepts (q : number_state) : bool :=
  match q with NZero | NDigits | NDot0 | NExp0 => true | _ => false end.

Fixpoint number_run (q : number_state) (lit : gostring) : option number_state :=
  match lit with
  | [] => Some q
  | c :: lit' =>
      match number_next q c with
      | Some q' => number_run q' lit'
      | None => None
      end
  end.

(** [lit] is a JSON number. *)
Definition is_number (lit : gostring) : bool :=
  match number_run NStart lit with
  | Some q => number_accepts q
  | None => false
  end.

(** A byte that cannot continue a number. *)
Definition ends_number (c : byte) : bool :=
  negb (strconv.isDigit c || Byte.eqb c "." || Byte.eqb c "e"
        || Byte.eqb c "E").

Definition number_mode (q : number_state) (lit : gostring) : mode :=
  match q with
  | NStart => BeginValue
  | NNeg => Neg lit
  | NZero => Zero lit
  | NDigits => Digits lit
  | NDot => Dot lit
  | NDot0 => Dot0 lit
  | NExp => Exp lit
  | NExpSign => ExpSign lit
  | NExp0 => Exp0 lit
  end.

Lemma number_step (q q' : number_state) (c : byte) (lit : gostring) (s : scanner) :
  number_next q c = Some q' -> (q = NStart -> lit = []) ->
  step (in_mode (number_mode q lit) s) c
  = inr (in_mode (number_mode q' (lit ++ [c])) s).
Proof.
  intros Hnext Hstart.
  destruct q; try (rewrite (Hstart eq_refl)); clear Hstart;
    destruct c; simpl in Hnext; try discriminate Hnext;
    injection Hnext as <-; reflexivity.
Qed.

Lemma number_stop (q : number_state) (c : byte) (lit : gostring) (s : scanner) :
  number_accepts q = true -> ends_number c = true ->
  step (in_mode (number_mode q lit) s) c = end_number lit (in_mode EndValue s) c.
Proof.
  intros Hacc Hend.
  destruct q; try discriminate Hacc;
    destruct c; try discriminate Hend; reflexivity.
Qed.

Lemma scan_number_from (lit : gostring) :
  forall q q' acc c rest s,
  number_run q lit = Some q' -> number_accepts q' = true ->
  (q = NStart -> acc = []) -> ends_number c = true ->
  scan (in_mode (number_mode q acc) s) (lit ++ c :: rest) =
  match end_number (acc ++ lit) (in_mode EndValue s) c with
  | inr s' => scan s' rest
  | inl e => inl e
  end.
Proof.
  induction lit as [| d lit IH]; intros q q' acc c rest s Hrun Hacc Hstart Hend.
  - simpl in Hrun. injection Hrun as <-. simpl.
    rewrite (number_stop q c acc s Hacc Hend), app_nil_r. reflexivity.
  - simpl in Hrun. destruct (number_next q d) as [q1 |] eqn:Hnext; [| discriminate].
    simpl. rewrite (number_step q q1 d acc s Hnext Hstart).
    rewrite (IH q1 q' (acc ++ [d]) c rest s Hrun Hacc); [| | exact Hend].
    + now rewrite <- app_assoc.
    + intros ->. destruct q; simpl in Hnext;
        repeat match type of Hnext with
        | context [if ?b then _ else _] => destruct b
        end; discriminate.
Qed.

(** Where a value is expected, the scanner reads a number up to the
    byte that ends it. *)
Lemma scan_number (lit : gostring) (c : byte) (rest : gostring) (s : scanner) :
  is_number lit = true -> ends_number c = true -> step_ s = BeginValue ->
  scan s (lit ++ c :: rest) =
  match end_number lit (in_mode EndValue s) c with
  | inr s' => scan s' rest
  | inl e => inl e
  end.
Proof.
  unfold is_number. intros Hnum Hend Hmode.
  destruct (number_run NStart lit) as [q' |] eqn:Hrun; [| discriminate].
  replace s with (in_mode (number_mode NStart []) s)
    by (destruct s; simpl in *; now subst).
  rewrite (scan_number_from lit NStart q' [] c rest); auto.
Qed.

(** The grammar of what stands between the quotes of a string
    literal. *)
Inductive string_state :=
| SPlain
| SEsc
| SHex (seen : nat).

Definition string_next (q : string_state) (c : byte) : option string_state :=
  match q with
  | SPlain =>
      if Byte.eqb c "034" then None
      else if Byte.eqb c "\" then Some SEsc
      else if Byte.to_N c <? 32 then None
      else Some SPlain
  | SEsc =>
      match c with
      | "b" | "f" | "n" | "r" | "t" | "\" | "/" | "034" => Some SPlain
      | "u" => Some (SHex 0)
      | _ => None
      end
  | SHex seen =>
      if isHex c then
        match seen with
        | 3%nat => Some SPlain
        | _ => Some (SHex (S seen))
        end
      else None
  end.

Fixpoint string_run (q : string_state) (body : gostring) : option string_state :=
  match body with
  | [] => Some q
  | c :: body' =>
      match string_next q c with
      | Some q' => string_run q' body'
      | None => None
      end
  end.

Definition string_mode (q : string_state) (raw : gostring) : mode :=
  match q with
  | SPlain => InString raw
  | SEsc => InStringEsc raw
  | SHex seen => InStringEscU seen raw
  end.

Lemma string_step (q q' : string_state) (c : byte) (raw : gostring) (s : scanner) :
  string_next q c = Some q' ->
  step (in_mode (string_mode q raw) s) c
  = inr (in_mode (string_mode q' (raw ++ [c])) s).
Proof.
  intros Hnext.
  destruct q as [| | [| [| [| [| seen]]]]];
    destruct c; simpl in Hnext; try discriminate Hnext;
    injection Hnext as <-; reflexivity.
Qed.

Lemma scan_string_body (body : gostring) :
  forall q q' raw rest s,
  string_run q body = Some q' ->
  scan (in_mode (string_mode q raw) s) (body ++ rest)
  = scan (in_mode (string_mode q' (raw ++ body)) s) rest.
Proof.
  induction body as [| c body IH]; intros q q' raw rest s Hrun.
  - simpl in Hrun. injection Hrun as <-. now rewrite app_nil_r.
  - simpl in Hrun. destruct (string_next q c) as [q1 |] eqn:Hnext; [| discriminate].
    simpl. rewrite (string_step q q1 c raw s Hnext).
    rewrite (IH q1 q' (raw ++ [c]) rest s Hrun). now rewrite <- app_assoc.
Qed.

Lemma string_run_app (a b : gostring) (q : string_state) :
  string_run q (a ++ b) =
  match string_run q a with
  | Some q' => string_run q' b
  | None => None
  end.
Proof.
  revert q. induction a as [| c a IH]; intros q; [reflexivity |].
  simpl. destruct (string_next q c); [apply IH | reflexivity].
Qed.

Lemma step_closing_quote (raw : gostring) (s : scanner) :
  step (in_mode (InString raw) s) "034" =
  match unquote raw with
  | Some text => complete (String text) s
  | None => inl (SyntaxError "in string literal")
  end.
Proof. destruct s. unfold step. simpl. destruct (unquote raw); reflexivity. Qed.

(** Where a value or a key is expected, the scanner reads a string
    literal up to its closing quote. *)
Lemma scan_string (body rest : gostring) (s : scanner) :
  string_run SPlain body = Some SPlain ->
  step_ s = BeginValue \/ step_ s = BeginString ->
  scan s ("034"%byte :: body ++ "034"%byte :: rest) =
  match unquote body with
  | Some text =>
      match complete (String text) s with
      | inr s' => scan s' rest
      | inl e => inl e
      end
  | None => inl (SyntaxError "in string literal")
  end.
Proof.
  intros Hbody Hmode.
  assert (Hopen : step s "034" = inr (in_mode (string_mode SPlain []) s)).
  { destruct s as [m k t]. simpl in Hmode. destruct Hmode; subst m; reflexivity. }
  simpl. rewrite Hopen.
  rewrite (scan_string_body body SPlain SPlain [] _ s Hbody).
  cbn [scan string_mode app]. rewrite step_closing_quote.
  destruct (unquote body) as [text |]; reflexivity.
Qed.

(** What [appendString] writes is always a string literal. *)
Lemma escape_ascii_ok (b : byte) :
  string_run SPlain (escape_ascii b) = Some SPlain.
Proof. destruct b; reflexivity. Qed.

Lemma high_byte_plain (b : byte) :
  utf8.RuneSelf <= Byte.to_N b -> string_next SPlain b = Some SPlain.
Proof.
  intros Hb. unfold string_next.
  destruct (Byte.eqb b "034") eqn:E1.
  { apply Byte.byte_dec_bl in E1. subst b. vm_compute in Hb. now destruct Hb. }
  destruct (Byte.eqb b "\") eqn:E2.
  { apply Byte.byte_dec_bl in E2. subst b. vm_compute in Hb. now destruct Hb. }
  replace (Byte.to_N b <? 32) with false; [reflexivity |].
  symmetry. apply N.ltb_ge. unfold utf8.RuneSelf in Hb. lia.
Qed.

Lemma hex_ok (n : N) : n < 16 -> isHex (hex n) = true.
Proof.
  intros Hn.
  assert (H : forallb (fun k => isHex (hex (N.of_nat k))) (seq 0 16) = true)
    by reflexivity.
  rewrite forallb_forall in H.
  specialize (H (N.to_nat n)). rewrite N2Nat.id in H.
  apply H, in_seq. lia.
Qed.

Lemma quote_body_ok_upto (n : nat) :
  forall s, (length s <= n)%nat -> string_run SPlain (quote_body s) = Some SPlain.
Proof.
  induction n as [| n IH]; intros s Hlen;
    destruct s as [| b t]; try reflexivity; simpl in Hlen; [lia |].
  cbn [quote_body]. destruct (Byte.to_N b <? utf8.RuneSelf) eqn:Hb.
  - rewrite string_run_app, escape_ascii_ok. apply IH. lia.
  - apply N.ltb_ge in Hb.
    pose proof (utf8.DecodeRune_shape b t Hb) as Hshape.
    destruct Hshape as [| b1 t2 c Ht H1 | b1 b2 t3 c Ht H1 H2
                        | b1 b2 b3 t4 c Ht H1 H2 H3]; try subst t.
    + cbn [app string_run string_next]. apply IH. lia.
    + cbn [app string_run]. rewrite !high_byte_plain by assumption.
      apply IH. simpl in Hlen. lia.
    + destruct (N.eqb c 0x2028 || N.eqb c 0x2029) eqn:Hsep.
      * assert (Hhex : isHex (hex (N.land c 0xF)) = true).
        { apply hex_ok. change 0xF with (N.ones 4). rewrite N.land_ones.
          apply N.mod_lt. discriminate. }
        cbn [app string_run string_next]. simpl. rewrite Hhex.
        apply IH. simpl in Hlen. lia.
      * cbn [app string_run]. rewrite !high_byte_plain by assumption.
        apply IH. simpl in Hlen. lia.
    + cbn [app string_run]. rewrite !high_byte_plain by assumption.
      apply IH. simpl in Hlen. lia.
Qed.

Lemma quote_body_ok (s : gostring) :
  string_run SPlain (quote_body s) = Some SPlain.
Proof. apply (quote_body_ok_upto (length s)). reflexivity. Qed.

(** Unquoting what [appendString] wrote for a valid UTF-8 string gives
    the string back. *)
Lemma unquote_escape_ascii (b : byte) (rest : gostring) :
  (Byte.to_N b <? utf8.RuneSelf) = true ->
  unquote (escape_ascii b ++ rest) = prepend [b] (unquote rest).
Proof.
  intros Hb. destruct b; try (vm_compute in Hb; discriminate Hb); reflexivity.
Qed.

Lemma unquote_high (b : byte) (t : gostring) :
  (Byte.to_N b <? utf8.RuneSelf) = false ->
  unquote (b :: t) =
  match utf8.DecodeRune (b :: t), t with
  | (rr, 1%nat), _ => prepend (utf8.EncodeRune rr) (unquote t)
  | (rr, 2%nat), _ :: t2 => prepend (utf8.EncodeRune rr) (unquote t2)
  | (rr, 3%nat), _ :: _ :: t3 => prepend (utf8.EncodeRune rr) (unquote t3)
  | (rr, 4%nat), _ :: _ :: _ :: t4 => prepend (utf8.EncodeRune rr) (unquote t4)
  | _, _ => None
  end.
Proof.
  intros Hb. destruct b; try (vm_compute in Hb; discriminate Hb); reflexivity.
Qed.

Lemma unquote_quote_body_upto (n : nat) :
  forall s, (length s <= n)%nat -> utf8.Valid s = true ->
  unquote (quote_body s) = Some s.
Proof.
  induction n as [| n IH]; intros s Hlen Hv;
    destruct s as [| b t]; try reflexivity; simpl in Hlen; [lia |].
  cbn [quote_body utf8.Valid] in *.
  destruct (Byte.to_N b <? utf8.RuneSelf) eqn:Hb.
  - rewrite (unquote_escape_ascii b _ Hb), IH by (auto; lia). reflexivity.
  - pose proof Hb as Hb'. apply N.ltb_ge in Hb'.
    pose proof (utf8.DecodeRune_shape b t Hb') as Hshape.
    revert Hv.
    destruct Hshape as [| b1 t2 c Ht H1 Henc Hdec
                        | b1 b2 t3 c Ht H1 H2 Henc Hdec
                        | b1 b2 b3 t4 c Ht H1 H2 H3 Henc Hdec]; try subst t;
      intros Hv; try discriminate Hv; simpl in Hlen.
    + cbn [app]. rewrite (unquote_high b _ Hb), Hdec, Henc.
      rewrite IH by (auto; lia). reflexivity.
    + destruct (N.eqb_spec c 0x2028) as [-> | Hc1];
        [| destruct (N.eqb_spec c 0x2029) as [-> | Hc2]]; cbn [orb].
      * change (unquote (_ ++ quote_body t3))
          with (prepend (utf8.EncodeRune 0x2028) (unquote (quote_body t3))).
        rewrite Henc, IH by (auto; lia). reflexivity.
      * change (unquote (_ ++ quote_body t3))
          with (prepend (utf8.EncodeRune 0x2029) (unquote (quote_body t3))).
        rewrite Henc, IH by (auto; lia). reflexivity.
      * cbn [app]. rewrite (unquote_high b _ Hb), Hdec, Henc.
        rewrite IH by (auto; lia). reflexivity.
    + cbn [app]. rewrite (unquote_high b _ Hb), Hdec, Henc.
      rewrite IH by (auto; lia). reflexivity.
Qed.

Lemma unquote_quote_body (s : gostring) :
  utf8.Valid s = true -> unquote (quote_body s) = Some s.
Proof. apply (unquote_quote_body_upto (length s)). reflexivity. Qed.

(** The decimal numerals of [strconv] are JSON numbers. *)
Lemma digits_run (d : Decimal.uint) :
  number_run NDigits (strconv.digits d) = Some NDigits.
Proof. induction d; simpl; auto. Qed.

Lemma is_number_leads (d : Decimal.uint) :
  strconv.leads d ->
  number_run NStart (strconv.digits d) = Some NDigits /\
  number_run NNeg (strconv.digits d) = Some NDigits.
Proof.
  destruct d; simpl; intros H; try contradiction;
    rewrite digits_run; split; reflexivity.
Qed.

Lemma is_number_FormatUint (n : N) : is_number (strconv.FormatUint n) = true.
Proof.
  unfold is_number, strconv.FormatUint. destruct n as [| p]; [reflexivity |].
  change (N.to_uint (N.pos p)) with (Pos.to_uint p).
  destruct (is_number_leads _ (strconv.to_uint_leads p)) as [-> _].
  reflexivity.
Qed.

Lemma is_number_FormatInt (z : Z) : is_number (strconv.FormatInt z) = true.
Proof.
  destruct z as [| p | p]; try apply is_number_FormatUint.
  unfold is_number, strconv.FormatInt. cbn [number_run number_next].
  change (Byte.eqb "-" "-") with true. cbv iota.
  destruct (is_number_leads _ (strconv.to_uint_leads p)) as [_ ->].
  reflexivity.
Qed.

(** *** Reading a value inside an object *)

(** The text [v] followed by a closing brace is read, where a value is
    expected, as the value [w]. *)
Definition reads (v : gostring) (w : value) : Prop :=
  forall (s : scanner) (rest : gostring),
  step_ s = BeginValue ->
  scan s (v ++ "}"%byte :: rest) =
  match complete w (in_mode EndValue s) with
  | inr s' =>
      match stateEndValue s' "}" with
      | inr s'' => scan s'' rest
      | inl e => inl e
      end
  | inl e => inl e
  end.

Lemma complete_then (w : value) (s s' : scanner) (c : byte) :
  complete w s = inr s' -> step s' c = stateEndValue s' c.
Proof.
  unfold complete. intros H.
  destruct (parseState s) as [| [es | ms | ms key | ms key | ms] k];
    try discriminate H;
    try (destruct w; try discriminate H);
    injection H as <-; reflexivity.
Qed.

Lemma complete_in_mode (w : value) (m : mode) (s : scanner) :
  complete w (in_mode m s) = complete w s.
Proof. destruct s. reflexivity. Qed.

Lemma reads_word (word : gostring) (c : byte) (w : value) :
  (forall s, step_ s = BeginValue ->
             scan s (c :: word) = complete w (in_mode EndValue s)) ->
  reads (c :: word) w.
Proof.
  intros Hword s rest Hmode.
  change ((c :: word) ++ "}"%byte :: rest)
    with ((c :: word) ++ ["}"%byte] ++ rest).
  rewrite scan_app, (Hword s Hmode).
  destruct (complete w (in_mode EndValue s)) as [e | s'] eqn:Hc; [reflexivity |].
  cbn [app scan]. now rewrite (complete_then w _ s' "}" Hc).
Qed.

Lemma scan_word (s : scanner) (c : byte) (word : gostring) (w : value) :
  step_ s = BeginValue ->
  stateBeginValue s c = inr (in_mode (Word word w) s) ->
  word <> [] ->
  scan s (c :: word) = complete w (in_mode EndValue s).
Proof.
  intros Hmode Hfirst Hne.
  cbn [scan]. unfold step at 1. rewrite Hmode, Hfirst.
  rewrite complete_in_mode. clear Hfirst Hmode.
  assert (Hgen : forall rest,
             rest <> [] ->
             scan (in_mode (Word rest w) s) rest = complete w s).
  { intros rest. induction rest as [| x rest IH]; [congruence |].
    intros _. cbn [scan]. unfold step at 1. cbn [step_ in_mode].
    replace (Byte.eqb x x) with true by (now destruct x).
    destruct rest as [| y rest'].
    - rewrite complete_in_mode.
      destruct (complete w s); reflexivity.
    - replace (in_mode (Word (y :: rest') w) (in_mode (Word (x :: y :: rest') w) s))
        with (in_mode (Word (y :: rest') w) s) by (destruct s; reflexivity).
      apply IH. discriminate. }
  apply (Hgen word Hne).
Qed.

Lemma reads_null : reads (str "null") Null.
Proof.
  apply reads_word. intros s Hmode.
  apply scan_word; [exact Hmode | destruct s; reflexivity | discriminate].
Qed.

Lemma reads_true : reads (str "true") (Bool true).
Proof.
  apply reads_word. intros s Hmode.
  apply scan_word; [exact Hmode | destruct s; reflexivity | discriminate].
Qed.

Lemma reads_false : reads (str "false") (Bool false).
Proof.
  apply reads_word. intros s Hmode.
  apply scan_word; [exact Hmode | destruct s; reflexivity | discriminate].
Qed.

Lemma reads_number (lit : gostring) :
  is_number lit = true -> reads lit (Number lit).
Proof.
  intros Hnum s rest Hmode.
  rewrite (scan_number lit "}" rest s Hnum eq_refl Hmode).
  unfold end_number.
  destruct (complete (Number lit) (in_mode EndValue s)); reflexivity.
Qed.

Lemma reads_string (s : gostring) :
  unquote (quote_body s) = Some s -> reads (quote s) (String s).
Proof.
  intros Hs sc rest Hmode. unfold quote.
  change (["034"%byte] ++ quote_body s ++ ["034"%byte])
    with ("034"%byte :: quote_body s ++ ["034"%byte]).
  rewrite <- app_comm_cons, <- app_assoc. cbn [app].
  rewrite (scan_string (quote_body s) _ sc (quote_body_ok s)) by (now left).
  rewrite Hs, complete_in_mode.
  destruct (complete (String s) sc) as [e | s'] eqn:Hc; [reflexivity |].
  cbn [scan]. now rewrite (complete_then _ _ s' "}" Hc).
Qed.

(** A JSON text written with apostrophes for the quotation marks. *)
Definition text (s : string) : gostring :=
  map (fun c => if Byte.eqb c "'" then "034" else c) (str s).

(** *** The envelope *)

(** The text the struct encoder writes for a [jsonResult] whose [Value]
    is a [jsonResultValue], given the texts of the four values. *)
Definition envelope (k t e v : gostring) : gostring :=
  text "{'Key':" ++ k ++ text ",'Tag':" ++ t ++ text ",'Error':" ++ e ++
  text ",'Value':{'value':" ++ v ++ text "}}".

(** Read back, it is an object with the four members, the last one a
    wrapper. *)
Lemma parse_envelope (k t e v : gostring) (w : value) :
  is_number k = true -> is_number t = true -> is_number e = true ->
  reads v w ->
  parse (envelope k t e v) =
  inr (Object [(str "Key", Number k); (str "Tag", Number t);
               (str "Error", Number e);
               (str "Value", Object [(str "value", w)])]).
Proof.
  intros Hk Ht He Hv. unfold parse, envelope.
  pose (ms1 := [(str "Key", Number k)]).
  pose (ms2 := ms1 ++ [(str "Tag", Number t)]).
  pose (ms3 := ms2 ++ [(str "Error", Number e)]).
  pose (at_value := fun ms name =>
          {| step_ := BeginValue; parseState := [FObjValue ms name];
             top := None |}).
  pose (at_key := fun ms =>
          {| step_ := BeginString; parseState := [FObjKey ms]; top := None |}).
  (* up to the key *)
  rewrite scan_app.
  change (scan reset (text "{'Key':")) with (@inr error _ (at_value [] (str "Key"))).
  cbv iota.
  change (text ",'Tag':" ++ ?r) with (","%byte :: text "'Tag':" ++ r).
  rewrite (scan_number k "," _ (at_value [] (str "Key")) Hk eq_refl eq_refl).
  change (end_number k (in_mode EndValue (at_value [] (str "Key"))) ",")
    with (@inr error _ (at_key ms1)).
  cbv iota.
  (* the tag *)
  rewrite scan_app.
  change (scan (at_key ms1) (text "'Tag':"))
    with (@inr error _ (at_value ms1 (str "Tag"))).
  cbv iota.
  change (text ",'Error':" ++ ?r) with (","%byte :: text "'Error':" ++ r).
  rewrite (scan_number t "," _ (at_value ms1 (str "Tag")) Ht eq_refl eq_refl).
  change (end_number t (in_mode EndValue (at_value ms1 (str "Tag"))) ",")
    with (@inr error _ (at_key ms2)).
  cbv iota.
  (* the error code *)
  rewrite scan_app.
  change (scan (at_key ms2) (text "'Error':"))
    with (@inr error _ (at_value ms2 (str "Error"))).
  cbv iota.
  change (text ",'Value':{'value':" ++ ?r)
    with (","%byte :: text "'Value':{'value':" ++ r).
  rewrite (scan_number e "," _ (at_value ms2 (str "Error")) He eq_refl eq_refl).
  change (end_number e (in_mode EndValue (at_value ms2 (str "Error"))) ",")
    with (@inr error _ (at_key ms3)).
  cbv iota.
  (* the wrapper and the value *)
  rewrite scan_app.
  pose (inner := {| step_ := BeginValue;
                    parseState := [FObjValue [] (str "value");
                                   FObjValue ms3 (str "Value")];
                    top := None |}).
  change (scan (at_key ms3) (text "'Value':{'value':")) with (@inr error _ inner).
  cbv iota.
  change (text "}}") with ["}"%byte; "}"%byte].
  rewrite (Hv inner ["}"%byte] eq_refl).
  reflexivity.
Qed.

(** *** Strings that are not valid UTF-8 *)

(** What a string becomes when it is marshalled and decoded: each byte
    that does not begin a well-formed sequence is replaced by the
    encoding of U+FFFD. *)
Fixpoint replaced (s : gostring) : gostring :=
  match s with
  | [] => []
  | b :: t =>
      if Byte.to_N b <? utf8.RuneSelf then b :: replaced t
      else
        match utf8.DecodeRune s, t with
        | (_, 1%nat), _ => utf8.EncodeRune utf8.RuneError ++ replaced t
        | (_, 2%nat), b1 :: t2 => b :: b1 :: replaced t2
        | (_, 3%nat), b1 :: b2 :: t3 => b :: b1 :: b2 :: replaced t3
        | (_, 4%nat), b1 :: b2 :: b3 :: t4 => b :: b1 :: b2 :: b3 :: replaced t4
        | _, _ => []
        end
  end.

Lemma unquote_quote_body_replaced_upto (n : nat) :
  forall s, (length s <= n)%nat -> unquote (quote_body s) = Some (replaced s).
Proof.
  induction n as [| n IH]; intros s Hlen;
    destruct s as [| b t]; try reflexivity; simpl in Hlen; [lia |].
  cbn [quote_body replaced].
  destruct (Byte.to_N b <? utf8.RuneSelf) eqn:Hb.
  - rewrite (unquote_escape_ascii b _ Hb), IH by lia. reflexivity.
  - pose proof Hb as Hb'. apply N.ltb_ge in Hb'.
    pose proof (utf8.DecodeRune_shape b t Hb') as Hshape.
    destruct Hshape as [| b1 t2 c Ht H1 Henc Hdec
                        | b1 b2 t3 c Ht H1 H2 Henc Hdec
                        | b1 b2 b3 t4 c Ht H1 H2 H3 Henc Hdec]; try subst t;
      simpl in Hlen.
    + change (unquote (_ ++ quote_body t))
        with (prepend (utf8.EncodeRune utf8.RuneError) (unquote (quote_body t))).
      rewrite IH by lia. reflexivity.
    + cbn [app]. rewrite (unquote_high b _ Hb), Hdec, Henc.
      rewrite IH by lia. reflexivity.
    + destruct (N.eqb_spec c 0x2028) as [-> | Hc1];
        [| destruct (N.eqb_spec c 0x2029) as [-> | Hc2]]; cbn [orb].
      * change (unquote (_ ++ quote_body t3))
          with (prepend (utf8.EncodeRune 0x2028) (unquote (quote_body t3))).
        rewrite Henc, IH by lia. reflexivity.
      * change (unquote (_ ++ quote_body t3))
          with (prepend (utf8.EncodeRune 0x2029) (unquote (quote_body t3))).
        rewrite Henc, IH by lia. reflexivity.
      * cbn [app]. rewrite (unquote_high b _ Hb), Hdec, Henc.
        rewrite IH by lia. reflexivity.
    + cbn [app]. rewrite (unquote_high b _ Hb), Hdec, Henc.
      rewrite IH by lia. reflexivity.
Qed.

Lemma unquote_quote_body_replaced (s : gostring) :
  unquote (quote_body s) = Some (replaced s).
Proof. apply (unquote_quote_body_replaced_upto (length s)). reflexivity. Qed.

Lemma replaced_length_upto (n : nat) :
  forall s, (length s <= n)%nat -> (length s <= length (replaced s))%nat.
Proof.
  induction n as [| n IH]; intros s Hlen;
    destruct s as [| b t]; try (simpl; lia); simpl in Hlen; [lia |].
  cbn [replaced].
  destruct (Byte.to_N b <? utf8.RuneSelf) eqn:Hb.
  - specialize (IH t ltac:(lia)). simpl. lia.
  - apply N.ltb_ge in Hb.
    pose proof (utf8.DecodeRune_shape b t Hb) as Hshape.
    destruct Hshape as [| b1 t2 c Ht H1 Henc Hdec
                        | b1 b2 t3 c Ht H1 H2 Henc Hdec
                        | b1 b2 b3 t4 c Ht H1 H2 H3 Henc Hdec]; try subst t;
      simpl in Hlen.
    + specialize (IH t ltac:(lia)).
      change (utf8.EncodeRune utf8.RuneError)
        with ["239"%byte; "191"%byte; "189"%byte].
      simpl. lia.
    + specialize (IH t2 ltac:(lia)). simpl. lia.
    + specialize (IH t3 ltac:(lia)). simpl. lia.
    + specialize (IH t4 ltac:(lia)). simpl. lia.
Qed.

Lemma replaced_fixed_upto (n : nat) :
  forall s, (length s <= n)%nat ->
            (replaced s = s <-> utf8.Valid s = true).
Proof.
  induction n as [| n IH]; intros s Hlen;
    destruct s as [| b t]; try (simpl; tauto); simpl in Hlen; [lia |].
  cbn [replaced utf8.Valid].
  destruct (Byte.to_N b <? utf8.RuneSelf) eqn:Hb.
  - rewrite <- (IH t) by lia. split; [now intros [= ?] | now intros ->].
  - apply N.ltb_ge in Hb.
    pose proof (utf8.DecodeRune_shape b t Hb) as Hshape.
    destruct Hshape as [| b1 t2 c Ht H1 Henc Hdec
                        | b1 b2 t3 c Ht H1 H2 Henc Hdec
                        | b1 b2 b3 t4 c Ht H1 H2 H3 Henc Hdec]; try subst t;
      simpl in Hlen.
    + split; [| discriminate]. intros Heq.
      pose proof (replaced_length_upto (length t) t (le_n _)) as Hl.
      apply (f_equal (@length byte)) in Heq.
      change (utf8.EncodeRune utf8.RuneError)
        with ["239"%byte; "191"%byte; "189"%byte] in Heq.
      simpl in Heq. lia.
    + rewrite <- (IH t2) by lia. split; [now intros [= ?] | now intros ->].
    + rewrite <- (IH t3) by lia. split; [now intros [= ?] | now intros ->].
    + rewrite <- (IH t4) by lia. split; [now intros [= ?] | now intros ->].
Qed.

Lemma replaced_fixed (s : gostring) :
  replaced s = s <-> utf8.Valid s = true.
Proof. apply (replaced_fixed_upto (length s)). reflexivity. Qed.

Lemma reads_quote (s s' : gostring) :
  unquote (quote_body s) = Some s' -> reads (quote s) (String s').
Proof.
  intros Hs sc rest Hmode. unfold quote.
  change (["034"%byte] ++ quote_body s ++ ["034"%byte])
    with ("034"%byte :: quote_body s ++ ["034"%byte]).
  rewrite <- app_comm_cons, <- app_assoc. cbn [app].
  rewrite (scan_string (quote_body s) _ sc (quote_body_ok s)) by (now left).
  rewrite Hs, complete_in_mode.
  destruct (complete (String s') sc) as [e | s''] eqn:Hc; [reflexivity |].
  cbn [scan]. now rewrite (complete_then _ _ s'' "}" Hc).
Qed.


End json.

(** ** The key catalog *)

Module key.

(** The catalog is not among the sources.  What the result package
    uses of it: the type of keys, the sub-type of a key, and the lookup
    of a key by sub-type, which fails for a sub-type the catalog does
    not hold. *)
Class Catalog := {
  Key : Type;
  SubType : Key -> N;
  FromSubType : N -> Key + error;
}.

End key.

(** ** unity/result/result.go *)

Module result.

Import json.

#[local] Open Scope Z_scope.

Section Result.

Context `{FL : Floats} `{CAT : key.Catalog}.

(** [Result]; [key] is a pointer and may be nil. *)
Record Result := {
  key : option key.Key;
  tag : N;
  errorCode : Z;
  errorDesc : gostring;
  value : any;
}.

(** [jsonResult]: [Key uint32], [Tag uint64], [Error int32],
    [Value any]. *)
Record jsonResult := {
  Key : N;
  Tag : N;
  Error : Z;
  Value : any;
}.

(** [New], lines 31-40. *)
Definition New (key : option key.Key) (tag : N) (errorCode : Z)
    (errorDesc : gostring) (value : any) : Result :=
  {| key := key; tag := tag; errorCode := errorCode;
     errorDesc := errorDesc; value := value |}.

(** Accessors and mutators, lines 103-151. *)
Definition SetKey (k : option key.Key) (r : Result) : Result :=
  {| key := k; tag := tag r; errorCode := errorCode r;
     errorDesc := errorDesc r; value := value r |}.

Definition SetErrorCode (c : Z) (r : Result) : Result :=
  {| key := key r; tag := tag r; errorCode := c;
     errorDesc := errorDesc r; value := value r |}.

Definition SetErrorDesc (d : gostring) (r : Result) : Result :=
  {| key := key r; tag := tag r; errorCode := errorCode r;
     errorDesc := d; value := value r |}.

Definition SetValue (v : any) (r : Result) : Result :=
  {| key := key r; tag := tag r; errorCode := errorCode r;
     errorDesc := errorDesc r; value := v |}.

Definition Succeeded (r : Result) : bool := errorCode r =? 0.

(** *** [json.Unmarshal(jsonData, &jr)] *)

(** [foldName], as far as it matters for names made of ASCII letters
    other than S: letters are compared without case, and the Kelvin
    sign U+212A folds to K. *)
Fixpoint foldName (s : gostring) : gostring :=
  match s with
  | [] => []
  | "226"%byte :: "132"%byte :: "170"%byte :: t => "K"%byte :: foldName t
  | c :: t =>
      (if utf8.between 97 122 c then utf8.byte_of (Byte.to_N c - 32) else c)
      :: foldName t
  end.

Inductive field := FieldKey | FieldTag | FieldError | FieldValue.

(** The field a member of the object is stored into, if any. *)
Definition field_named (name : gostring) : option field :=
  let folded := foldName name in
  if eqb_bytes folded (str "KEY") then Some FieldKey
  else if eqb_bytes folded (str "TAG") then Some FieldTag
  else if eqb_bytes folded (str "ERROR") then Some FieldError
  else if eqb_bytes folded (str "VALUE") then Some FieldValue
  else None.

(** One member: [null] leaves a numeric field as it is; a number must
    be an integer literal in the range of the field's type; any other
    value is a type error.  A member that names no field is skipped. *)
Definition store (jr : jsonResult) (name : gostring) (v : json.value)
  : error + jsonResult :=
  match field_named name with
  | None => inr jr
  | Some FieldKey =>
      match v with
      | Null => inr jr
      | Number lit =>
          match strconv.ParseUint lit 32 with
          | Some n => inr {| Key := n; Tag := Tag jr; Error := Error jr;
                             Value := Value jr |}
          | None => inl (UnmarshalTypeError "number into uint32")
          end
      | _ => inl (UnmarshalTypeError "value into uint32")
      end
  | Some FieldTag =>
      match v with
      | Null => inr jr
      | Number lit =>
          match strconv.ParseUint lit 64 with
          | Some n => inr {| Key := Key jr; Tag := n; Error := Error jr;
                             Value := Value jr |}
          | None => inl (UnmarshalTypeError "number into uint64")
          end
      | _ => inl (UnmarshalTypeError "value into uint64")
      end
  | Some FieldError =>
      match v with
      | Null => inr jr
      | Number lit =>
          match strconv.ParseInt lit 32 with
          | Some z => inr {| Key := Key jr; Tag := Tag jr; Error := z;
                             Value := Value jr |}
          | None => inl (UnmarshalTypeError "number into int32")
          end
      | _ => inl (UnmarshalTypeError "value into int32")
      end
  | Some FieldValue =>
      match to_any v with
      | inr a => inr {| Key := Key jr; Tag := Tag jr; Error := Error jr;
                        Value := a |}
      | inl e => inl e
      end
  end.

Fixpoint store_all (jr : jsonResult) (ms : list (gostring * json.value))
  : error + jsonResult :=
  match ms with
  | [] => inr jr
  | (name, v) :: ms' =>
      match store jr name v with
      | inr jr' => store_all jr' ms'
      | inl e => inl e
      end
  end.

(** [jsonResult{}]. *)
Definition jsonResult_zero : jsonResult :=
  {| Key := 0%N; Tag := 0%N; Error := 0; Value := ANil |}.

(** [json.Unmarshal] into a zero [jsonResult]: a syntax error, a type
    error, or the struct.  The text [null] leaves the struct as it
    is; a text that is no object is a type error. *)
Definition Unmarshal (data : gostring) : error + jsonResult :=
  match parse data with
  | inl e => inl e
  | inr Null => inr jsonResult_zero
  | inr (Object ms) => store_all jsonResult_zero ms
  | inr _ => inl (UnmarshalTypeError "value into Go value of type jsonResult")
  end.

(** *** [NewFromJSON], lines 45-101 *)

(** [&Result{}], then [r.errorCode = -1] and [r.errorDesc = desc]. *)
Definition failure (desc : gostring) : Result :=
  {| key := None; tag := 0%N; errorCode := -1; errorDesc := desc;
     value := ANil |}.

Definition NewFromJSON (jsonData : gostring) : Result :=
  match jsonData with
  | [] => failure (str "empty or nil json data")
  | _ =>
      match Unmarshal jsonData with
      | inl err =>
          failure (str "error unmarshalling json data: " ++ err)
      | inr jr =>
          match key.FromSubType (Key jr) with
          | inr err =>
              failure (str "error creating key from sub type "
                       ++ strconv.FormatUint (Key jr) ++ str ": " ++ err)
          | inl k =>
              let errorDesc :=
                if Error jr =? 0 then []
                else str "error " ++ strconv.FormatInt (Error jr) in
              let done (value : any) : Result :=
                {| key := Some k; tag := Tag jr; errorCode := Error jr;
                   errorDesc := errorDesc; value := value |} in
              match Value jr with
              | AMap outerValue =>
                  match map_lookup (str "value") outerValue with
                  | Some value => done value
                  | None =>
                      failure (str "value field not found: "
                               ++ Sprint (AMap outerValue))
                  end
              | value => done value
              end
          end
      end
  end.

(** *** [MarshalJSON], lines 159-168 *)

(** The struct encoder writes the fields in the order of their
    declaration.  With a nil key, [r.key.SubType()] has no key to read
    and nothing is written. *)
Definition MarshalJSON (r : Result) : option gostring :=
  match key r with
  | None => None
  | Some k =>
      match marshal (value r) with
      | None => None
      | Some v =>
          Some (text "{'Key':" ++ strconv.FormatUint (key.SubType k) ++
                text ",'Tag':" ++ strconv.FormatUint (tag r) ++
                text ",'Error':" ++ strconv.FormatInt (errorCode r) ++
                text ",'Value':{'value':" ++ v ++ text "}}")
      end
  end.

(** *** What [NewFromJSON] returns *)

Lemma NewFromJSON_nonempty (jsonData : gostring) :
  jsonData <> [] ->
  NewFromJSON jsonData =
  match Unmarshal jsonData with
  | inl err => failure (str "error unmarshalling json data: " ++ err)
  | inr jr =>
      match key.FromSubType (Key jr) with
      | inr err =>
          failure (str "error creating key from sub type "
                   ++ strconv.FormatUint (Key jr) ++ str ": " ++ err)
      | inl k =>
          let errorDesc :=
            if Error jr =? 0 then []
            else str "error " ++ strconv.FormatInt (Error jr) in
          let done (value : any) : Result :=
            {| key := Some k; tag := Tag jr; errorCode := Error jr;
               errorDesc := errorDesc; value := value |} in
          match Value jr with
          | AMap outerValue =>
              match map_lookup (str "value") outerValue with
              | Some value => done value
              | None =>
                  failure (str "value field not found: "
                           ++ Sprint (AMap outerValue))
              end
          | value => done value
          end
      end
  end.
Proof. destruct jsonData; [congruence | reflexivity]. Qed.

(** A result that did not succeed says why. *)
Lemma NewFromJSON_failed_says_why (jsonData : gostring) :
  Succeeded (NewFromJSON jsonData) = false ->
  errorDesc (NewFromJSON jsonData) <> [].
Proof.
  destruct jsonData as [| c data]; [simpl; discriminate |].
  rewrite NewFromJSON_nonempty by discriminate.
  destruct (Unmarshal (c :: data)) as [err | jr]; [simpl; discriminate |].
  destruct (key.FromSubType (Key jr)) as [k | err]; [| simpl; discriminate].
  cbv zeta. unfold Succeeded.
  destruct (Value jr) as [| b | f | s | l | m]; simpl;
    try (destruct (Error jr =? 0); [discriminate | simpl; discriminate]).
  destruct (map_lookup (str "value") m); simpl;
    [destruct (Error jr =? 0); [discriminate | simpl; discriminate]
    | discriminate].
Qed.

(** The second envelope of the spec. *)
Definition envelope_error_7 : gostring :=
  text "{'Key':5,'Tag':42,'Error':7,'Value':null}".

Lemma Unmarshal_envelope_error_7 :
  Unmarshal envelope_error_7 =
  inr {| Key := 5%N; Tag := 42%N; Error := 7; Value := ANil |}.
Proof. vm_compute. reflexivity. Qed.

(** C2. [NewFromJSON] is a total function: for every byte slice it
    returns a [Result], and what goes wrong is reported in it.  Empty
    input, an error of [json.Unmarshal], a sub-type the catalog does
    not hold and a wrapper object without a value member each give
    error code -1 and a description that is not empty; a well-formed
    envelope with a non-zero [Error] field gives a result that did not
    succeed, with a description that is not empty, as does the
    envelope with [Error] 7 of the spec. *)
Theorem NewFromJSON_reports_errors_in_Result (jsonData : gostring) :
  let r := NewFromJSON jsonData in
  (jsonData = [] -> errorCode r = -1 /\ errorDesc r <> []) /\
  (forall err, jsonData <> [] -> Unmarshal jsonData = inl err ->
     errorCode r = -1 /\ errorDesc r <> []) /\
  (forall jr err, jsonData <> [] -> Unmarshal jsonData = inr jr ->
     key.FromSubType (Key jr) = inr err ->
     errorCode r = -1 /\ errorDesc r <> []) /\
  (forall jr k m, jsonData <> [] -> Unmarshal jsonData = inr jr ->
     key.FromSubType (Key jr) = inl k ->
     Value jr = AMap m -> map_lookup (str "value") m = None ->
     errorCode r = -1 /\ errorDesc r <> []) /\
  (forall jr, jsonData <> [] -> Unmarshal jsonData = inr jr ->
     Error jr <> 0 -> Succeeded r = false /\ errorDesc r <> []) /\
  (Succeeded r = false -> errorDesc r <> []) /\
  Succeeded (NewFromJSON envelope_error_7) = false /\
  errorDesc (NewFromJSON envelope_error_7) <> [].
Proof.
  intros r. subst r.
  split; [intros ->; split; [reflexivity | discriminate] |].
  split.
  { intros err Hne Hu. rewrite NewFromJSON_nonempty, Hu by exact Hne.
    split; [reflexivity | simpl; discriminate]. }
  split.
  { intros jr err Hne Hu Hk. rewrite NewFromJSON_nonempty, Hu, Hk by exact Hne.
    split; [reflexivity | simpl; discriminate]. }
  split.
  { intros jr k m Hne Hu Hk Hv Hm.
    rewrite NewFromJSON_nonempty, Hu, Hk by exact Hne. cbv zeta.
    rewrite Hv, Hm. split; [reflexivity | simpl; discriminate]. }
  split.
  { intros jr Hne Hu He.
    assert (Hs : Succeeded (NewFromJSON jsonData) = false).
    { rewrite NewFromJSON_nonempty, Hu by exact Hne.
      destruct (key.FromSubType (Key jr)) as [k | err]; [| reflexivity].
      cbv zeta. unfold Succeeded.
      destruct (Value jr) as [| b | f | s | l | m]; simpl;
        try (now apply Z.eqb_neq).
      destruct (map_lookup (str "value") m); simpl;
        [now apply Z.eqb_neq | reflexivity]. }
    split; [exact Hs | now apply NewFromJSON_failed_says_why]. }
  split; [apply NewFromJSON_failed_says_why |].
  assert (Hs : Succeeded (NewFromJSON envelope_error_7) = false).
  { rewrite NewFromJSON_nonempty by (vm_compute; discriminate).
    rewrite Unmarshal_envelope_error_7. simpl.
    destruct (key.FromSubType 5) as [k | err]; reflexivity. }
  split; [exact Hs | now apply NewFromJSON_failed_says_why].
Qed.

(** *** [Succeeded] *)

(** The mutators of [Result]. *)
Inductive mutator :=
| DoSetErrorCode (c : Z)
| DoSetErrorDesc (d : gostring)
| DoSetValue (v : any)
| DoSetKey (k : option key.Key).

Definition mutate (r : Result) (m : mutator) : Result :=
  match m with
  | DoSetErrorCode c => SetErrorCode c r
  | DoSetErrorDesc d => SetErrorDesc d r
  | DoSetValue v => SetValue v r
  | DoSetKey k => SetKey k r
  end.

(** The error code a sequence of mutators leaves. *)
Definition last_code (c : Z) (ms : list mutator) : Z :=
  foldl (fun c m => match m with DoSetErrorCode c' => c' | _ => c end) c ms.

Lemma errorCode_mutated (ms : list mutator) :
  forall r, errorCode (foldl mutate r ms) = last_code (errorCode r) ms.
Proof.
  induction ms as [| m ms IH]; intros r; [reflexivity |].
  simpl. rewrite IH. destruct m; reflexivity.
Qed.

(** C3. [Succeeded()] is true exactly when the error code is 0: for
    every [Result], after any sequence of [SetErrorCode],
    [SetErrorDesc], [SetValue] and [SetKey], and for the results of
    [New] and [NewFromJSON]. *)
Theorem Succeeded_iff_errorCode_zero :
  (forall (r : Result) (ms : list mutator),
     let r' := foldl mutate r ms in
     (Succeeded r' = true <-> errorCode r' = 0) /\
     errorCode r' = last_code (errorCode r) ms) /\
  (forall k t c d v,
     Succeeded (New k t c d v) = true <-> c = 0) /\
  (forall jsonData,
     Succeeded (NewFromJSON jsonData) = true <->
     errorCode (NewFromJSON jsonData) = 0).
Proof.
  split; [| split].
  - intros r ms r'. split; [apply Z.eqb_eq | apply errorCode_mutated].
  - intros k t c d v. unfold Succeeded, New. simpl. apply Z.eqb_eq.
  - intros jsonData. apply Z.eqb_eq.
Qed.

(** *** The wrapper around the value *)

(** The first envelope of the spec. *)
Definition envelope_true : gostring :=
  text "{'Key':5,'Tag':42,'Error':0,'Value':{'value':true}}".

(** A value that is itself a wrapper, inside the wrapper. *)
Definition envelope_nested : gostring :=
  text "{'Key':5,'Tag':42,'Error':0,'Value':{'value':{'value':true}}}".

(** An object that is no wrapper. *)
Definition envelope_record : gostring :=
  text "{'Key':5,'Tag':42,'Error':0,'Value':{'x':true}}".

Lemma Unmarshal_envelope_true :
  Unmarshal envelope_true =
  inr {| Key := 5%N; Tag := 42%N; Error := 0;
         Value := AMap [(str "value", ABool true)] |}.
Proof. vm_compute. reflexivity. Qed.

Lemma Unmarshal_envelope_nested :
  Unmarshal envelope_nested =
  inr {| Key := 5%N; Tag := 42%N; Error := 0;
         Value := AMap [(str "value", AMap [(str "value", ABool true)])] |}.
Proof. vm_compute. reflexivity. Qed.

Lemma Unmarshal_envelope_record :
  Unmarshal envelope_record =
  inr {| Key := 5%N; Tag := 42%N; Error := 0;
         Value := AMap [(str "x", ABool true)] |}.
Proof. vm_compute. reflexivity. Qed.

(** C1, as the code has it. With sub-type 5 in the catalog, the first
    envelope of the spec decodes to a result that succeeded, with tag
    42 and the boolean true as value.  In general, for a well-formed
    envelope whose key is in the catalog: when [Value] is an object
    with a value member, the result's value is that member, taken as
    it is (a wrapper inside the wrapper stays); when [Value] is no
    object, it is the result's value; when [Value] is an object without
    a value member, the result has error code -1 and no value. *)
Theorem NewFromJSON_unwraps_one_level (k5 : key.Key) :
  key.FromSubType 5 = inl k5 ->
  NewFromJSON envelope_true =
    {| key := Some k5; tag := 42%N; errorCode := 0; errorDesc := [];
       value := ABool true |} /\
  Succeeded (NewFromJSON envelope_true) = true /\
  value (NewFromJSON envelope_nested) = AMap [(str "value", ABool true)] /\
  forall jsonData jr k,
    jsonData <> [] -> Unmarshal jsonData = inr jr ->
    key.FromSubType (Key jr) = inl k ->
    match Value jr with
    | AMap m =>
        match map_lookup (str "value") m with
        | Some v =>
            value (NewFromJSON jsonData) = v /\
            errorCode (NewFromJSON jsonData) = Error jr
        | None =>
            value (NewFromJSON jsonData) = ANil /\
            errorCode (NewFromJSON jsonData) = -1
        end
    | v =>
        value (NewFromJSON jsonData) = v /\
        errorCode (NewFromJSON jsonData) = Error jr
    end.
Proof.
  intros H5.
  assert (Htrue : NewFromJSON envelope_true =
                  {| key := Some k5; tag := 42%N; errorCode := 0;
                     errorDesc := []; value := ABool true |}).
  { rewrite NewFromJSON_nonempty by (vm_compute; discriminate).
    rewrite Unmarshal_envelope_true. simpl. rewrite H5. reflexivity. }
  split; [exact Htrue |].
  split; [rewrite Htrue; reflexivity |].
  split.
  { rewrite NewFromJSON_nonempty by (vm_compute; discriminate).
    rewrite Unmarshal_envelope_nested. simpl. rewrite H5. reflexivity. }
  intros jsonData jr k Hne Hu Hk.
  rewrite NewFromJSON_nonempty, Hu, Hk by exact Hne. cbv zeta.
  destruct (Value jr) as [| b | f | s | l | m]; try (split; reflexivity).
  destruct (map_lookup (str "value") m); split; reflexivity.
Qed.

(** *** Marshalling and decoding again *)

(** Scalars that JSON carries unchanged: [nil], booleans, the strings
    that are valid UTF-8, and the floats whose text is a JSON number
    that reads back as the same float. *)
Definition json_stable (v : any) : Prop :=
  match v with
  | ANil | ABool _ => True
  | AString s => utf8.Valid s = true
  | AFloat64 f =>
      exists lit,
        FormatFloat f = Some lit /\ is_number lit = true /\
        ParseFloat lit = Some f
  | ASlice _ | AMap _ => False
  end.

Lemma marshal_stable (v : any) :
  json_stable v ->
  exists (t : gostring) (w : json.value),
    marshal v = Some t /\ reads t w /\ to_any w = inr v.
Proof.
  destruct v as [| [|] | f | s | l | m]; simpl; intros Hs; try contradiction.
  - exists (str "null"), Null. auto using reads_null.
  - exists (str "true"), (Bool true). auto using reads_true.
  - exists (str "false"), (Bool false). auto using reads_false.
  - destruct Hs as (lit & Hf & Hn & Hp). exists lit, (Number lit).
    split; [exact Hf |]. split; [now apply reads_number |].
    simpl. now rewrite Hp.
  - exists (quote s), (String s).
    split; [reflexivity |].
    split; [now apply reads_string, unquote_quote_body | reflexivity].
Qed.

Lemma envelope_nonempty (k t e v : gostring) : envelope k t e v <> [].
Proof.
  unfold envelope.
  change (text "{'Key':") with ("{"%byte :: text "'Key':"). discriminate.
Qed.

Lemma Unmarshal_envelope (k t : N) (e : Z) (v : gostring) (w : json.value) (a : any) :
  (k < 2 ^ 32)%N -> (t < 2 ^ 64)%N -> - 2 ^ 31 <= e < 2 ^ 31 ->
  reads v w -> to_any w = inr a ->
  Unmarshal (envelope (strconv.FormatUint k) (strconv.FormatUint t)
                      (strconv.FormatInt e) v)
  = inr {| Key := k; Tag := t; Error := e;
           Value := AMap [(str "value", a)] |}.
Proof.
  intros Hk Ht He Hv Hw. unfold Unmarshal.
  rewrite (parse_envelope _ _ _ v w) by
    (auto using is_number_FormatUint, is_number_FormatInt).
  cbn [store_all]. unfold store at 1.
  change (field_named (str "Key")) with (Some FieldKey). cbv iota.
  rewrite strconv.ParseUint_FormatUint by exact Hk.
  unfold store at 1.
  change (field_named (str "Tag")) with (Some FieldTag). cbv iota.
  rewrite strconv.ParseUint_FormatUint by exact Ht.
  unfold store at 1.
  change (field_named (str "Error")) with (Some FieldError). cbv iota.
  rewrite strconv.ParseInt_FormatInt by (simpl; lia).
  unfold store at 1.
  change (field_named (str "Value")) with (Some FieldValue). cbv iota.
  cbn [to_any]. rewrite Hw. reflexivity.
Qed.

(** C9. For a [Result] with a key whose sub-type the catalog knows,
    with tag, error code and sub-type in the ranges of their Go types,
    and with a JSON-stable scalar for value, [MarshalJSON] succeeds and
    [NewFromJSON] applied to what it wrote gives back the sub-type of
    the key, the tag, the error code and the value: the value is
    wrapped once and unwrapped once. *)
Theorem NewFromJSON_MarshalJSON (r : Result) (k k' : key.Key) :
  key r = Some k ->
  key.FromSubType (key.SubType k) = inl k' ->
  key.SubType k' = key.SubType k ->
  (key.SubType k < 2 ^ 32)%N ->
  (tag r < 2 ^ 64)%N ->
  - 2 ^ 31 <= errorCode r < 2 ^ 31 ->
  json_stable (value r) ->
  exists jsonData,
    MarshalJSON r = Some jsonData /\
    option_map key.SubType (key (NewFromJSON jsonData))
    = Some (key.SubType k) /\
    tag (NewFromJSON jsonData) = tag r /\
    errorCode (NewFromJSON jsonData) = errorCode r /\
    value (NewFromJSON jsonData) = value r.
Proof.
  intros Hkey Hcat Hsub Hk Ht He Hstable.
  destruct (marshal_stable (value r) Hstable) as (v & w & Hm & Hreads & Hw).
  exists (envelope (strconv.FormatUint (key.SubType k))
                   (strconv.FormatUint (tag r))
                   (strconv.FormatInt (errorCode r)) v).
  split.
  { unfold MarshalJSON. rewrite Hkey, Hm. reflexivity. }
  rewrite NewFromJSON_nonempty by apply envelope_nonempty.
  rewrite (Unmarshal_envelope _ _ _ v w (value r)) by assumption.
  cbn [Key Tag Error Value]. rewrite Hcat. cbv zeta.
  change (map_lookup (str "value") [(str "value", value r)])
    with (Some (value r)).
  cbn [key tag errorCode value option_map]. rewrite Hsub. auto.
Qed.

(** *** More on what [NewFromJSON] returns *)

Lemma ParseUint_too_large (n bitSize : N) :
  (2 ^ bitSize <= n)%N ->
  strconv.ParseUint (strconv.FormatUint n) bitSize = None.
Proof.
  intros Hn. unfold strconv.ParseUint, strconv.FormatUint.
  rewrite strconv.accumulate_digits, DecimalN.Unsigned.of_to.
  replace (n <? 2 ^ bitSize)%N with false by (symmetry; apply N.ltb_ge; lia).
  destruct (strconv.digits (N.to_uint n)); reflexivity.
Qed.

Lemma ParseInt_out_of_range (z : Z) :
  z < - 2 ^ 31 \/ 2 ^ 31 <= z ->
  strconv.ParseInt (strconv.FormatInt z) 32 = None.
Proof.
  intros Hz. unfold strconv.ParseInt, strconv.FormatInt.
  destruct z as [| p | p]; [lia | |].
  - unfold strconv.FormatUint. simpl Z.to_N. simpl N.to_uint.
    destruct (strconv.leads_nonempty _ (strconv.to_uint_leads p))
      as (c & ds & Hd & Hm & Hp).
    pose proof (strconv.accumulate_digits (Pos.to_uint p)) as Hacc.
    change (N.of_uint (Pos.to_uint p)) with (Pos.of_uint (Pos.to_uint p)) in Hacc.
    rewrite DecimalPos.Unsigned.of_to in Hacc. rewrite Hd in *.
    destruct c; try congruence; rewrite Hacc;
      (replace (N.pos p <? 2 ^ (32 - 1))%N with false
        by (symmetry; apply N.ltb_ge; change (2 ^ (32 - 1))%N with 2147483648%N;
            lia)); reflexivity.
  - destruct (strconv.leads_nonempty _ (strconv.to_uint_leads p))
      as (c & ds & Hd & _).
    pose proof (strconv.accumulate_digits (Pos.to_uint p)) as Hacc.
    change (N.of_uint (Pos.to_uint p)) with (Pos.of_uint (Pos.to_uint p)) in Hacc.
    rewrite DecimalPos.Unsigned.of_to in Hacc. rewrite Hd in *.
    rewrite Hacc.
    replace (N.pos p <=? 2 ^ (32 - 1))%N with false
      by (symmetry; apply N.leb_gt; change (2 ^ (32 - 1))%N with 2147483648%N;
          lia).
    reflexivity.
Qed.

(** The description [NewFromJSON] gives a decoded envelope. *)
Definition described (code : Z) : gostring :=
  if code =? 0 then [] else str "error " ++ strconv.FormatInt code.

Lemma NewFromJSON_cases (jsonData : gostring) :
  (exists desc, desc <> [] /\ NewFromJSON jsonData = failure desc) \/
  (exists jr k v,
     jsonData <> [] /\ Unmarshal jsonData = inr jr /\
     key.FromSubType (Key jr) = inl k /\
     match Value jr with
     | AMap m => map_lookup (str "value") m = Some v
     | other => v = other
     end /\
     NewFromJSON jsonData =
       {| key := Some k; tag := Tag jr; errorCode := Error jr;
          errorDesc := described (Error jr); value := v |}).
Proof.
  destruct jsonData as [| c data].
  { left. eexists. split; [| reflexivity]. discriminate. }
  rewrite NewFromJSON_nonempty by discriminate.
  destruct (Unmarshal (c :: data)) as [err | jr] eqn:Hu.
  { left. eexists. split; [| reflexivity]. discriminate. }
  destruct (key.FromSubType (Key jr)) as [k | err] eqn:Hk.
  2: { left. eexists. split; [| reflexivity]. discriminate. }
  cbv zeta. fold (described (Error jr)).
  destruct (Value jr) as [| b | f | s | l | m] eqn:Hv;
    try (right; eexists jr, k, _; rewrite Hv;
         repeat (split; [first [discriminate | reflexivity | eassumption] |]);
         reflexivity).
  destruct (map_lookup (str "value") m) as [v |] eqn:Hm.
  - right. exists jr, k, v. rewrite Hv.
    repeat (split; [first [discriminate | reflexivity | eassumption] |]).
    reflexivity.
  - left. eexists. split; [| reflexivity]. discriminate.
Qed.

(** X1. [NewFromJSON] returns all or nothing.  Either the result is a
    bare failure (no key, tag 0, error code -1, no value, a description
    that is not empty), or [json.Unmarshal] gave a struct whose key
    sub-type the catalog holds, and the result has that key, the tag
    and the error code of the struct, a description that depends on
    the error code alone, and for value the [Value] field or, when
    that is an object, its value member. *)
Theorem NewFromJSON_all_or_nothing (jsonData : gostring) :
  (exists desc, desc <> [] /\ NewFromJSON jsonData = failure desc) \/
  (exists jr k v,
     jsonData <> [] /\ Unmarshal jsonData = inr jr /\
     key.FromSubType (Key jr) = inl k /\
     match Value jr with
     | AMap m => map_lookup (str "value") m = Some v
     | other => v = other
     end /\
     NewFromJSON jsonData =
       {| key := Some k; tag := Tag jr; errorCode := Error jr;
          errorDesc := described (Error jr); value := v |}).
Proof. apply NewFromJSON_cases. Qed.

(** X2. For a result of [NewFromJSON], [Succeeded()] holds exactly when
    the description is empty; and a result that succeeded has a
    key. *)
Theorem NewFromJSON_Succeeded_iff_no_description (jsonData : gostring) :
  (Succeeded (NewFromJSON jsonData) = true <->
   errorDesc (NewFromJSON jsonData) = []) /\
  (Succeeded (NewFromJSON jsonData) = true ->
   key (NewFromJSON jsonData) <> None).
Proof.
  destruct (NewFromJSON_cases jsonData)
    as [(desc & Hd & ->) | (jr & k & v & _ & _ & _ & _ & ->)].
  - simpl. unfold Succeeded. simpl. repeat split; intros; congruence.
  - unfold Succeeded, described. simpl.
    destruct (Error jr =? 0); repeat split; intros; try congruence.
Qed.

(** X3. [MarshalJSON] does not write the description: after
    marshalling and decoding, it is empty when the error code is 0 and
    the text "error " followed by the code otherwise, whatever it was
    before. *)
Theorem NewFromJSON_MarshalJSON_errorDesc (r : Result) (k k' : key.Key) :
  key r = Some k ->
  key.FromSubType (key.SubType k) = inl k' ->
  (key.SubType k < 2 ^ 32)%N ->
  (tag r < 2 ^ 64)%N ->
  - 2 ^ 31 <= errorCode r < 2 ^ 31 ->
  json_stable (value r) ->
  exists jsonData,
    MarshalJSON r = Some jsonData /\
    errorDesc (NewFromJSON jsonData) = described (errorCode r) /\
    forall desc, MarshalJSON (SetErrorDesc desc r) = Some jsonData.
Proof.
  intros Hkey Hcat Hk Ht He Hstable.
  destruct (marshal_stable (value r) Hstable) as (v & w & Hm & Hreads & Hw).
  exists (envelope (strconv.FormatUint (key.SubType k))
                   (strconv.FormatUint (tag r))
                   (strconv.FormatInt (errorCode r)) v).
  split; [unfold MarshalJSON; rewrite Hkey, Hm; reflexivity |].
  split.
  - rewrite NewFromJSON_nonempty by apply envelope_nonempty.
    rewrite (Unmarshal_envelope _ _ _ v w (value r)) by assumption.
    cbn [Key Tag Error Value]. rewrite Hcat. cbv zeta.
    change (map_lookup (str "value") [(str "value", value r)])
      with (Some (value r)).
    reflexivity.
  - intros desc. unfold MarshalJSON, SetErrorDesc. cbn [key value tag errorCode].
    rewrite Hkey, Hm. reflexivity.
Qed.

(** X4. What [MarshalJSON] writes is a fixed point: decoded by
    [NewFromJSON] and marshalled again, it is the same text. *)
Theorem MarshalJSON_NewFromJSON_MarshalJSON (r : Result) (k k' : key.Key) :
  key r = Some k ->
  key.FromSubType (key.SubType k) = inl k' ->
  key.SubType k' = key.SubType k ->
  (key.SubType k < 2 ^ 32)%N ->
  (tag r < 2 ^ 64)%N ->
  - 2 ^ 31 <= errorCode r < 2 ^ 31 ->
  json_stable (value r) ->
  exists jsonData,
    MarshalJSON r = Some jsonData /\
    MarshalJSON (NewFromJSON jsonData) = Some jsonData.
Proof.
  intros Hkey Hcat Hsub Hk Ht He Hstable.
  destruct (marshal_stable (value r) Hstable) as (v & w & Hm & Hreads & Hw).
  exists (envelope (strconv.FormatUint (key.SubType k))
                   (strconv.FormatUint (tag r))
                   (strconv.FormatInt (errorCode r)) v).
  split; [unfold MarshalJSON; rewrite Hkey, Hm; reflexivity |].
  rewrite NewFromJSON_nonempty by apply envelope_nonempty.
  rewrite (Unmarshal_envelope _ _ _ v w (value r)) by assumption.
  cbn [Key Tag Error Value]. rewrite Hcat. cbv zeta.
  change (map_lookup (str "value") [(str "value", value r)])
    with (Some (value r)).
  unfold MarshalJSON. cbn [key tag errorCode value].
  rewrite Hm, Hsub. reflexivity.
Qed.

(** X5. An envelope whose [Key] does not fit [uint32], whose [Tag] does
    not fit [uint64] or whose [Error] does not fit [int32] is refused:
    the result is a bare failure, whatever the catalog holds. *)
Theorem NewFromJSON_refuses_out_of_range
  (k t : N) (e : Z) (v : gostring) (w : json.value) :
  reads v w ->
  (2 ^ 32 <= k)%N \/ (2 ^ 64 <= t)%N \/ e < - 2 ^ 31 \/ 2 ^ 31 <= e ->
  exists desc,
    NewFromJSON (envelope (strconv.FormatUint k) (strconv.FormatUint t)
                          (strconv.FormatInt e) v)
    = failure (str "error unmarshalling json data: json: cannot unmarshal "
               ++ desc).
Proof.
  intros Hv Hrange.
  rewrite NewFromJSON_nonempty by apply envelope_nonempty.
  unfold Unmarshal.
  rewrite (parse_envelope _ _ _ v w) by
    (auto using is_number_FormatUint, is_number_FormatInt).
  cbn [store_all]. unfold store at 1.
  change (field_named (str "Key")) with (Some FieldKey). cbv iota.
  destruct (N.lt_ge_cases k (2 ^ 32)) as [Hk | Hk].
  2: { rewrite ParseUint_too_large by exact Hk. eexists. reflexivity. }
  rewrite strconv.ParseUint_FormatUint by exact Hk.
  unfold store at 1.
  change (field_named (str "Tag")) with (Some FieldTag). cbv iota.
  destruct (N.lt_ge_cases t (2 ^ 64)) as [Ht | Ht].
  2: { rewrite ParseUint_too_large by exact Ht. eexists. reflexivity. }
  rewrite strconv.ParseUint_FormatUint by exact Ht.
  unfold store at 1.
  change (field_named (str "Error")) with (Some FieldError). cbv iota.
  rewrite ParseInt_out_of_range by lia. eexists. reflexivity.
Qed.

(** X25. A string value comes back from marshalling and decoding
    unchanged exactly when it is valid UTF-8; in every case it comes
    back with each byte that does not begin a well-formed sequence
    replaced by U+FFFD, the key, the tag and the error code being
    recovered as for any other value. *)
Theorem NewFromJSON_MarshalJSON_string
    (r : Result) (k k' : key.Key) (s : gostring) :
  key r = Some k ->
  key.FromSubType (key.SubType k) = inl k' ->
  (key.SubType k < 2 ^ 32)%N ->
  (tag r < 2 ^ 64)%N ->
  - 2 ^ 31 <= errorCode r < 2 ^ 31 ->
  value r = AString s ->
  exists jsonData,
    MarshalJSON r = Some jsonData /\
    key (NewFromJSON jsonData) = Some k' /\
    tag (NewFromJSON jsonData) = tag r /\
    errorCode (NewFromJSON jsonData) = errorCode r /\
    value (NewFromJSON jsonData) = AString (replaced s) /\
    (value (NewFromJSON jsonData) = value r <-> utf8.Valid s = true).
Proof.
  intros Hkey Hcat Hk Ht He Hv.
  exists (envelope (strconv.FormatUint (key.SubType k))
                   (strconv.FormatUint (tag r))
                   (strconv.FormatInt (errorCode r)) (quote s)).
  split.
  { unfold MarshalJSON. rewrite Hkey, Hv. reflexivity. }
  rewrite NewFromJSON_nonempty by apply envelope_nonempty.
  rewrite (Unmarshal_envelope _ _ _ (quote s) (String (replaced s))
             (AString (replaced s)))
    by (try assumption; try reflexivity;
        apply reads_quote, unquote_quote_body_replaced).
  cbn [Key Tag Error Value]. rewrite Hcat. cbv zeta.
  change (map_lookup (str "value") [(str "value", AString (replaced s))])
    with (Some (AString (replaced s))).
  cbn [key tag errorCode value]. repeat split.
  - rewrite Hv. intros [= H]. now apply replaced_fixed.
  - rewrite Hv. intros H. f_equal. now apply replaced_fixed.
Qed.


End Result.

(** A catalog to run the model on: sub-types 1 to 8, a key being
    represented by its sub-type. *)
Definition small_catalog : key.Catalog := {|
  key.Key := N;
  key.SubType k := k;
  key.FromSubType n :=
    if ((1 <=? n) && (n <=? 8))%N then inl n
    else inr (str "unknown key sub type");
|}.

Lemma NewFromJSON_unwraps_one_level_witness :
  @key.FromSubType small_catalog 5 = inl 5%N /\
  NewFromJSON (FL := small_integers) (CAT := small_catalog) envelope_true =
    New (FL := small_integers) (CAT := small_catalog)
        (Some 5%N) 42%N 0 [] (ABool true).
Proof.
  split; [reflexivity |].
  apply (NewFromJSON_unwraps_one_level (FL := small_integers)
           (CAT := small_catalog) 5%N eq_refl).
Defined.

(** C1 as stated does not hold: in [envelope_record] the [Value] field
    is an object without a value member, that is, not an object
    containing one; it is not taken as it is: the result has no value
    and error code -1. *)
Lemma object_without_value_member_is_refused :
  Unmarshal (FL := small_integers) envelope_record =
    inr (Build_jsonResult (FL := small_integers) 5%N 42%N 0
           (AMap [(str "x", ABool true)])) /\
  value (NewFromJSON (FL := small_integers) (CAT := small_catalog)
           envelope_record) = ANil /\
  errorCode (NewFromJSON (FL := small_integers) (CAT := small_catalog)
               envelope_record) = -1.
Proof. repeat split; vm_compute; reflexivity. Qed.

(** A failed result with a string for value, some of it not ASCII. *)
Definition sample_result : Result (FL := small_integers) (CAT := small_catalog) :=
  New (FL := small_integers) (CAT := small_catalog)
      (Some 5%N) 42%N (-3) (str "boom")
      (AString (str "caf" ++ ["195"; "169"; " "; "<"; "b"; ">"]%byte)).

Lemma NewFromJSON_MarshalJSON_witness :
  json_stable (value sample_result) /\
  exists jsonData,
    MarshalJSON sample_result = Some jsonData /\
    option_map (@key.SubType small_catalog)
      (key (NewFromJSON (FL := small_integers) (CAT := small_catalog) jsonData))
    = Some 5%N /\
    tag (NewFromJSON (FL := small_integers) (CAT := small_catalog) jsonData)
    = 42%N /\
    errorCode (NewFromJSON (FL := small_integers) (CAT := small_catalog)
                 jsonData) = -3 /\
    value (NewFromJSON (FL := small_integers) (CAT := small_catalog) jsonData)
    = value sample_result.
Proof.
  split; [reflexivity |].
  apply (NewFromJSON_MarshalJSON (FL := small_integers) (CAT := small_catalog)
           sample_result 5%N 5%N);
    try reflexivity; simpl; lia.
Defined.

(** A string that is not valid UTF-8 does not come back: for a byte
    that is no encoding the encoder writes U+FFFD. *)
Example invalid_utf8_is_replaced :
  option_map
    (fun jsonData =>
       value (NewFromJSON (FL := small_integers) (CAT := small_catalog) jsonData))
    (MarshalJSON
       (New (FL := small_integers) (CAT := small_catalog)
            (Some 5%N) 42%N 0 [] (AString ["255"%byte])))
  = Some (AString ["239"; "191"; "189"]%byte).
Proof. reflexivity. Qed.

Lemma NewFromJSON_MarshalJSON_errorDesc_witness :
  exists jsonData,
    MarshalJSON sample_result = Some jsonData /\
    errorDesc (NewFromJSON (FL := small_integers) (CAT := small_catalog) jsonData)
    = str "error -3" /\
    forall desc, MarshalJSON (SetErrorDesc desc sample_result) = Some jsonData.
Proof.
  apply (NewFromJSON_MarshalJSON_errorDesc (FL := small_integers)
           (CAT := small_catalog) sample_result 5%N 5%N);
    try reflexivity; simpl; lia.
Defined.

Lemma MarshalJSON_NewFromJSON_MarshalJSON_witness :
  exists jsonData,
    MarshalJSON sample_result = Some jsonData /\
    MarshalJSON (NewFromJSON (FL := small_integers) (CAT := small_catalog)
                   jsonData) = Some jsonData.
Proof.
  apply (MarshalJSON_NewFromJSON_MarshalJSON (FL := small_integers)
           (CAT := small_catalog) sample_result 5%N 5%N);
    try reflexivity; simpl; lia.
Defined.

(** A tag one past the largest [uint64]. *)
Lemma NewFromJSON_refuses_out_of_range_witness :
  exists desc,
    NewFromJSON (FL := small_integers) (CAT := small_catalog)
      (text "{'Key':5,'Tag':18446744073709551616,'Error':0,'Value':{'value':true}}")
    = failure (str "error unmarshalling json data: json: cannot unmarshal "
               ++ desc).
Proof.
  apply (NewFromJSON_refuses_out_of_range (FL := small_integers)
           (CAT := small_catalog) 5%N (2 ^ 64)%N 0 (str "true") (Bool true)).
  - apply reads_true.
  - right. left. reflexivity.
Defined.

Lemma NewFromJSON_MarshalJSON_string_witness :
  let r := New (FL := small_integers) (CAT := small_catalog)
               (Some 5%N) 42%N 0 [] (AString ["a"; "255"; "b"]%byte) in
  exists jsonData,
    MarshalJSON r = Some jsonData /\
    value (NewFromJSON (FL := small_integers) (CAT := small_catalog) jsonData)
    = AString ["a"; "239"; "191"; "189"; "b"]%byte.
Proof.
  intros r.
  destruct (NewFromJSON_MarshalJSON_string (FL := small_integers)
              (CAT := small_catalog) r 5%N 5%N ["a"; "255"; "b"]%byte)
    as (jsonData & Hm & _ & _ & _ & Hv & _);
    try reflexivity; try (simpl; lia).
  exists jsonData. split; [exact Hm | exact Hv].
Defined.


End result.

(** ** The bridge interface seen by the modules *)

Module unitybridge.

(** [event.Type]: the event types the modelled code names. *)
Inductive EventType :=
| TypeConnection
| TypeGetNativeTexture
| TypeVideoTransferSpeed
| TypeVideoDataRecv
| TypeStartVideo
| TypeStopVideo.

#[global] Instance EventType_eq_dec : EqDecision EventType.
Proof. solve_decision. Defined.

(** [event.Event]: a type and a rewritable sub-type, 0 when new. *)
Record Event := { Type_ : EventType; SubType : Z }.

#[global] Instance Event_eq_dec : EqDecision Event.
Proof. solve_decision. Defined.

Definition NewFromType (t : EventType) : Event :=
  {| Type_ := t; SubType := 0 |}.

Definition ResetSubType (e : Event) (n : Z) : Event :=
  {| Type_ := Type_ e; SubType := n |}.

(** [token.Token]. *)
Definition Token := N.

(** [key.Key] values named by the modelled code. *)
Inductive KeyName :=
| KeyAirLinkConnection
| KeyCameraConnection.

#[global] Instance KeyName_eq_dec : EqDecision KeyName.
Proof. solve_decision. Defined.

(** The calls made on a [unitybridge.UnityBridge], as the bridge
    receives them. *)
Inductive call :=
| CAddKeyListener (k : KeyName) (immediate : bool)
| CRemoveKeyListener (k : KeyName) (t : Token)
| CSendEvent (e : Event)
| CSendEventWithString (e : Event) (data : gostring)
| CSendEventWithUint64 (e : Event) (data : Z).

#[global] Instance call_eq_dec : EqDecision call.
Proof. solve_decision. Defined.

(** The bridge is an external collaborator.  What it answers is not
    fixed by the sources: an implementation is given by the answer to
    each call, which may depend on every call received before. *)
Class UnityBridge := {
  AddKeyListener_answer : list call -> KeyName -> bool -> Token + error;
  RemoveKeyListener_answer : list call -> KeyName -> Token -> option error;
  SendEvent_answer : list call -> call -> option error;
}.

(** A bridge that accepts every call. *)
Definition willing_bridge : UnityBridge := {|
  AddKeyListener_answer := fun _ _ _ => inl 1%N;
  RemoveKeyListener_answer := fun _ _ _ => None;
  SendEvent_answer := fun _ _ => None;
|}.

(** The bridge records the call and answers it. *)
Definition send `{UnityBridge} (c : call) (log : list call)
  : option error * list call :=
  (SendEvent_answer log c, log ++ [c]).

End unitybridge.

(** ** Camera module: the video-callback table *)

Module camera.

Import unitybridge.

#[local] Set Warnings "-clear-no-such-hyp".

(** Modelled from the spec: [token.Generator] is not among the sources.
    The spec asks that tokens be generated monotonically and never
    reused, and the zero token is what callers get on failure; the
    generator is a counter whose [Next] returns 1, 2, 3, ... *)
Record Generator := { last : Token }.

Definition NewGenerator : Generator := {| last := 0%N |}.

Definition Next (g : Generator) : Token * Generator :=
  let t := (last g + 1)%N in (t, {| last := t |}).

Section Camera.

(** Non-nil function values of type [VideoCallback]. *)
Context {Handler : Type}.

(** A [VideoCallback] may be nil. *)
Definition VideoCallback := option Handler.

(** The fields of [Camera] that the callback table uses, and the calls
    its bridge has received. *)
Record Camera := {
  tg : Generator;
  callbacks : gmap Token VideoCallback;
  ub_log : list call;
}.

Context `{UB : UnityBridge}.

Definition SendEvent (e : Event) (c : Camera) : option error * Camera :=
  let '(err, log) := send (CSendEvent e) (ub_log c) in
  (err, {| tg := tg c; callbacks := callbacks c; ub_log := log |}).

(** [AddVideoCallback], lines 169-190. *)
Definition AddVideoCallback (vc : VideoCallback) (c : Camera)
  : (Token * option error) * Camera :=
  match vc with
  | None => ((0%N, Some (str "callback must not be nil")), c)
  | Some _ =>
      let '(t, tg') := Next (tg c) in
      let c1 := {| tg := tg';
                   callbacks := <[t := vc]> (callbacks c);
                   ub_log := ub_log c |} in
      if decide (size (callbacks c1) = 1%nat) then
        let '(err, c2) := SendEvent (NewFromType TypeStartVideo) c1 in
        match err with
        | Some e => ((0%N, Some e), c2)
        | None => ((t, None), c2)
        end
      else ((t, None), c1)
  end.

(** [RemoveVideoCallback], lines 194-214. *)
Definition RemoveVideoCallback (t : Token) (c : Camera)
  : option error * Camera :=
  match callbacks c !! t with
  | None =>
      (Some (str "no callback added for token " ++ strconv.FormatUint t), c)
  | Some _ =>
      let c1 := {| tg := tg c;
                   callbacks := delete t (callbacks c);
                   ub_log := ub_log c |} in
      if decide (size (callbacks c1) = 0%nat) then
        SendEvent (NewFromType TypeStopVideo) c1
      else (None, c1)
  end.

(** Calls made one after the other. *)
Fixpoint add_all (vcs : list VideoCallback) (c : Camera)
  : list (Token * option error) * Camera :=
  match vcs with
  | [] => ([], c)
  | vc :: vcs' =>
      let '(r, c1) := AddVideoCallback vc c in
      let '(rs, c2) := add_all vcs' c1 in
      (r :: rs, c2)
  end.

Fixpoint remove_all (ts : list Token) (c : Camera)
  : list (option error) * Camera :=
  match ts with
  | [] => ([], c)
  | t :: ts' =>
      let '(r, c1) := RemoveVideoCallback t c in
      let '(rs, c2) := remove_all ts' c1 in
      (r :: rs, c2)
  end.

Definition start_video : call := CSendEvent (NewFromType TypeStartVideo).
Definition stop_video : call := CSendEvent (NewFromType TypeStopVideo).

Lemma add_all_cons (vc : VideoCallback) vcs (c : Camera) :
  add_all (vc :: vcs) c =
  let '(r, c1) := AddVideoCallback vc c in
  let '(rs, c2) := add_all vcs c1 in
  (r :: rs, c2).
Proof. reflexivity. Qed.

Lemma remove_all_cons (t : Token) ts (c : Camera) :
  remove_all (t :: ts) c =
  let '(r, c1) := RemoveVideoCallback t c in
  let '(rs, c2) := remove_all ts c1 in
  (r :: rs, c2).
Proof. reflexivity. Qed.

(** Every token in the table was issued by the generator. *)
Definition issued (c : Camera) : Prop :=
  forall t, is_Some (callbacks c !! t) -> (t <= last (tg c))%N.

Lemma issued_empty (c : Camera) : callbacks c = ∅ -> issued c.
Proof. intros E t [x Hx]. rewrite E, lookup_empty in Hx. discriminate. Qed.

Lemma Next_not_in_table (c : Camera) :
  issued c -> callbacks c !! (last (tg c) + 1)%N = None.
Proof.
  intros I. destruct (callbacks c !! (last (tg c) + 1)%N) eqn:E; [| done].
  assert (last (tg c) + 1 <= last (tg c))%N by (apply I; eauto). lia.
Qed.

(** The first registration: the table goes from 0 to 1 entry and the
    start-video event is sent. *)
Lemma AddVideoCallback_first (h : Handler) (c : Camera) :
  callbacks c = ∅ ->
  AddVideoCallback (Some h) c =
  let t := (last (tg c) + 1)%N in
  let c' := {| tg := {| last := t |};
               callbacks := {[ t := Some h ]};
               ub_log := ub_log c ++ [start_video] |} in
  match SendEvent_answer (ub_log c) start_video with
  | Some e => ((0%N, Some e), c')
  | None => ((t, None), c')
  end.
Proof.
  intros E. unfold AddVideoCallback, Next, SendEvent, send. simpl.
  rewrite E, insert_empty, map_size_singleton.
  destruct (decide (1%nat = 1%nat)) as [_ | ?]; [| done].
  fold start_video. destruct (SendEvent_answer (ub_log c) start_video); done.
Qed.

(** A later registration: the table already holds an entry, nothing is
    sent. *)
Lemma AddVideoCallback_next (h : Handler) (c : Camera) :
  issued c -> size (callbacks c) <> 0%nat ->
  AddVideoCallback (Some h) c =
  let t := (last (tg c) + 1)%N in
  ((t, None),
   {| tg := {| last := t |};
      callbacks := <[ t := Some h ]> (callbacks c);
      ub_log := ub_log c |}).
Proof.
  intros I Hne. unfold AddVideoCallback, Next. simpl.
  rewrite map_size_insert_None by (now apply Next_not_in_table).
  destruct (decide (S (size (callbacks c)) = 1%nat)) as [Heq | _]; [lia | done].
Qed.

Lemma add_all_next (hs : list Handler) :
  forall c rs c',
  issued c -> size (callbacks c) <> 0%nat ->
  add_all (Some <$> hs) c = (rs, c') ->
  Forall (fun r => r.2 = None) rs /\
  NoDup rs.*1 /\
  (forall t, t ∈ rs.*1 -> (last (tg c) < t)%N) /\
  dom (callbacks c') = dom (callbacks c) ∪ list_to_set rs.*1 /\
  ub_log c' = ub_log c.
Proof.
  induction hs as [| h hs IH]; intros c rs c' I Hne Hrun.
  - simpl in Hrun. injection Hrun as <- <-. simpl.
    split; [constructor |]. split; [constructor |].
    split; [intros t Ht; inversion Ht |]. split; [set_solver | reflexivity].
  - rewrite fmap_cons, add_all_cons in Hrun.
    rewrite AddVideoCallback_next in Hrun by assumption. cbv beta iota zeta in Hrun.
    set (t := (last (tg c) + 1)%N) in *.
    set (c1 := {| tg := {| last := t |};
                  callbacks := <[ t := Some h ]> (callbacks c);
                  ub_log := ub_log c |}) in *.
    destruct (add_all (Some <$> hs) c1) as [rs1 c2] eqn:Hrest.
    injection Hrun as <- <-.
    assert (I1 : issued c1).
    { intros t' [x Hx]. subst c1. simpl in *.
      destruct (decide (t = t')) as [<- | Hd]; [lia |].
      rewrite lookup_insert_ne in Hx by done.
      assert (t' <= last (tg c))%N by (apply I; eauto). lia. }
    assert (Hne1 : size (callbacks c1) <> 0%nat).
    { subst c1. simpl.
      rewrite map_size_insert_None by (now apply Next_not_in_table). lia. }
    destruct (IH c1 rs1 c2 I1 Hne1 Hrest) as (Hok & Hnd & Hgt & Hdom & Hlog).
    simpl. repeat split.
    + constructor; [done | exact Hok].
    + constructor; [| exact Hnd].
      intros Hin. apply Hgt in Hin. subst c1. simpl in Hin. lia.
    + intros t' Ht'. apply elem_of_cons in Ht' as [-> | Ht'].
      * subst t. lia.
      * apply Hgt in Ht'. subst c1 t. simpl in Ht'. lia.
    + rewrite Hdom. subst c1. simpl. rewrite dom_insert_L. set_solver.
    + rewrite Hlog. reflexivity.
Qed.

(** [N] successful registrations on an empty table: the first one sends
    the start-video event, the others send nothing. *)
Lemma add_all_from_empty (h : Handler) (hs : list Handler) (c c' : Camera) rs :
  callbacks c = ∅ ->
  add_all (Some <$> (h :: hs)) c = (rs, c') ->
  Forall (fun r => r.2 = None) rs ->
  ub_log (AddVideoCallback (Some h) c).2 = ub_log c ++ [start_video] /\
  ub_log c' = ub_log c ++ [start_video] /\
  NoDup rs.*1 /\
  dom (callbacks c') = list_to_set rs.*1.
Proof.
  intros E Hrun Hok. rewrite fmap_cons, add_all_cons in Hrun.
  pose proof (AddVideoCallback_first h c E) as Hfirst. cbv beta iota zeta in Hfirst.
  set (t := (last (tg c) + 1)%N) in *.
  set (c1 := {| tg := {| last := t |};
                callbacks := {[ t := Some h ]};
                ub_log := ub_log c ++ [start_video] |}) in *.
  assert (Hlog1 : ub_log (AddVideoCallback (Some h) c).2 = ub_log c ++ [start_video]).
  { rewrite Hfirst. destruct (SendEvent_answer (ub_log c) start_video); done. }
  split; [exact Hlog1 |].
  rewrite Hfirst in Hrun.
  destruct (SendEvent_answer (ub_log c) start_video) as [e |].
  - (* the first call failed: excluded, the calls are successful *)
    destruct (add_all (Some <$> hs) c1) as [rs1 c2].
    injection Hrun as <- <-. apply Forall_cons_1 in Hok as [Hbad _].
    discriminate Hbad.
  - destruct (add_all (Some <$> hs) c1) as [rs1 c2] eqn:Hrest.
    injection Hrun as <- <-.
    assert (I1 : issued c1).
    { intros t' [x Hx]. subst c1. simpl in *.
      apply lookup_singleton_Some in Hx as [<- _]. lia. }
    assert (Hne1 : size (callbacks c1) <> 0%nat).
    { subst c1. simpl. rewrite map_size_singleton. lia. }
    destruct (add_all_next hs c1 rs1 c2 I1 Hne1 Hrest)
      as (_ & Hnd & Hgt & Hdom & Hlog).
    simpl. repeat split.
    + rewrite Hlog. reflexivity.
    + constructor; [| exact Hnd].
      intros Hin. apply Hgt in Hin. subst c1 t. simpl in Hin. lia.
    + rewrite Hdom. subst c1. simpl. rewrite dom_singleton_L. reflexivity.
Qed.

(** Removing a registered token while another one stays: nothing is
    sent. *)
Lemma RemoveVideoCallback_inner (t : Token) (c : Camera) :
  is_Some (callbacks c !! t) -> size (callbacks c) <> 1%nat ->
  RemoveVideoCallback t c =
  (None, {| tg := tg c; callbacks := delete t (callbacks c);
            ub_log := ub_log c |}).
Proof.
  intros [vc Hvc] Hsz. unfold RemoveVideoCallback. rewrite Hvc. simpl.
  destruct (decide (size (delete t (callbacks c)) = 0%nat)) as [H0 | _]; [| done].
  assert (Hd : size (delete t (callbacks c)) = pred (size (callbacks c)))
    by (apply map_size_delete_Some; eauto).
  assert (Hpos : size (callbacks c) <> 0%nat)
    by (eapply map_size_ne_0_lookup_2; eauto).
  exfalso. lia.
Qed.

(** Removing the last registered token: the table goes from 1 to 0
    entries and the stop-video event is sent. *)
Lemma RemoveVideoCallback_last (t : Token) (c : Camera) :
  is_Some (callbacks c !! t) -> size (callbacks c) = 1%nat ->
  RemoveVideoCallback t c =
  (SendEvent_answer (ub_log c) stop_video,
   {| tg := tg c; callbacks := ∅; ub_log := ub_log c ++ [stop_video] |}).
Proof.
  intros [vc Hvc] Hsz. unfold RemoveVideoCallback. rewrite Hvc. simpl.
  assert (Hd : size (delete t (callbacks c)) = pred (size (callbacks c)))
    by (apply map_size_delete_Some; eauto).
  assert (H0 : size (delete t (callbacks c)) = 0%nat) by lia.
  destruct (decide (size (delete t (callbacks c)) = 0%nat)) as [_ | ?]; [| done].
  apply map_size_empty_inv in H0. unfold SendEvent, send. simpl.
  rewrite H0. reflexivity.
Qed.

Lemma remove_all_inner (ts : list Token) :
  forall c,
  NoDup ts -> list_to_set ts ⊆ dom (callbacks c) ->
  (length ts < size (callbacks c))%nat ->
  let '(rs, c') := remove_all ts c in
  Forall (fun r => r = None) rs /\
  ub_log c' = ub_log c /\
  dom (callbacks c') = dom (callbacks c) ∖ list_to_set ts.
Proof.
  induction ts as [| t ts IH]; intros c Hnd Hsub Hlen.
  - simpl. repeat split; [constructor | set_solver].
  - rewrite remove_all_cons.
    apply NoDup_cons in Hnd as [Hnotin Hnd].
    assert (Ht : is_Some (callbacks c !! t)).
    { apply elem_of_dom. set_solver. }
    simpl in Hlen.
    rewrite RemoveVideoCallback_inner by (done || lia).
    set (c1 := {| tg := tg c; callbacks := delete t (callbacks c);
                  ub_log := ub_log c |}).
    assert (Hsub1 : list_to_set ts ⊆ dom (callbacks c1)).
    { subst c1. simpl. rewrite dom_delete_L.
      intros x Hx. apply elem_of_difference. split; [set_solver |].
      apply elem_of_list_to_set in Hx. set_solver. }
    assert (Hlen1 : (length ts < size (callbacks c1))%nat).
    { subst c1. simpl. rewrite map_size_delete_Some by done. lia. }
    specialize (IH c1 Hnd Hsub1 Hlen1).
    destruct (remove_all ts c1) as [rs c'].
    destruct IH as (Hok & Hlog & Hdom).
    repeat split.
    + constructor; [done | exact Hok].
    + exact Hlog.
    + rewrite Hdom. subst c1. simpl. rewrite dom_delete_L. set_solver.
Qed.

Lemma remove_all_app (ts1 ts2 : list Token) (c : Camera) :
  remove_all (ts1 ++ ts2) c =
  let '(rs1, c1) := remove_all ts1 c in
  let '(rs2, c2) := remove_all ts2 c1 in
  (rs1 ++ rs2, c2).
Proof.
  revert c. induction ts1 as [| t ts1 IH]; intros c.
  - simpl. destruct (remove_all ts2 c); reflexivity.
  - rewrite <- app_comm_cons, !remove_all_cons.
    destruct (RemoveVideoCallback t c) as [r c1]. rewrite IH.
    destruct (remove_all ts1 c1) as [rs1 c2].
    destruct (remove_all ts2 c2) as [rs2 c3]. reflexivity.
Qed.

Lemma add_all_length (vcs : list VideoCallback) :
  forall c, length (add_all vcs c).1 = length vcs.
Proof.
  induction vcs as [| vc vcs IH]; intros c; [reflexivity |].
  rewrite add_all_cons. destruct (AddVideoCallback vc c) as [r c1].
  specialize (IH c1). destruct (add_all vcs c1) as [rs c2].
  simpl in *. now rewrite IH.
Qed.

(** C8. After [N >= 1] successful [AddVideoCallback] calls on a camera
    whose table was empty, followed by the [N] matching
    [RemoveVideoCallback] calls in any order: the start-video event is
    sent once, by the first registration (the table goes from 0 to 1
    entry); the other registrations and the first [N - 1] removals send
    nothing; the stop-video event is sent once, by the last removal
    (the table goes from 1 to 0 entries). *)
Theorem video_stream_started_once_stopped_once
  (hs : list Handler) (c0 c1 : Camera)
  (rs : list (Token * option error)) (ts : list Token) :
  hs <> [] ->
  callbacks c0 = ∅ ->
  add_all (Some <$> hs) c0 = (rs, c1) ->
  Forall (fun r => r.2 = None) rs ->
  ts ≡ₚ rs.*1 ->
  (exists h hs', hs = h :: hs' /\
     ub_log (AddVideoCallback (Some h) c0).2 = ub_log c0 ++ [start_video]) /\
  ub_log c1 = ub_log c0 ++ [start_video] /\
  size (callbacks c1) = length hs /\
  exists ts' t, ts = ts' ++ [t] /\
    Forall (fun r => r = None) (remove_all ts' c1).1 /\
    ub_log (remove_all ts' c1).2 = ub_log c0 ++ [start_video] /\
    size (callbacks (remove_all ts' c1).2) = 1%nat /\
    ub_log (remove_all ts c1).2 = ub_log c0 ++ [start_video; stop_video] /\
    callbacks (remove_all ts c1).2 = ∅.
Proof.
  intros Hne E Hrun Hok Hperm.
  destruct hs as [| h hs']; [done |].
  destruct (add_all_from_empty h hs' c0 c1 rs E Hrun Hok)
    as (Hlog1 & Hlog & Hnd & Hdom).
  assert (Hlen : length rs = S (length hs')).
  { pose proof (add_all_length (Some <$> (h :: hs')) c0) as L.
    rewrite Hrun in L. simpl in L. now rewrite length_fmap in L. }
  assert (Hsize : size (callbacks c1) = S (length hs')).
  { rewrite <- size_dom, Hdom, size_list_to_set by exact Hnd.
    now rewrite length_fmap. }
  split; [exists h, hs'; split; [reflexivity | exact Hlog1] |].
  split; [exact Hlog |].
  split; [exact Hsize |].
  assert (Hnd' : NoDup ts) by (now rewrite Hperm).
  assert (Hset : dom (callbacks c1) = list_to_set ts).
  { rewrite Hdom. apply list_to_set_perm_L. now symmetry. }
  assert (Hlts : length ts = S (length hs')).
  { rewrite (Permutation_length Hperm), length_fmap. exact Hlen. }
  destruct (exists_last (l := ts)) as (ts' & t & Hts).
  { intros ->. discriminate. }
  subst ts. exists ts', t. split; [reflexivity |].
  apply NoDup_app in Hnd' as (Hnd1 & Hdisj & _).
  rewrite length_app in Hlts. simpl in Hlts.
  pose proof (remove_all_inner ts' c1 Hnd1) as Hinner.
  rewrite remove_all_app.
  destruct (remove_all ts' c1) as [rs1 c2] eqn:Hrem. simpl.
  destruct Hinner as (Hnone & Hlog2 & Hdom2).
  { rewrite Hset. set_solver. }
  { lia. }
  assert (Hdom_t : dom (callbacks c2) = {[ t ]}).
  { rewrite Hdom2, Hset. apply set_eq. intros x.
    rewrite elem_of_difference, !elem_of_list_to_set, elem_of_app,
      list_elem_of_singleton, elem_of_singleton.
    split; [intros [[? | ?] ?]; tauto |].
    intros ->. split; [now right |]. intros Hin. apply (Hdisj t Hin).
    apply list_elem_of_singleton. reflexivity. }
  assert (Hsz2 : size (callbacks c2) = 1%nat).
  { rewrite <- size_dom, Hdom_t. apply size_singleton. }
  assert (Hin_t : is_Some (callbacks c2 !! t)).
  { apply elem_of_dom. rewrite Hdom_t. now apply elem_of_singleton. }
  split; [exact Hnone |].
  split; [now rewrite Hlog2 |].
  split; [exact Hsz2 |].
  simpl. rewrite (RemoveVideoCallback_last t c2 Hin_t Hsz2). simpl.
  split; [| reflexivity].
  rewrite Hlog2, Hlog, <- app_assoc. reflexivity.
Qed.

(** C10. [AddVideoCallback] called with a nil callback returns the zero
    token and an error and changes nothing: the table, the token
    generator and the calls received by the bridge are as before. *)
Theorem AddVideoCallback_nil (c : Camera) :
  exists e,
    (AddVideoCallback None c).1 = (0%N, Some e) /\
    callbacks (AddVideoCallback None c).2 = callbacks c /\
    tg (AddVideoCallback None c).2 = tg c /\
    ub_log (AddVideoCallback None c).2 = ub_log c /\
    (AddVideoCallback None c).2 = c.
Proof.
  exists (str "callback must not be nil").
  unfold AddVideoCallback. simpl. repeat split.
Qed.

End Camera.

(** Three registrations on a new camera, removed in another order. *)
Definition new_camera : @Camera nat :=
  {| tg := NewGenerator; callbacks := ∅; ub_log := [] |}.

Lemma video_stream_started_once_stopped_once_witness :
  let run := add_all (UB := willing_bridge) (Some <$> [10; 20; 30]%nat) new_camera in
  ub_log run.2 = [start_video] /\
  ub_log (remove_all (UB := willing_bridge) [2; 3; 1]%N run.2).2
  = [start_video; stop_video].
Proof.
  intros run.
  destruct (video_stream_started_once_stopped_once
              (UB := willing_bridge) [10; 20; 30]%nat new_camera run.2 run.1
              [2; 3; 1]%N) as (_ & Hstart & _ & ts' & t & _ & _ & _ & _ & Hstop & _).
  - discriminate.
  - reflexivity.
  - apply surjective_pairing.
  - vm_compute. repeat constructor.
  - vm_compute. etransitivity; [apply perm_skip, perm_swap | apply perm_swap].
  - split; [exact Hstart | exact Hstop].
Defined.


(** *** More on the callback table *)

Section Table.

Context {Handler : Type} `{UB : UnityBridge}.

(** A registration of a callback that is not nil: an entry is added
    under the next token, whatever the bridge answers. *)
Lemma AddVideoCallback_some (h : Handler) (c : Camera) :
  issued c ->
  let t := (last (tg c) + 1)%N in
  let c' := (AddVideoCallback (Some h) c).2 in
  callbacks c' = <[ t := Some h ]> (callbacks c) /\
  callbacks c !! t = None /\
  tg c' = {| last := t |} /\
  issued c'.
Proof.
  intros I t c'. subst c'.
  assert (Hfresh : callbacks c !! t = None) by (now apply Next_not_in_table).
  unfold AddVideoCallback, Next, SendEvent, send. cbn [last].
  fold t.
  assert (Hi : forall m, m = <[ t := Some h ]> (callbacks c) ->
            forall t', is_Some (m !! t') -> (t' <= t)%N).
  { intros m -> t' [x Hx]. destruct (decide (t = t')) as [<- | Hd]; [lia |].
    rewrite lookup_insert_ne in Hx by done.
    assert (t' <= last (tg c))%N by (apply I; eauto). lia. }
  destruct (decide _) as [H1 | H1]; cbn [callbacks tg fst snd].
  - destruct (SendEvent_answer _ _); cbn [snd callbacks tg];
      (split; [reflexivity |]; split; [exact Hfresh |];
       split; [reflexivity |]; intros t' Ht'; cbn [tg last callbacks] in *;
       eapply Hi; [reflexivity | exact Ht']).
  - split; [reflexivity |]. split; [exact Hfresh |].
    split; [reflexivity |]. intros t' Ht'. cbn [tg last callbacks] in *.
    eapply Hi; [reflexivity | exact Ht'].
Qed.

(** X9. Removing a token a second time fails and changes nothing,
    whatever the first removal did: once [RemoveVideoCallback] has
    been called with a token, the token is not in the table, also
    when the call returned the error of the stop-video event. *)
Theorem RemoveVideoCallback_twice (t : Token) (c : @Camera Handler) :
  let c1 := (RemoveVideoCallback t c).2 in
  callbacks c1 !! t = None /\
  RemoveVideoCallback t c1 =
  (Some (str "no callback added for token " ++ strconv.FormatUint t), c1).
Proof.
  intros c1.
  assert (H : callbacks c1 !! t = None).
  { subst c1. unfold RemoveVideoCallback.
    destruct (callbacks c !! t) eqn:E; [| exact E].
    destruct (decide _); unfold SendEvent, send; cbn [snd callbacks];
      apply lookup_delete_eq. }
  split; [exact H |]. unfold RemoveVideoCallback at 1. now rewrite H.
Qed.

(** X10. When the bridge refuses the start-video event, the first
    [AddVideoCallback] returns the zero token and the error, but the
    callback stays in the table under a token the caller never
    receives; the next registration finds the table not empty: it
    succeeds without asking for the video stream again, which has not
    been started. *)
Theorem AddVideoCallback_start_refused
    (h h' : Handler) (c : Camera) (e : error) :
  callbacks c = ∅ ->
  SendEvent_answer (ub_log c) start_video = Some e ->
  let t := (last (tg c) + 1)%N in
  let r1 := AddVideoCallback (Some h) c in
  let r2 := AddVideoCallback (Some h') r1.2 in
  r1.1 = (0%N, Some e) /\
  callbacks r1.2 = {[ t := Some h ]} /\
  callbacks r1.2 !! 0%N = None /\
  r2.1 = ((t + 1)%N, None) /\
  ub_log r2.2 = ub_log c ++ [start_video] /\
  callbacks r2.2 = <[ (t + 1)%N := Some h' ]> {[ t := Some h ]}.
Proof.
  intros E Hno t r1 r2. subst r1 r2.
  rewrite (AddVideoCallback_first h c E). cbv zeta. rewrite Hno.
  cbn [fst snd callbacks]. fold t.
  split; [reflexivity |]. split; [reflexivity |].
  split; [apply lookup_singleton_ne; lia |].
  set (c1 := {| tg := {| last := t |}; callbacks := {[ t := Some h ]};
                ub_log := ub_log c ++ [start_video] |}).
  assert (I1 : issued c1).
  { intros t' [x Hx]. subst c1. cbn [callbacks tg last] in *.
    apply lookup_singleton_Some in Hx as [<- _]. lia. }
  assert (Hne : size (callbacks c1) <> 0%nat).
  { subst c1. cbn [callbacks]. rewrite map_size_singleton. lia. }
  rewrite (AddVideoCallback_next h' c1 I1 Hne). cbv zeta.
  subst c1. cbn [fst snd callbacks tg last ub_log]. repeat split.
Qed.

(** [onVideoDataRecv], lines 412-422: the goroutines started for a
    frame, one for each callback of the table, each with the frame.
    The order in which Go ranges over a map is not fixed. *)
Context {Frame : Type} (NewRGBFromBytes : gostring -> Frame).

Definition onVideoDataRecv (data : gostring) (c : @Camera Handler)
  : list (@VideoCallback Handler * Frame) :=
  let rgb := NewRGBFromBytes data in
  (fun kv => (kv.2, rgb)) <$> map_to_list (callbacks c).

Lemma add_all_entries (hs : list Handler) :
  forall c,
  issued c ->
  (map_to_list (callbacks (add_all (Some <$> hs) c).2)).*2
  ≡ₚ (map_to_list (callbacks c)).*2 ++ (Some <$> hs).
Proof.
  induction hs as [| h hs IH]; intros c I.
  - simpl. now rewrite app_nil_r.
  - rewrite fmap_cons, add_all_cons.
    destruct (AddVideoCallback_some h c I) as (Hcb & Hfresh & _ & I1).
    destruct (AddVideoCallback (Some h) c) as [r c1]. cbn [snd] in *.
    specialize (IH c1 I1).
    destruct (add_all (Some <$> hs) c1) as [rs c2]. cbn [snd] in *.
    rewrite IH, Hcb, map_to_list_insert by exact Hfresh.
    rewrite fmap_cons. cbn [snd].
    rewrite <- Permutation_middle. reflexivity.
Qed.

(** X11. After callbacks have been registered on an empty table, a
    frame starts one goroutine for each of them, with the frame decoded
    from the data, and no other: a callback registered twice is called
    twice, and one whose registration returned the error of the
    start-video event is called too. *)
Theorem onVideoDataRecv_calls_each_once
    (hs : list Handler) (c : Camera) (data : gostring) :
  callbacks c = ∅ ->
  onVideoDataRecv data (add_all (Some <$> hs) c).2
  ≡ₚ (fun h => (Some h, NewRGBFromBytes data)) <$> hs.
Proof.
  intros E. unfold onVideoDataRecv. cbv zeta.
  pose proof (add_all_entries hs c (issued_empty c E)) as H.
  rewrite E, map_to_list_empty in H. cbn [fmap list_fmap app] in H.
  set (m := map_to_list (callbacks (add_all (Some <$> hs) c).2)) in *.
  transitivity ((fun vc : option Handler => (vc, NewRGBFromBytes data)) <$> m.*2).
  { rewrite <- list_fmap_compose. reflexivity. }
  rewrite H, <- list_fmap_compose. reflexivity.
Qed.

End Table.

(** A bridge that refuses every event. *)
Definition refusing_bridge : UnityBridge := {|
  AddKeyListener_answer := fun _ _ _ => inl 1%N;
  RemoveKeyListener_answer := fun _ _ _ => None;
  SendEvent_answer := fun _ _ => Some (str "bridge not started");
|}.

Lemma AddVideoCallback_start_refused_witness :
  let r1 := AddVideoCallback (UB := refusing_bridge) (Some 10%nat) new_camera in
  let r2 := AddVideoCallback (UB := refusing_bridge) (Some 20%nat) r1.2 in
  r1.1 = (0%N, Some (str "bridge not started")) /\
  r2.1 = (2%N, None) /\
  ub_log r2.2 = [start_video].
Proof.
  destruct (AddVideoCallback_start_refused (UB := refusing_bridge)
              10%nat 20%nat new_camera (str "bridge not started")
              eq_refl eq_refl) as (H1 & _ & _ & H2 & H3 & _).
  repeat split; assumption.
Defined.

Lemma onVideoDataRecv_calls_each_once_witness :
  onVideoDataRecv (fun data => data) (str "frame")
    (add_all (UB := willing_bridge) (Some <$> [10; 10; 30]%nat) new_camera).2
  ≡ₚ [(Some 10%nat, str "frame"); (Some 10%nat, str "frame");
      (Some 30%nat, str "frame")].
Proof.
  apply (onVideoDataRecv_calls_each_once (UB := willing_bridge)
           (fun data => data) [10; 10; 30]%nat new_camera (str "frame")).
  reflexivity.
Defined.


(** *** The video stream follows the table *)

Section Stream.

Context {Handler : Type} `{UB : UnityBridge}.

(** The calls of a caller of the camera module, one after the other. *)
Inductive op :=
| OpAdd (vc : @VideoCallback Handler)
| OpRemove (t : Token).

Definition apply_op (c : @Camera Handler) (o : op) : Camera :=
  match o with
  | OpAdd vc => (AddVideoCallback vc c).2
  | OpRemove t => (RemoveVideoCallback t c).2
  end.

(** A log in which start-video and stop-video alternate, start-video
    first, and whether the stream has been asked to run at its end. *)
Inductive alternating : list call -> bool -> Prop :=
| alternating_nil : alternating [] false
| alternating_start l :
    alternating l false -> alternating (l ++ [start_video]) true
| alternating_stop l :
    alternating l true -> alternating (l ++ [stop_video]) false.

Definition follows (c : @Camera Handler) : Prop :=
  issued c /\
  exists on, alternating (ub_log c) on /\ (on = true <-> callbacks c <> ∅).

Lemma follows_add (vc : VideoCallback) (c : Camera) :
  follows c -> follows (AddVideoCallback vc c).2.
Proof.
  intros (I & on & Halt & Hon).
  destruct vc as [h |]; [| exact (conj I (ex_intro _ on (conj Halt Hon)))].
  destruct (AddVideoCallback_some h c I) as (Hcb & Hfresh & _ & I').
  split; [exact I' |].
  assert (Hne' : callbacks (AddVideoCallback (Some h) c).2 <> ∅).
  { rewrite Hcb. apply insert_non_empty. }
  destruct (decide (callbacks c = ∅)) as [E | Hne].
  - assert (Hoff : on = false).
    { destruct on; [| reflexivity]. destruct Hon as [Hon _].
      now destruct (Hon eq_refl). }
    subst on. exists true. split; [| tauto].
    rewrite (AddVideoCallback_first h c E). cbv zeta.
    destruct (SendEvent_answer _ _); cbn [snd ub_log];
      now apply alternating_start.
  - assert (Hon' : on = true) by tauto. subst on.
    exists true. split; [| tauto].
    rewrite (AddVideoCallback_next h c I)
      by (intros H0; apply map_size_empty_inv in H0; contradiction).
    exact Halt.
Qed.

Lemma follows_remove (t : Token) (c : Camera) :
  follows c -> follows (RemoveVideoCallback t c).2.
Proof.
  intros (I & on & Halt & Hon).
  destruct (callbacks c !! t) as [vc |] eqn:Ht.
  2: { unfold RemoveVideoCallback. rewrite Ht.
       exact (conj I (ex_intro _ on (conj Halt Hon))). }
  assert (Hne : callbacks c <> ∅).
  { intros E. rewrite E, lookup_empty in Ht. discriminate. }
  assert (Hon' : on = true) by tauto. subst on.
  assert (Hsome : is_Some (callbacks c !! t)) by eauto.
  destruct (decide (size (callbacks c) = 1%nat)) as [H1 | H1].
  - rewrite (RemoveVideoCallback_last t c Hsome H1). cbn [snd]. split.
    + now apply issued_empty.
    + exists false. cbn [ub_log callbacks]. split.
      * now apply alternating_stop.
      * split; [discriminate | intros H; now destruct H].
  - rewrite (RemoveVideoCallback_inner t c Hsome H1). cbn [snd]. split.
    + intros t' [x Hx]. cbn [callbacks tg] in *.
      apply lookup_delete_Some in Hx as [_ Hx]. apply I. eauto.
    + exists true. cbn [ub_log callbacks]. split; [exact Halt |].
      split; [| reflexivity]. intros _ E.
      assert (Hd : size (delete t (callbacks c)) = pred (size (callbacks c)))
        by (now apply map_size_delete_Some).
      rewrite E, map_size_empty in Hd.
      assert (size (callbacks c) <> 0%nat)
        by (intros H0; apply map_size_empty_inv in H0; contradiction).
      lia.
Qed.

Lemma follows_run (ops : list op) :
  forall c, follows c -> follows (foldl apply_op c ops).
Proof.
  induction ops as [| o ops IH]; intros c H; [exact H |].
  cbn [foldl]. apply IH.
  destruct o; [now apply follows_add | now apply follows_remove].
Qed.

(** X26. Whatever the caller does (registrations, of nil callbacks
    too, and removals, of tokens that are not in the table too, in any
    number and order) and whatever the bridge answers, the module asks
    the bridge for start-video and stop-video in alternation,
    start-video first, and the last of the two it asked for is
    start-video exactly when the table holds a callback. *)
Theorem stream_follows_table (ops : list op) (c : @Camera Handler) :
  callbacks c = ∅ -> ub_log c = [] ->
  exists on,
    alternating (ub_log (foldl apply_op c ops)) on /\
    (on = true <-> callbacks (foldl apply_op c ops) <> ∅).
Proof.
  intros E Hlog. apply (follows_run ops c).
  split; [now apply issued_empty |]. exists false. rewrite Hlog.
  split; [constructor |]. split; [discriminate | intros H; now destruct H].
Qed.

End Stream.

Lemma stream_follows_table_witness :
  ub_log (foldl (apply_op (UB := refusing_bridge)) new_camera
            [OpAdd (Some 10%nat); OpRemove 7%N; OpAdd None; OpAdd (Some 20%nat);
             OpRemove 1%N; OpRemove 2%N; OpAdd (Some 30%nat)])
  = [start_video; stop_video; start_video] /\
  exists on,
    alternating
      (ub_log (foldl (apply_op (UB := refusing_bridge)) new_camera
                 [OpAdd (Some 10%nat); OpRemove 7%N; OpAdd None;
                  OpAdd (Some 20%nat); OpRemove 1%N; OpRemove 2%N;
                  OpAdd (Some 30%nat)])) on.
Proof.
  split; [reflexivity |].
  destruct (stream_follows_table (UB := refusing_bridge)
              [OpAdd (Some 10%nat); OpRemove 7%N; OpAdd None;
               OpAdd (Some 20%nat); OpRemove 1%N; OpRemove 2%N;
               OpAdd (Some 30%nat)] new_camera eq_refl eq_refl)
    as (on & Halt & _).
  exists on. exact Halt.
Defined.


End camera.

(** ** Event-type listeners: sdk2/internal/manager/video.go and the
    start and stop of the camera module *)

Module listeners.

Import unitybridge.

(** What the video manager and the camera module ask of the bridge
    and of [internal.BaseModule], as they receive it. *)
Inductive request :=
| AddEventTypeListener (t : EventType)
| RemoveEventTypeListener (t : EventType) (tok : Token)
| SendEvent (e : Event)
| BaseStart
| BaseStop.

#[global] Instance request_eq_dec : EqDecision request.
Proof. solve_decision. Defined.

(** The bridge and the base module are external collaborators: an
    implementation is given by its answers, which may depend on every
    request received before.  [AddEventTypeListener] returns a token
    together with its error. *)
Class Bridge := {
  AddEventTypeListener_answer : list request -> EventType -> Token * option error;
  answer : list request -> request -> option error;
}.

(** A bridge that accepts every request and numbers its listeners. *)
Definition willing : Bridge := {|
  AddEventTypeListener_answer log _ := (N.of_nat (S (length log)), None);
  answer _ _ := None;
|}.

Definition is_remove (r : request) : bool :=
  match r with RemoveEventTypeListener _ _ => true | _ => false end.

Definition is_add (r : request) : bool :=
  match r with AddEventTypeListener _ => true | _ => false end.

End listeners.

Module video.

Import unitybridge listeners.

(** The fields of [Video] that [Start] and [Stop] use, and the
    requests its bridge has received. *)
Record Video := {
  gntToken : Token;
  vtsToken : Token;
  vdrToken : Token;
  log : list request;
}.

Section Video.

Context `{B : Bridge}.

Definition ask (r : request) (v : Video) : option error * Video :=
  (answer (log v) r,
   {| gntToken := gntToken v; vtsToken := vtsToken v; vdrToken := vdrToken v;
      log := log v ++ [r] |}).

Definition add (t : EventType) (v : Video) : (Token * option error) * Video :=
  (AddEventTypeListener_answer (log v) t,
   {| gntToken := gntToken v; vtsToken := vtsToken v; vdrToken := vdrToken v;
      log := log v ++ [AddEventTypeListener t] |}).

Definition set_gntToken (t : Token) (v : Video) : Video :=
  {| gntToken := t; vtsToken := vtsToken v; vdrToken := vdrToken v;
     log := log v |}.

Definition set_vtsToken (t : Token) (v : Video) : Video :=
  {| gntToken := gntToken v; vtsToken := t; vdrToken := vdrToken v;
     log := log v |}.

Definition set_vdrToken (t : Token) (v : Video) : Video :=
  {| gntToken := gntToken v; vtsToken := vtsToken v; vdrToken := t;
     log := log v |}.

(** [Start], lines 31-63.  The token a registration returns is stored
    before its error is looked at. *)
Definition Start (v : Video) : option error * Video :=
  let '((tok, err), v) := add TypeGetNativeTexture v in
  let v := set_gntToken tok v in
  match err with
  | Some e => (Some e, v)
  | None =>
      let '((tok, err), v) := add TypeVideoTransferSpeed v in
      let v := set_vtsToken tok v in
      match err with
      | Some e => (Some e, v)
      | None =>
          let '((tok, err), v) := add TypeVideoDataRecv v in
          let v := set_vdrToken tok v in
          match err with
          | Some e => (Some e, v)
          | None =>
              let '(err, v) := ask (SendEvent (NewFromType TypeStartVideo)) v in
              match err with
              | Some e => (Some e, v)
              | None =>
                  let '(err, v) :=
                    ask (SendEvent (NewFromType TypeGetNativeTexture)) v in
                  match err with
                  | Some e => (Some e, v)
                  | None => (None, v)
                  end
              end
          end
      end
  end.

(** [Stop], lines 88-112. *)
Definition Stop (v : Video) : option error * Video :=
  let '(err, v) := ask (SendEvent (NewFromType TypeStopVideo)) v in
  match err with
  | Some e => (Some e, v)
  | None =>
      let '(err, v) :=
        ask (RemoveEventTypeListener TypeGetNativeTexture (gntToken v)) v in
      match err with
      | Some e => (Some e, v)
      | None =>
          let '(err, v) :=
            ask (RemoveEventTypeListener TypeVideoTransferSpeed (vtsToken v)) v in
          match err with
          | Some e => (Some e, v)
          | None =>
              let '(err, v) :=
                ask (RemoveEventTypeListener TypeVideoDataRecv (vdrToken v)) v in
              match err with
              | Some e => (Some e, v)
              | None => (None, v)
              end
          end
      end
  end.

(** The requests of a [Start] that meets no error. *)
Definition Start_requests : list request :=
  [AddEventTypeListener TypeGetNativeTexture;
   AddEventTypeListener TypeVideoTransferSpeed;
   AddEventTypeListener TypeVideoDataRecv;
   SendEvent (NewFromType TypeStartVideo);
   SendEvent (NewFromType TypeGetNativeTexture)].


Lemma Start_success (v : Video) :
  (Start v).1 = None ->
  let l0 := log v in
  let g := (AddEventTypeListener_answer l0 TypeGetNativeTexture).1 in
  let l1 := l0 ++ [AddEventTypeListener TypeGetNativeTexture] in
  let t := (AddEventTypeListener_answer l1 TypeVideoTransferSpeed).1 in
  let l2 := l1 ++ [AddEventTypeListener TypeVideoTransferSpeed] in
  let d := (AddEventTypeListener_answer l2 TypeVideoDataRecv).1 in
  (Start v).2 =
  {| gntToken := g; vtsToken := t; vdrToken := d;
     log := log v ++ Start_requests |}.
Proof.
  unfold Start, add, ask, set_gntToken, set_vtsToken, set_vdrToken.
  cbn [log gntToken vtsToken vdrToken].
  destruct (AddEventTypeListener_answer (log v) _) as [g [e |]];
    [discriminate |].
  destruct (AddEventTypeListener_answer _ TypeVideoTransferSpeed) as [t [e |]];
    [discriminate |].
  destruct (AddEventTypeListener_answer _ TypeVideoDataRecv) as [d [e |]];
    [discriminate |].
  destruct (answer _ (SendEvent (NewFromType TypeStartVideo))) as [e |];
    [discriminate |].
  destruct (answer _ (SendEvent (NewFromType TypeGetNativeTexture))) as [e |];
    [discriminate |].
  intros _. cbn. unfold Start_requests. rewrite <- !app_assoc. reflexivity.
Qed.

(** X13. A [Stop] that meets no error, after a [Start] that met none,
    removes the three listeners [Start] registered, each with the token
    the bridge returned for it, after having sent stop-video: the
    requests of the two calls are these nine, in this order. *)
Theorem Start_then_Stop (v : Video) :
  (Start v).1 = None ->
  (Stop (Start v).2).1 = None ->
  let l0 := log v in
  let g := (AddEventTypeListener_answer l0 TypeGetNativeTexture).1 in
  let l1 := l0 ++ [AddEventTypeListener TypeGetNativeTexture] in
  let t := (AddEventTypeListener_answer l1 TypeVideoTransferSpeed).1 in
  let l2 := l1 ++ [AddEventTypeListener TypeVideoTransferSpeed] in
  let d := (AddEventTypeListener_answer l2 TypeVideoDataRecv).1 in
  log (Stop (Start v).2).2 =
  log v ++ Start_requests ++
  [SendEvent (NewFromType TypeStopVideo);
   RemoveEventTypeListener TypeGetNativeTexture g;
   RemoveEventTypeListener TypeVideoTransferSpeed t;
   RemoveEventTypeListener TypeVideoDataRecv d].
Proof.
  intros Hstart. rewrite (Start_success v Hstart). cbv zeta.
  set (g := (AddEventTypeListener_answer _ TypeGetNativeTexture).1).
  set (t := (AddEventTypeListener_answer _ TypeVideoTransferSpeed).1).
  set (d := (AddEventTypeListener_answer _ TypeVideoDataRecv).1).
  set (l := log v ++ Start_requests).
  unfold Stop, ask. cbn [log gntToken vtsToken vdrToken].
  destruct (answer l (SendEvent (NewFromType TypeStopVideo))) as [e |];
    [discriminate |].
  destruct (answer _ (RemoveEventTypeListener TypeGetNativeTexture g)) as [e |];
    [discriminate |].
  destruct (answer _ (RemoveEventTypeListener TypeVideoTransferSpeed t)) as [e |];
    [discriminate |].
  destruct (answer _ (RemoveEventTypeListener TypeVideoDataRecv d)) as [e |];
    [discriminate |].
  intros _. cbn [snd log]. subst l. rewrite <- !app_assoc. reflexivity.
Qed.

End Video.

(** [NewVideo]. *)
Definition NewVideo : Video :=
  {| gntToken := 0%N; vtsToken := 0%N; vdrToken := 0%N; log := [] |}.

Lemma Start_then_Stop_witness :
  log (Stop (B := willing) (Start (B := willing) NewVideo).2).2 =
  Start_requests ++
  [SendEvent (NewFromType TypeStopVideo);
   RemoveEventTypeListener TypeGetNativeTexture 1%N;
   RemoveEventTypeListener TypeVideoTransferSpeed 2%N;
   RemoveEventTypeListener TypeVideoDataRecv 3%N].
Proof.
  apply (Start_then_Stop (B := willing) NewVideo); reflexivity.
Defined.

End video.

(** ** Camera module: start, stop and the texture data
    (example/example.go, package camera) *)

Module camera_module.

Import unitybridge listeners.

Section Camera.

(** Non-nil callbacks, and [value.GLTextureData] with its zero value
    and what [json.Unmarshal] makes of a text, an error or a struct:
    the struct is not among the sources. *)
Context {Handler GLTextureData : Type} `{EqDecision GLTextureData}.
Context (zero : GLTextureData) (decode : gostring -> error + GLTextureData).
Context `{B : Bridge}.

Record Camera := {
  gntToken : Token;
  vtsToken : Token;
  vdrToken : Token;
  glTextureData : option GLTextureData;
  callbacks : gmap Token (option Handler);
  log : list request;
}.

(** [New], lines 103-138: the table is empty, the pointer to the
    texture data nil. *)
Definition New : Camera :=
  {| gntToken := 0%N; vtsToken := 0%N; vdrToken := 0%N;
     glTextureData := None; callbacks := ∅; log := [] |}.

Definition ask (r : request) (c : Camera) : option error * Camera :=
  (answer (log c) r,
   {| gntToken := gntToken c; vtsToken := vtsToken c; vdrToken := vdrToken c;
      glTextureData := glTextureData c; callbacks := callbacks c;
      log := log c ++ [r] |}).

Definition add (t : EventType) (c : Camera) : (Token * option error) * Camera :=
  (AddEventTypeListener_answer (log c) t,
   {| gntToken := gntToken c; vtsToken := vtsToken c; vdrToken := vdrToken c;
      glTextureData := glTextureData c; callbacks := callbacks c;
      log := log c ++ [AddEventTypeListener t] |}).

Definition set_tokens (g t d : Token) (c : Camera) : Camera :=
  {| gntToken := g; vtsToken := t; vdrToken := d;
     glTextureData := glTextureData c; callbacks := callbacks c;
     log := log c |}.

Definition set_callbacks (m : gmap Token (option Handler)) (c : Camera)
  : Camera :=
  {| gntToken := gntToken c; vtsToken := vtsToken c; vdrToken := vdrToken c;
     glTextureData := glTextureData c; callbacks := m; log := log c |}.

(** [Start], lines 141-163. *)
Definition Start (c : Camera) : option error * Camera :=
  let '((tok, err), c) := add TypeGetNativeTexture c in
  let c := set_tokens tok (vtsToken c) (vdrToken c) c in
  match err with
  | Some e => (Some e, c)
  | None =>
      let '((tok, err), c) := add TypeVideoTransferSpeed c in
      let c := set_tokens (gntToken c) tok (vdrToken c) c in
      match err with
      | Some e => (Some e, c)
      | None =>
          let '((tok, err), c) := add TypeVideoDataRecv c in
          let c := set_tokens (gntToken c) (vtsToken c) tok c in
          match err with
          | Some e => (Some e, c)
          | None => ask BaseStart c
          end
      end
  end.

(** The listeners are removed and the base module stopped, lines
    374-391 of [Stop]. *)
Definition remove_listeners (c : Camera) : option error * Camera :=
  let '(err, c) :=
    ask (RemoveEventTypeListener TypeGetNativeTexture (gntToken c)) c in
  match err with
  | Some e => (Some e, c)
  | None =>
      let '(err, c) :=
        ask (RemoveEventTypeListener TypeVideoTransferSpeed (vtsToken c)) c in
      match err with
      | Some e => (Some e, c)
      | None =>
          let '(err, c) :=
            ask (RemoveEventTypeListener TypeVideoDataRecv (vdrToken c)) c in
          match err with
          | Some e => (Some e, c)
          | None => ask BaseStop c
          end
      end
  end.

Definition stop_video : request := SendEvent (NewFromType TypeStopVideo).

(** [Stop], lines 359-392. *)
Definition Stop (c : Camera) : option error * Camera :=
  if decide (0 < size (callbacks c))%nat then
    let c := set_callbacks ∅ c in
    let '(err, c) := ask stop_video c in
    match err with
    | Some e => (Some e, c)
    | None => remove_listeners c
    end
  else remove_listeners c.

(** [onGetNativeTexture], lines 394-406. *)
Definition onGetNativeTexture (c : Camera) (data : gostring) : Camera :=
  match decode data with
  | inl _ => c
  | inr d =>
      {| gntToken := gntToken c; vtsToken := vtsToken c;
         vdrToken := vdrToken c; glTextureData := Some d;
         callbacks := callbacks c; log := log c |}
  end.

(** What a call of [GLTextureData] comes to: the two values it
    returns, or the panic of a nil pointer dereferenced. *)
Inductive texture :=
| Panics
| Returns (d : GLTextureData) (err : option error).

(** [GLTextureData], lines 348-356.  In the branch taken when the
    pointer is nil, the statement returns [*glTextureData]. *)
Definition GetGLTextureData (c : Camera) : texture :=
  match glTextureData c with
  | None => Panics
  | Some d =>
      if decide (d = zero)
      then Returns d (Some (str "no GLTextureData available. Did you call RenderNextFrame?"))
      else Returns d None
  end.

Lemma remove_listeners_spec (c : Camera) :
  callbacks (remove_listeners c).2 = callbacks c /\
  exists n,
    log (remove_listeners c).2 = log c ++
      take n [RemoveEventTypeListener TypeGetNativeTexture (gntToken c);
              RemoveEventTypeListener TypeVideoTransferSpeed (vtsToken c);
              RemoveEventTypeListener TypeVideoDataRecv (vdrToken c);
              BaseStop] /\
    (1 <= n)%nat /\
    ((remove_listeners c).1 = None -> n = 4%nat).
Proof.
  unfold remove_listeners, ask. cbn [log gntToken vtsToken vdrToken callbacks].
  destruct (answer (log c) _) as [e |].
  { split; [reflexivity |]. exists 1%nat. cbn. repeat split; [lia | discriminate]. }
  destruct (answer _ (RemoveEventTypeListener TypeVideoTransferSpeed _)) as [e |].
  { split; [reflexivity |]. exists 2%nat. cbn. rewrite <- !app_assoc.
    repeat split; [lia | discriminate]. }
  destruct (answer _ (RemoveEventTypeListener TypeVideoDataRecv _)) as [e |].
  { split; [reflexivity |]. exists 3%nat. cbn. rewrite <- !app_assoc.
    repeat split; [lia | discriminate]. }
  split; [reflexivity |]. exists 4%nat. cbn. rewrite <- !app_assoc.
  repeat split; lia.
Qed.

Definition emptied (c : Camera) : Camera :=
  {| gntToken := gntToken c; vtsToken := vtsToken c; vdrToken := vdrToken c;
     glTextureData := glTextureData c; callbacks := ∅;
     log := log c ++ [stop_video] |}.

Lemma Stop_cases (c : Camera) :
  (callbacks c = ∅ /\ Stop c = remove_listeners c) \/
  (callbacks c <> ∅ /\
   match answer (log c) stop_video with
   | Some e => Stop c = (Some e, emptied c)
   | None => Stop c = remove_listeners (emptied c)
   end).
Proof.
  unfold Stop.
  destruct (decide (0 < size (callbacks c))%nat) as [Hpos | Hzero].
  - right. split.
    { intros E. rewrite E, map_size_empty in Hpos. lia. }
    unfold ask, set_callbacks, emptied.
    cbn [log gntToken vtsToken vdrToken callbacks glTextureData].
    destruct (answer (log c) stop_video); reflexivity.
  - left. split; [| reflexivity]. apply map_size_empty_inv. lia.
Qed.

(** X14. [Camera.Stop] always leaves the callback table empty.  It
    sends stop-video exactly when the table held a callback, before
    anything else; when that event is refused it returns the error
    with the table already emptied and none of the three listeners
    removed.  With an empty table it sends no event. *)
Theorem Stop_empties_table (c : Camera) :
  callbacks (Stop c).2 = ∅ /\
  (callbacks c <> ∅ ->
   exists rest,
     log (Stop c).2 = log c ++ stop_video :: rest /\
     (forall e, answer (log c) stop_video = Some e ->
                (Stop c).1 = Some e /\ rest = [])) /\
  (callbacks c = ∅ ->
   (stop_video ∉ drop (length (log c)) (log (Stop c).2)) /\
   (log c `prefix_of` log (Stop c).2)).
Proof.
  destruct (Stop_cases c) as [[E ->] | [Hne Hstop]].
  - destruct (remove_listeners_spec c) as (Hcb & n & Hlog & _ & _).
    split; [now rewrite Hcb |]. split; [congruence |].
    intros _. rewrite Hlog. split; [| now apply prefix_app_r].
    rewrite drop_app_length. intros Hin.
    apply elem_of_take in Hin as (i & Hi & _).
    destruct i as [| [| [| [| i]]]]; cbn in Hi; try discriminate;
      injection Hi as Hi; discriminate.
  - destruct (answer (log c) stop_video) as [e |] eqn:Ha; rewrite Hstop.
    + cbn [fst snd emptied callbacks log].
      split; [reflexivity |]. split; [| congruence].
      intros _. exists []. split; [reflexivity |].
      intros e' [= <-]. split; reflexivity.
    + destruct (remove_listeners_spec (emptied c)) as (Hcb & n & Hlog & _ & _).
      cbn [callbacks log emptied] in Hcb, Hlog.
      split; [exact Hcb |]. split; [| congruence].
      intros _. eexists. rewrite Hlog, <- app_assoc. split; [reflexivity |].
      intros e' [=].
Qed.

(** X15. The texture data cannot be read before the bridge has sent
    one that decodes: as long as every texture event received since
    [New] failed to decode, [GLTextureData] dereferences a nil pointer
    and panics; the error it has for this case is returned only when
    the data stored is the zero value. *)
Theorem GLTextureData_before_first_texture (events : list gostring) :
  Forall (fun data => exists e, decode data = inl e) events ->
  GetGLTextureData (foldl onGetNativeTexture New events) = Panics /\
  forall c d e,
    GetGLTextureData c = Returns d (Some e) -> glTextureData c = Some zero.
Proof.
  intros Hall. split.
  - assert (H0 : forall c, glTextureData c = None ->
              glTextureData (foldl onGetNativeTexture c events) = None).
    { induction Hall as [| data events [e He] Hall IH]; intros c Hc;
        [exact Hc |].
      cbn [foldl]. apply IH. unfold onGetNativeTexture. now rewrite He. }
    unfold GetGLTextureData. now rewrite (H0 New eq_refl).
  - intros c d e. unfold GetGLTextureData.
    destruct (glTextureData c) as [d' |]; [| discriminate].
    destruct (decide (d' = zero)) as [-> | ?]; [reflexivity | discriminate].
Qed.

(** The requests of a [Start] that meets no error. *)
Definition Start_requests : list request :=
  [AddEventTypeListener TypeGetNativeTexture;
   AddEventTypeListener TypeVideoTransferSpeed;
   AddEventTypeListener TypeVideoDataRecv;
   BaseStart].


End Camera.

(** Texture events that do not decode, then none. *)
Lemma GLTextureData_before_first_texture_witness :
  let decode (data : gostring) : error + nat :=
    if decide (data = str "7") then inr 7%nat else inl (str "no texture") in
  GetGLTextureData (Handler := nat) 0%nat
    (foldl (onGetNativeTexture decode) New [str "{"; str "?"]) = Panics.
Proof.
  intros decode.
  apply (GLTextureData_before_first_texture (Handler := nat) 0%nat decode
           [str "{"; str "?"]).
  repeat constructor; eexists; reflexivity.
Defined.


End camera_module.

(** ** Connection module *)

Module connection.

Import unitybridge.

(** The [iota] constants of the connection module. *)
Definition subTypeConnectionOpen : Z := 0.
Definition subTypeConnectionClose : Z := 1.
Definition subTypeConnectionSetIP : Z := 2.
Definition subTypeConnectionSetPort : Z := 3.

(** [time.Second], in nanoseconds. *)
Definition Second : Z := 1000000000.

(** A [net.IP], represented by the text its [String()] method returns. *)
Definition IP := gostring.

(** The beacon [Find] returns. *)
Record Beacon := { SourceIp : IP; AppId : N }.

(** What [Start] asks of its collaborators, in the order it asks. *)
Inductive action :=
| Bridge (c : call)
| FinderFind (timeout : Z)
| FinderSendACK (ip : IP) (appID : N)
| WaitStatusChange.

(** The finder is an external collaborator, like the bridge. *)
Class Finder := {
  Find_answer : list action -> Z -> Beacon + error;
}.

Definition bridge_calls (tr : list action) : list call :=
  omap (fun a => match a with Bridge c => Some c | _ => None end) tr.

(** *** The status flag, its lock and its condition variable *)

(** The goroutine inside [waitForConnectionStatusChange], by the
    statement it is at (lines 129-137). *)
Inductive waiter_pc :=
| WEntry                      (* before [cm.m.Lock()] *)
| WLocked                     (* lock held, before [current := cm.connected] *)
| WLoop (current : bool)      (* lock held, at [cm.connected == current] *)
| WWaiting (current : bool)   (* in [cm.cond.Wait()]: lock released, parked *)
| WWoken (current : bool)     (* in [cm.cond.Wait()]: woken, lock not yet re-acquired *)
| WReturned (current : bool). (* returned, the deferred [Unlock] done *)

(** A goroutine inside [connectionStatusChanged] (lines 139-156).  Its
    argument is the outcome of [r.Value().(bool)]: [Some b] when the
    value is the Go boolean [b], [None] when the assertion fails. *)
Inductive callback_pc :=
| CEntry (v : option bool)    (* at the assertion and the unlocked test *)
| CLock (b : bool)            (* before [cm.m.Lock()] *)
| CAssign (b : bool)          (* lock held, before [cm.connected = connected] *)
| CBroadcast                  (* lock held, before [cm.cond.Broadcast()] *)
| CUnlock                     (* lock held, before [cm.m.Unlock()] *)
| CReturned.

Inductive owner := OWaiter | OCallback (i : nat).

(** What happened to the flag, oldest first. *)
Inductive event :=
| ESnapshot (current : bool)        (* the waiter read the flag *)
| EAssign (old new : bool)          (* a callback assigned the flag *)
| EReturn.                          (* the waiter returned *)

Record state := {
  connected : bool;
  mutex : option owner;
  waiter : waiter_pc;
  listeners : list callback_pc;
  history : list event;
}.

(** What the scheduler may pick next. *)
Inductive label :=
| LWaiter                      (* the waiter runs its next statement *)
| LSpurious                    (* the waiter is woken without a notification *)
| LSpawn (v : option bool)     (* the bridge calls the status listener *)
| LCallback (i : nat).         (* listener goroutine [i] runs its next statement *)

Definition set_waiter (w : waiter_pc) (s : state) : state :=
  {| connected := connected s; mutex := mutex s; waiter := w;
     listeners := listeners s; history := history s |}.

Definition set_mutex (m : option owner) (s : state) : state :=
  {| connected := connected s; mutex := m; waiter := waiter s;
     listeners := listeners s; history := history s |}.

Definition set_listener (i : nat) (c : callback_pc) (s : state) : state :=
  {| connected := connected s; mutex := mutex s; waiter := waiter s;
     listeners := <[ i := c ]> (listeners s); history := history s |}.

Definition record (e : event) (s : state) : state :=
  {| connected := connected s; mutex := mutex s; waiter := waiter s;
     listeners := listeners s; history := history s ++ [e] |}.

Definition assign (b : bool) (s : state) : state :=
  {| connected := b; mutex := mutex s; waiter := waiter s;
     listeners := listeners s;
     history := history s ++ [EAssign (connected s) b] |}.

(** [cm.cond.Broadcast()]: a parked waiter becomes runnable. *)
Definition broadcast (s : state) : state :=
  match waiter s with
  | WWaiting cur => set_waiter (WWoken cur) s
  | _ => s
  end.

(** One statement of [waitForConnectionStatusChange]. *)
Definition waiter_step (s : state) : option state :=
  match waiter s with
  | WEntry =>
      match mutex s with
      | None => Some (set_waiter WLocked (set_mutex (Some OWaiter) s))
      | Some _ => None
      end
  | WLocked =>
      Some (set_waiter (WLoop (connected s)) (record (ESnapshot (connected s)) s))
  | WLoop cur =>
      if Bool.eqb (connected s) cur
      then Some (set_waiter (WWaiting cur) (set_mutex None s))
      else Some (set_waiter (WReturned cur) (set_mutex None (record EReturn s)))
  | WWaiting _ => None
  | WWoken cur =>
      match mutex s with
      | None => Some (set_waiter (WLoop cur) (set_mutex (Some OWaiter) s))
      | Some _ => None
      end
  | WReturned _ => None
  end.

(** One statement of [connectionStatusChanged], run by goroutine [i]. *)
Definition callback_step (i : nat) (s : state) : option state :=
  match listeners s !! i with
  | None => None
  | Some (CEntry None) => Some (set_listener i CReturned s)
  | Some (CEntry (Some b)) =>
      if Bool.eqb (connected s) b
      then Some (set_listener i CReturned s)
      else Some (set_listener i (CLock b) s)
  | Some (CLock b) =>
      match mutex s with
      | None => Some (set_listener i (CAssign b) (set_mutex (Some (OCallback i)) s))
      | Some _ => None
      end
  | Some (CAssign b) => Some (set_listener i CBroadcast (assign b s))
  | Some CBroadcast => Some (set_listener i CUnlock (broadcast s))
  | Some CUnlock => Some (set_listener i CReturned (set_mutex None s))
  | Some CReturned => None
  end.

Definition step (l : label) (s : state) : option state :=
  match l with
  | LWaiter => waiter_step s
  | LSpurious =>
      match waiter s with
      | WWaiting cur => Some (set_waiter (WWoken cur) s)
      | _ => None
      end
  | LSpawn v =>
      Some {| connected := connected s; mutex := mutex s; waiter := waiter s;
              listeners := listeners s ++ [CEntry v]; history := history s |}
  | LCallback i => callback_step i s
  end.

(** A schedule is any list of labels; a label that cannot run (a
    goroutine blocked on the lock, parked, or returned) is skipped. *)
Definition run (sched : list label) (s : state) : state :=
  foldl (fun s l => default s (step l s)) s sched.

(** [waitForConnectionStatusChange] is called while the flag holds [v]. *)
Definition call_wait (v : bool) : state :=
  {| connected := v; mutex := None; waiter := WEntry;
     listeners := []; history := [] |}.

Definition returned (s : state) : bool :=
  match waiter s with WReturned _ => true | _ => false end.

(** *** The waiter returns only after a change of the flag *)

Lemma sub_snoc (l h : list event) (e : event) :
  l `sublist_of` h -> l ++ [e] `sublist_of` h ++ [e].
Proof. intros Hs. now apply sublist_app. Qed.

Lemma sub_later (l h : list event) (e : event) :
  l `sublist_of` h -> l `sublist_of` h ++ [e].
Proof. intros Hs. now apply sublist_inserts_r. Qed.

Lemma sub_second (a b : event) (h : list event) :
  [a; b] `sublist_of` h -> [b] `sublist_of` h.
Proof. intros Hs. etransitivity; [| exact Hs]. now apply sublist_cons. Qed.

Lemma sub_first (a b : event) (h : list event) :
  [a; b] `sublist_of` h -> [a] `sublist_of` h.
Proof.
  intros Hs. etransitivity; [| exact Hs].
  apply sublist_skip, sublist_nil_l.
Qed.

Lemma differs_negb (b v : bool) : b <> v -> b = negb v.
Proof. destruct b, v; simpl; congruence. Qed.

(** What holds of the waiter after its snapshot [cur], the call having
    been made while the flag held [v]. *)
Definition after_snapshot (v cur : bool) (s : state) : Prop :=
  [ESnapshot cur] `sublist_of` history s /\
  (cur <> v -> [EAssign v (negb v); ESnapshot cur] `sublist_of` history s) /\
  (connected s <> cur ->
   [ESnapshot cur; EAssign cur (negb cur)] `sublist_of` history s).

Definition wait_invariant (v : bool) (s : state) : Prop :=
  (connected s <> v -> [EAssign v (negb v)] `sublist_of` history s) /\
  match waiter s with
  | WEntry | WLocked => True
  | WLoop cur | WWaiting cur | WWoken cur => after_snapshot v cur s
  | WReturned cur =>
      [ESnapshot cur; EAssign cur (negb cur); EReturn] `sublist_of` history s /\
      [EAssign v (negb v); EReturn] `sublist_of` history s
  end.

Lemma wait_invariant_call (v : bool) : wait_invariant v (call_wait v).
Proof. split; [intros H; now destruct H | exact I]. Qed.

Lemma wait_invariant_waiter_step (v : bool) (s s' : state) :
  wait_invariant v s -> waiter_step s = Some s' -> wait_invariant v s'.
Proof.
  intros [Hv Hw] Hstep. unfold waiter_step in Hstep.
  destruct (waiter s) as [| | cur | cur | cur | cur] eqn:Ew.
  - destruct (mutex s); [discriminate |]. injection Hstep as <-.
    split; [exact Hv | exact I].
  - injection Hstep as <-. split; simpl.
    + intros Hne. apply sub_later, Hv, Hne.
    + split; [apply sublist_inserts_l; reflexivity |].
      split; [| intros Hne; now destruct Hne].
      intros Hne. apply (sub_snoc [_]), Hv, Hne.
  - destruct Hw as (Hsnap & Hpre & Hchg).
    destruct (Bool.eqb (connected s) cur) eqn:Eb; injection Hstep as <-.
    + split; [exact Hv |]. simpl. split; [exact Hsnap |]. split; assumption.
    + apply eqb_false_iff in Eb. split; simpl.
      * intros Hne. apply sub_later, Hv, Hne.
      * split; [apply (sub_snoc [_; _]), Hchg, Eb |].
        apply (sub_snoc [_]).
        destruct (bool_decide (cur = v)) eqn:Ecur.
        -- apply bool_decide_eq_true in Ecur. subst cur.
           apply (sub_second (ESnapshot v)), Hchg, Eb.
        -- apply bool_decide_eq_false in Ecur.
           apply (sub_first _ (ESnapshot cur)), Hpre, Ecur.
  - discriminate.
  - destruct (mutex s); [discriminate |]. injection Hstep as <-.
    split; [exact Hv | exact Hw].
  - discriminate.
Qed.

(** Steps that touch neither the flag, nor the history, nor the
    waiter's statement keep the invariant. *)
Lemma wait_invariant_frame (v : bool) (s s' : state) :
  connected s' = connected s -> history s' = history s ->
  waiter s' = waiter s ->
  wait_invariant v s -> wait_invariant v s'.
Proof.
  intros Ec Eh Ew [Hv Hw]. unfold wait_invariant, after_snapshot.
  rewrite Ec, Eh, Ew. split; assumption.
Qed.

Lemma wait_invariant_woken (v cur : bool) (s : state) :
  waiter s = WWaiting cur ->
  wait_invariant v s -> wait_invariant v (set_waiter (WWoken cur) s).
Proof.
  intros Ew [Hv Hw]. rewrite Ew in Hw. split; [exact Hv | exact Hw].
Qed.

Lemma wait_invariant_broadcast (v : bool) (s : state) :
  wait_invariant v s -> wait_invariant v (broadcast s).
Proof.
  intros Hinv. unfold broadcast.
  destruct (waiter s) eqn:Ew; try exact Hinv.
  now apply wait_invariant_woken.
Qed.

Lemma wait_invariant_assign (v b : bool) (s : state) :
  wait_invariant v s -> wait_invariant v (assign b s).
Proof.
  intros [Hv Hw].
  assert (Hv' : b <> v ->
                [EAssign v (negb v)] `sublist_of`
                history s ++ [EAssign (connected s) b]).
  { intros Hne. destruct (bool_decide (connected s = v)) eqn:Eold.
    - apply bool_decide_eq_true in Eold. rewrite Eold.
      rewrite (differs_negb b v Hne). apply sublist_inserts_l. reflexivity.
    - apply bool_decide_eq_false in Eold. apply sub_later, Hv, Eold. }
  split; [exact Hv' |]. unfold assign. simpl.
  assert (Hsnap' : forall cur, after_snapshot v cur s ->
                   after_snapshot v cur (assign b s)).
  { intros cur (Hsnap & Hpre & Hchg). unfold after_snapshot, assign. simpl.
    split; [apply sub_later, Hsnap |].
    split; [intros Hne; apply sub_later, Hpre, Hne |].
    intros Hne. destruct (bool_decide (connected s = cur)) eqn:Eold.
    - apply bool_decide_eq_true in Eold. rewrite Eold.
      rewrite (differs_negb b cur Hne). apply (sub_snoc [_]), Hsnap.
    - apply bool_decide_eq_false in Eold. apply sub_later, Hchg, Eold. }
  destruct (waiter s) as [| | cur | cur | cur | cur]; try exact I;
    try (apply Hsnap', Hw).
  destruct Hw as [H3 H2]. split; apply sub_later; assumption.
Qed.

Lemma wait_invariant_callback_step (v : bool) (i : nat) (s s' : state) :
  wait_invariant v s -> callback_step i s = Some s' -> wait_invariant v s'.
Proof.
  intros Hinv Hstep. unfold callback_step in Hstep.
  destruct (listeners s !! i) as [[[b |] | b | b | | |] |]; try discriminate.
  - destruct (Bool.eqb (connected s) b); injection Hstep as <-;
      (eapply wait_invariant_frame; [.. | exact Hinv]; reflexivity).
  - injection Hstep as <-.
    eapply wait_invariant_frame; [.. | exact Hinv]; reflexivity.
  - destruct (mutex s); [discriminate |]. injection Hstep as <-.
    eapply wait_invariant_frame; [.. | exact Hinv]; reflexivity.
  - injection Hstep as <-.
    eapply wait_invariant_frame; [.. | apply wait_invariant_assign, Hinv];
      reflexivity.
  - injection Hstep as <-.
    eapply wait_invariant_frame; [.. | apply wait_invariant_broadcast, Hinv];
      reflexivity.
  - injection Hstep as <-.
    eapply wait_invariant_frame; [.. | exact Hinv]; reflexivity.
Qed.

Lemma wait_invariant_step (v : bool) (l : label) (s s' : state) :
  wait_invariant v s -> step l s = Some s' -> wait_invariant v s'.
Proof.
  intros Hinv Hstep. destruct l as [| | r | i]; simpl in Hstep.
  - eapply wait_invariant_waiter_step; eassumption.
  - destruct (waiter s) eqn:Ew; try discriminate. injection Hstep as <-.
    now apply wait_invariant_woken.
  - injection Hstep as <-.
    eapply wait_invariant_frame; [.. | exact Hinv]; reflexivity.
  - eapply wait_invariant_callback_step; eassumption.
Qed.

Lemma wait_invariant_run (v : bool) (sched : list label) :
  forall s, wait_invariant v s -> wait_invariant v (run sched s).
Proof.
  induction sched as [| l sched IH]; intros s Hinv; [exact Hinv |].
  unfold run. simpl. apply IH.
  destruct (step l s) as [s' |] eqn:Hstep; simpl; [| exact Hinv].
  eapply wait_invariant_step; eassumption.
Qed.

(** C6. [waitForConnectionStatusChange], called while the flag holds
    [v], has returned only if, in this order, it took its snapshot
    [cur], a listener callback changed the flag from [cur] to the other
    value, and then it returned; and a callback changed the flag from
    [v] before the return.  The schedule is arbitrary: wake-ups without
    notification and callbacks that find the flag already at their
    value are among the steps. *)
Theorem wait_returns_only_after_change
  (v : bool) (sched : list label) (cur : bool) :
  waiter (run sched (call_wait v)) = WReturned cur ->
  [ESnapshot cur; EAssign cur (negb cur); EReturn]
    `sublist_of` history (run sched (call_wait v)) /\
  [EAssign v (negb v); EReturn]
    `sublist_of` history (run sched (call_wait v)).
Proof.
  intros Hret.
  destruct (wait_invariant_run v sched (call_wait v) (wait_invariant_call v))
    as [_ Hw].
  rewrite Hret in Hw. exact Hw.
Qed.

(** The status listener fires [false -> true] while the waiter is
    parked, after a wake-up without notification. *)
Definition false_to_true : list label :=
  [LWaiter; LWaiter; LWaiter; LSpurious; LWaiter; LWaiter;
   LSpawn (Some true); LCallback 0; LCallback 0; LCallback 0;
   LCallback 0; LCallback 0; LWaiter; LWaiter].

Lemma wait_returns_only_after_change_witness :
  waiter (run false_to_true (call_wait false)) = WReturned false /\
  [ESnapshot false; EAssign false true; EReturn]
    `sublist_of` history (run false_to_true (call_wait false)).
Proof.
  split; [reflexivity |].
  apply (wait_returns_only_after_change false false_to_true false).
  reflexivity.
Defined.

(** Without a listener call the flag is never assigned. *)
Definition quiet (l : label) : bool :=
  match l with LSpawn _ => false | _ => true end.

Lemma quiet_step (l : label) (s s' : state) :
  quiet l = true -> listeners s = [] -> step l s = Some s' ->
  listeners s' = [] /\
  connected s' = connected s /\
  (forall e, e ∈ history s' -> e ∈ history s \/ e = EReturn \/
                               exists c, e = ESnapshot c).
Proof.
  intros Hq Hl Hstep.
  destruct l as [| | r | i]; simpl in Hstep; try discriminate.
  - unfold waiter_step in Hstep.
    destruct (waiter s) as [| | cur | cur | cur | cur]; try discriminate.
    + destruct (mutex s); [discriminate |]. injection Hstep as <-. simpl. auto.
    + injection Hstep as <-. simpl. split; [exact Hl |]. split; [reflexivity |].
      intros e He. apply elem_of_app in He as [He | He]; [now left |].
      apply list_elem_of_singleton in He. right. right. eauto.
    + destruct (Bool.eqb (connected s) cur); injection Hstep as <-; simpl.
      * auto.
      * split; [exact Hl |]. split; [reflexivity |].
        intros e He. apply elem_of_app in He as [He | He]; [now left |].
        apply list_elem_of_singleton in He. right. now left.
    + destruct (mutex s); [discriminate |]. injection Hstep as <-. simpl. auto.
  - destruct (waiter s); try discriminate. injection Hstep as <-. simpl. auto.
  - unfold callback_step in Hstep. rewrite Hl in Hstep. discriminate.
Qed.

Lemma quiet_run (sched : list label) :
  forall s,
  forallb quiet sched = true -> listeners s = [] ->
  forall o n, EAssign o n ∈ history (run sched s) -> EAssign o n ∈ history s.
Proof.
  induction sched as [| l sched IH]; intros s Hq Hl o n Hin; [exact Hin |].
  simpl in Hq. apply andb_true_iff in Hq as [Hql Hq].
  unfold run in Hin. simpl in Hin. fold (run sched (default s (step l s))) in Hin.
  destruct (step l s) as [s' |] eqn:Hstep; simpl in Hin.
  - destruct (quiet_step l s s' Hql Hl Hstep) as (Hl' & _ & Hh).
    apply (IH s' Hq Hl') in Hin.
    destruct (Hh _ Hin) as [H1 | [H2 | [c H3]]]; [exact H1 | discriminate ..].
  - now apply (IH s Hq Hl).
Qed.

(** As long as the status listener is not called, the waiter does not
    return, however long the schedule. *)
Lemma wait_blocks_while_quiet (v : bool) (sched : list label) :
  forallb quiet sched = true -> returned (run sched (call_wait v)) = false.
Proof.
  intros Hq. unfold returned.
  destruct (waiter (run sched (call_wait v))) as [| | c | c | c | cur] eqn:Ew;
    try reflexivity.
  destruct (wait_invariant_run v sched (call_wait v) (wait_invariant_call v))
    as [_ Hw].
  rewrite Ew in Hw. destruct Hw as [_ Hsub].
  apply sub_first in Hsub.
  pose proof (quiet_run sched (call_wait v) Hq eq_refl) as Hh.
  assert (Hin : EAssign v (negb v) ∈ history (run sched (call_wait v))).
  { now apply singleton_sublist_l. }
  apply Hh in Hin. simpl in Hin. inversion Hin.
Qed.


(** *** [Start] *)

(** The fields of [Connection] that [Start] uses ([status] gathers
    [m], [cond] and [connected]), and what its collaborators have been
    asked so far. *)
Record Connection := {
  connectionStatusToken : Token;
  status : state;
  trace : list action;
}.

(** How far a call of [Start] got under a given schedule. *)
Inductive outcome :=
| Returned (err : option error)
| Blocked.

Section Start.

Context `{UB : UnityBridge} `{F : Finder}.

(** Statements that may return early with an error. *)
Definition M (A : Type) : Type := Connection -> (A + error) * Connection.

Definition ret {A} (a : A) : M A := fun cm => (inl a, cm).

Definition bind {A B} (m : M A) (k : A -> M B) : M B :=
  fun cm =>
    match m cm with
    | (inl a, cm') => k a cm'
    | (inr e, cm') => (inr e, cm')
    end.

Notation "'do' x <- m ; k" := (bind m (fun x => k))
  (at level 10, x name, m at level 100, k at level 200).

Definition asked (a : action) (cm : Connection) : Connection :=
  {| connectionStatusToken := connectionStatusToken cm;
     status := status cm;
     trace := trace cm ++ [a] |}.

Definition nil_or_error (r : option error) : unit + error :=
  match r with None => inl tt | Some e => inr e end.

Definition AddKeyListener (k : KeyName) (immediate : bool) : M Token :=
  fun cm =>
    (AddKeyListener_answer (bridge_calls (trace cm)) k immediate,
     asked (Bridge (CAddKeyListener k immediate)) cm).

(** [SendEvent], [SendEventWithString], [SendEventWithUint64]. *)
Definition Send (c : call) : M unit :=
  fun cm =>
    (nil_or_error (SendEvent_answer (bridge_calls (trace cm)) c),
     asked (Bridge c) cm).

Definition Find (timeout : Z) : M Beacon :=
  fun cm => (Find_answer (trace cm) timeout, asked (FinderFind timeout) cm).

(** [SendACK]: its result is not looked at. *)
Definition SendACK (ip : IP) (appID : N) : M unit :=
  fun cm => (inl tt, asked (FinderSendACK ip appID) cm).

Definition set_connectionStatusToken (t : Token) : M unit :=
  fun cm =>
    (inl tt, {| connectionStatusToken := t; status := status cm;
                trace := trace cm |}).

(** [Start], lines 52-95: everything before the wait.  The lock taken
    at line 52 is released at line 57 or 62. *)
Definition Start_calls : M unit :=
  do token <- AddKeyListener KeyAirLinkConnection false;
  do _ <- set_connectionStatusToken token;
  do b <- Find (30 * Second);
  do _ <- SendACK (SourceIp b) (AppId b);
  let e := NewFromType TypeConnection in
  let e := ResetSubType e subTypeConnectionClose in
  do _ <- Send (CSendEvent e);
  let e := ResetSubType e subTypeConnectionSetIP in
  do _ <- Send (CSendEventWithString e (SourceIp b));
  let e := ResetSubType e subTypeConnectionSetPort in
  do _ <- Send (CSendEventWithUint64 e 10607);
  let e := ResetSubType e subTypeConnectionOpen in
  do _ <- Send (CSendEvent e);
  ret tt.

(** [Start], lines 51-100.  [sched] is what the scheduler does while
    [Start] is inside [waitForConnectionStatusChange]; when the waiter
    has not returned at its end, [Start] is still blocked. *)
Definition Start (sched : list label) (cm : Connection)
  : outcome * Connection :=
  match Start_calls cm with
  | (inr err, cm1) => (Returned (Some err), cm1)
  | (inl _, cm1) =>
      let cm2 := asked WaitStatusChange cm1 in
      let s := run sched (call_wait (connected (status cm2))) in
      (if returned s then Returned None else Blocked,
       {| connectionStatusToken := connectionStatusToken cm2;
          status := s; trace := trace cm2 |})
  end.

(** The four events, as the bridge receives them. *)
Definition connection_event (sub : Z) : Event :=
  {| Type_ := TypeConnection; SubType := sub |}.

Definition close_event : call :=
  CSendEvent (connection_event subTypeConnectionClose).
Definition set_ip_event (b : Beacon) : call :=
  CSendEventWithString (connection_event subTypeConnectionSetIP) (SourceIp b).
Definition set_port_event : call :=
  CSendEventWithUint64 (connection_event subTypeConnectionSetPort) 10607.
Definition open_event : call :=
  CSendEvent (connection_event subTypeConnectionOpen).

(** Discovery and the ACK, as they appear in the trace. *)
Definition discovered (b : Beacon) : list action :=
  [Bridge (CAddKeyListener KeyAirLinkConnection false);
   FinderFind (30 * Second);
   FinderSendACK (SourceIp b) (AppId b)].

Definition answer (tr : list action) (c : call) : option error :=
  SendEvent_answer (bridge_calls tr) c.

(** C5. Once discovery has succeeded and the ACK is sent, [Start] asks
    the bridge for close, set-IP, set-port and open in this order and
    nothing else; each event is sent only when the bridge answered the
    one before without error; the first error ends [Start], which
    returns it; the wait on the status listener is entered only after
    the open event was accepted. *)
Theorem Start_event_sequence
  (sched : list label) (cm : Connection) (tok : Token) (b : Beacon) :
  AddKeyListener_answer (bridge_calls (trace cm)) KeyAirLinkConnection false
    = inl tok ->
  Find_answer (trace cm ++ [Bridge (CAddKeyListener KeyAirLinkConnection false)])
    (30 * Second) = inl b ->
  let t0 := trace cm ++ discovered b in
  let t1 := t0 ++ [Bridge close_event] in
  let t2 := t1 ++ [Bridge (set_ip_event b)] in
  let t3 := t2 ++ [Bridge set_port_event] in
  let t4 := t3 ++ [Bridge open_event] in
  let out := (Start sched cm).1 in
  let tr := trace (Start sched cm).2 in
  match answer t0 close_event, answer t1 (set_ip_event b),
        answer t2 set_port_event, answer t3 open_event with
  | Some e, _, _, _ => out = Returned (Some e) /\ tr = t1
  | None, Some e, _, _ => out = Returned (Some e) /\ tr = t2
  | None, None, Some e, _ => out = Returned (Some e) /\ tr = t3
  | None, None, None, Some e => out = Returned (Some e) /\ tr = t4
  | None, None, None, None =>
      (out = Blocked \/ out = Returned None) /\ tr = t4 ++ [WaitStatusChange]
  end.
Proof.
  intros Hadd Hfind t0 t1 t2 t3 t4 out tr.
  subst out tr. unfold Start, Start_calls, bind, AddKeyListener, Find, SendACK,
    set_connectionStatusToken, Send, ret, asked, answer in *.
  simpl. rewrite Hadd. simpl. rewrite Hfind. simpl.
  subst t0 t1 t2 t3 t4. unfold discovered.
  rewrite <- !app_assoc. simpl.
  unfold close_event, set_ip_event, set_port_event, open_event,
    connection_event, ResetSubType, NewFromType. simpl.
  repeat match goal with
  | |- context [SendEvent_answer ?l ?c] =>
      destruct (SendEvent_answer l c) eqn:?; simpl
  end; try (split; reflexivity).
  split; [| now rewrite <- app_assoc].
  destruct (returned _); [right | left]; reflexivity.
Qed.

Definition is_remove (a : action) : bool :=
  match a with Bridge (CRemoveKeyListener _ _) => true | _ => false end.

Definition is_wait (a : action) : bool :=
  match a with WaitStatusChange => true | _ => false end.

Lemma Start_calls_trace (cm : Connection) :
  exists new,
    trace (Start_calls cm).2 = trace cm ++ new /\
    existsb is_remove new = false /\
    existsb is_wait new = false.
Proof.
  unfold Start_calls, bind, AddKeyListener, Find, SendACK,
    set_connectionStatusToken, Send, ret, asked. simpl.
  destruct (AddKeyListener_answer _ _ _) as [tok | e]; simpl;
    [| eexists; split; [reflexivity | split; reflexivity]].
  destruct (Find_answer _ _) as [b | e]; simpl;
    [| eexists; split; [now rewrite <- !app_assoc | split; reflexivity]].
  repeat match goal with
  | |- context [SendEvent_answer ?l ?c] =>
      destruct (SendEvent_answer l c); simpl
  end;
  (eexists; split; [now rewrite <- !app_assoc | split; reflexivity]).
Qed.

(** C7, as the code has it. [Start] returns an error only from the
    calls it makes before the wait (registering the listener,
    discovery, the four events); whatever happens it does not remove
    the status listener; the wait has no deadline: once [Start] is in
    it, it returns nil when the waiter sees the flag change and stays
    blocked as long as the status listener is not called. *)
Theorem Start_wait_has_no_deadline (sched : list label) (cm : Connection) :
  exists new,
    trace (Start sched cm).2 = trace cm ++ new /\
    existsb is_remove new = false /\
    match (Start sched cm).1 with
    | Returned (Some _) => existsb is_wait new = false
    | Returned None => existsb is_wait new = true /\ forallb quiet sched = false
    | Blocked => existsb is_wait new = true
    end /\
    (existsb is_wait new = true -> forallb quiet sched = true ->
     (Start sched cm).1 = Blocked).
Proof.
  destruct (Start_calls_trace cm) as (new & Htr & Hrm & Hw).
  unfold Start. destruct (Start_calls cm) as [[[] | err] cm1]; simpl in *.
  - exists (new ++ [WaitStatusChange]).
    rewrite Htr, <- app_assoc, !existsb_app, Hrm, Hw. simpl.
    split; [reflexivity |]. split; [reflexivity |].
    destruct (returned (run sched (call_wait (connected (status cm1))))) eqn:Hret.
    + split.
      * split; [reflexivity |].
        destruct (forallb quiet sched) eqn:Hq; [| reflexivity].
        rewrite wait_blocks_while_quiet in Hret by exact Hq. discriminate.
      * intros _ Hq.
        rewrite wait_blocks_while_quiet in Hret by exact Hq. discriminate.
    + split; [reflexivity |]. intros _ _. reflexivity.
  - exists new. split; [exact Htr |]. split; [exact Hrm |].
    split; [exact Hw |]. intros Hw'. rewrite Hw in Hw'. discriminate.
Qed.

End Start.

(** A connection on which [Start] has not been called. *)
Definition new_connection : Connection :=
  {| connectionStatusToken := 0%N; status := call_wait false; trace := [] |}.

(** A finder that discovers a robot at once. *)
Definition robot : Beacon := {| SourceIp := str "192.168.2.1"; AppId := 7%N |}.

Definition finder_at_once : Finder := {| Find_answer := fun _ _ => inl robot |}.

Lemma Start_event_sequence_witness :
  (Start (UB := willing_bridge) (F := finder_at_once)
         false_to_true new_connection).1 = Returned None /\
  trace (Start (UB := willing_bridge) (F := finder_at_once)
               false_to_true new_connection).2 =
  discovered robot ++
  [Bridge close_event; Bridge (set_ip_event robot); Bridge set_port_event;
   Bridge open_event; WaitStatusChange].
Proof.
  pose proof (Start_event_sequence (UB := willing_bridge) (F := finder_at_once)
                false_to_true new_connection 1%N robot eq_refl eq_refl) as H.
  simpl in H. destruct H as [_ Htr].
  split; [reflexivity | exact Htr].
Defined.

(** A bridge that refuses the set-port event. *)
Definition no_port_bridge : UnityBridge := {|
  AddKeyListener_answer := fun _ _ _ => inl 1%N;
  RemoveKeyListener_answer := fun _ _ _ => None;
  SendEvent_answer := fun _ c =>
    match c with
    | CSendEventWithUint64 _ _ => Some (str "port refused")
    | _ => None
    end;
|}.

Example Start_stops_at_set_port :
  Start (UB := no_port_bridge) (F := finder_at_once) false_to_true new_connection
  = (Returned (Some (str "port refused")),
     {| connectionStatusToken := 1%N; status := call_wait false;
        trace := discovered robot ++
                 [Bridge close_event; Bridge (set_ip_event robot);
                  Bridge set_port_event] |}).
Proof. reflexivity. Qed.

(** The scheduler runs the waiter and wakes it without notification,
    [n] times over; the status listener is never called. *)
Definition idle (n : nat) : list label :=
  concat (replicate n [LWaiter; LSpurious]).

(** C7 as stated does not hold: with a bridge and a finder that accept
    every call and a status that never changes, [Start] is still
    blocked in the wait after a schedule of 2000 steps; it has returned
    no error and has not removed its listener. *)
Lemma Start_blocked_without_timeout :
  (Start (UB := willing_bridge) (F := finder_at_once)
         (idle 1000) new_connection).1 = Blocked /\
  existsb is_remove
    (trace (Start (UB := willing_bridge) (F := finder_at_once)
                  (idle 1000) new_connection).2) = false.
Proof. split; vm_compute; reflexivity. Qed.

(** *** The waiter is released by a change, and by nothing else *)

(** A label that cannot change the flag when it holds [v]: anything
    but a listener call that reports the other value. *)
Definition harmless (v : bool) (l : label) : bool :=
  match l with
  | LSpawn (Some b) => Bool.eqb b v
  | _ => true
  end.

(** A listener goroutine that will not assign the flag while it holds
    [v]: it has been called with a value that is no boolean or with
    [v], or it has returned. *)
Definition benign (v : bool) (c : callback_pc) : Prop :=
  c = CEntry None \/ c = CEntry (Some v) \/ c = CReturned.

Definition unchanged (v : bool) (s : state) : Prop :=
  connected s = v /\ Forall (benign v) (listeners s) /\
  forall o n, EAssign o n ∉ history s.

Lemma unchanged_step (v : bool) (l : label) (s s' : state) :
  harmless v l = true -> unchanged v s -> step l s = Some s' -> unchanged v s'.
Proof.
  intros Hl (Hc & Hb & Hh) Hstep.
  destruct l as [| | r | i]; cbn [step] in Hstep.
  - unfold waiter_step in Hstep.
    destruct (waiter s) as [| | cur | cur | cur | cur]; try discriminate.
    + destruct (mutex s); [discriminate |]. injection Hstep as <-.
      repeat split; assumption.
    + injection Hstep as <-. repeat split; try assumption. cbn.
      intros o n Hin. apply elem_of_app in Hin as [Hin | Hin];
        [now apply (Hh o n) | apply list_elem_of_singleton in Hin; discriminate].
    + destruct (Bool.eqb (connected s) cur); injection Hstep as <-;
        repeat split; try assumption. cbn.
      intros o n Hin. apply elem_of_app in Hin as [Hin | Hin];
        [now apply (Hh o n) | apply list_elem_of_singleton in Hin; discriminate].
    + destruct (mutex s); [discriminate |]. injection Hstep as <-.
      repeat split; assumption.
  - destruct (waiter s); try discriminate. injection Hstep as <-.
    repeat split; assumption.
  - injection Hstep as <-. repeat split; try assumption. cbn.
    apply Forall_app. split; [exact Hb |]. constructor; [| constructor].
    destruct r as [b |]; [| now left].
    cbn in Hl. apply Bool.eqb_prop in Hl. subst b. right. now left.
  - unfold callback_step in Hstep.
    destruct (listeners s !! i) as [pc |] eqn:Hi; [| discriminate].
    pose proof (Forall_lookup_1 _ _ _ _ Hb Hi) as [-> | [-> | ->]].
    + injection Hstep as <-. repeat split; try assumption. cbn.
      apply Forall_insert; [exact Hb |]. right. now right.
    + rewrite Hc, Bool.eqb_reflx in Hstep. injection Hstep as <-.
      repeat split; try assumption. cbn.
      apply Forall_insert; [exact Hb |]. right. now right.
    + discriminate.
Qed.

Lemma unchanged_run (v : bool) (sched : list label) :
  forall s, forallb (harmless v) sched = true -> unchanged v s ->
            unchanged v (run sched s).
Proof.
  induction sched as [| l sched IH]; intros s Hq Hu; [exact Hu |].
  cbn [forallb] in Hq. apply andb_true_iff in Hq as [Hl Hq].
  unfold run. cbn [foldl]. apply (IH _ Hq).
  destruct (step l s) as [s' |] eqn:Hstep; [| exact Hu].
  exact (unchanged_step v l s s' Hl Hu Hstep).
Qed.

Lemma unchanged_blocks (v : bool) (sched : list label) :
  forallb (harmless v) sched = true ->
  returned (run sched (call_wait v)) = false /\
  connected (run sched (call_wait v)) = v.
Proof.
  intros Hq.
  assert (Hu : unchanged v (run sched (call_wait v))).
  { apply unchanged_run; [exact Hq |].
    repeat split; [constructor |]. intros o n Hin. inversion Hin. }
  destruct Hu as (Hc & _ & Hh). split; [| exact Hc].
  unfold returned.
  destruct (waiter (run sched (call_wait v))) as [| | c | c | c | cur] eqn:Ew;
    try reflexivity.
  destruct (wait_invariant_run v sched (call_wait v) (wait_invariant_call v))
    as [_ Hw].
  rewrite Ew in Hw. destruct Hw as [_ Hsub]. apply sub_first in Hsub.
  exfalso. apply (Hh v (negb v)). now apply singleton_sublist_l.
Qed.

(** X17. Listener calls that report the status the flag already has, or
    a value that is no boolean, do not release the waiter: under any
    schedule made of such calls, of steps of the waiter and of the
    listener goroutines and of wake-ups without notification, however
    long, the flag keeps its value and
    [waitForConnectionStatusChange] has not returned. *)
Theorem wait_blocks_while_status_unchanged (v : bool) (sched : list label) :
  forallb (harmless v) sched = true ->
  returned (run sched (call_wait v)) = false /\
  connected (run sched (call_wait v)) = v.
Proof. apply unchanged_blocks. Qed.

Lemma run_step (l : label) (sched : list label) (s s' : state) :
  step l s = Some s' -> run (l :: sched) s = run sched s'.
Proof. intros H. unfold run. cbn [foldl]. now rewrite H. Qed.

(** The listener is called with the other value and runs to its end,
    then the waiter runs twice. *)
Definition change_seen (i : nat) (b : bool) : list label :=
  [LSpawn (Some b); LCallback i; LCallback i; LCallback i; LCallback i;
   LCallback i; LWaiter; LWaiter].

(** X18. A waiter parked in [cond.Wait] is released by one listener
    call that reports the other value: when the call has run to its
    end (test, lock, assignment, broadcast, unlock) and the waiter has
    run twice (lock taken again, test), the waiter has returned and
    the flag holds the new value. *)
Theorem wait_returns_after_change (s : state) (cur : bool) :
  waiter s = WWaiting cur -> connected s = cur -> mutex s = None ->
  let s' := run (change_seen (length (listeners s)) (negb cur)) s in
  waiter s' = WReturned cur /\ connected s' = negb cur /\ mutex s' = None.
Proof.
  intros Hw Hc Hm. destruct s as [c m w ls h]. cbn in Hw, Hc, Hm. subst.
  cbn [listeners]. set (i := length ls).
  assert (Hlook : forall pc, (ls ++ [pc]) !! i = Some pc).
  { intros pc. subst i. now rewrite list_lookup_middle. }
  assert (Hins : forall pc pc', <[ i := pc' ]> (ls ++ [pc]) = ls ++ [pc']).
  { intros pc pc'. subst i.
    now rewrite (insert_app_r_alt ls [pc]), Nat.sub_diag by lia. }
  assert (Hne : Bool.eqb cur (negb cur) = false) by (now destruct cur).
  assert (Hne' : Bool.eqb (negb cur) cur = false) by (now destruct cur).
  pose (at_ := fun c m w pc h' =>
          {| connected := c; mutex := m; waiter := w;
             listeners := ls ++ [pc]; history := h ++ h' |}).
  assert (E1 : step (LSpawn (Some (negb cur)))
                 {| connected := cur; mutex := None; waiter := WWaiting cur;
                    listeners := ls; history := h |}
               = Some (at_ cur None (WWaiting cur) (CEntry (Some (negb cur))) []))
    by (subst at_; cbn; now rewrite app_nil_r).
  assert (E2 : step (LCallback i)
                 (at_ cur None (WWaiting cur) (CEntry (Some (negb cur))) [])
               = Some (at_ cur None (WWaiting cur) (CLock (negb cur)) [])).
  { subst at_. unfold step, callback_step, set_listener.
    cbn [listeners connected mutex waiter history].
    now rewrite Hlook, Hne, Hins. }
  assert (E3 : step (LCallback i)
                 (at_ cur None (WWaiting cur) (CLock (negb cur)) [])
               = Some (at_ cur (Some (OCallback i)) (WWaiting cur)
                           (CAssign (negb cur)) [])).
  { subst at_. unfold step, callback_step, set_listener, set_mutex.
    cbn [listeners connected mutex waiter history].
    now rewrite Hlook, Hins. }
  assert (E4 : step (LCallback i)
                 (at_ cur (Some (OCallback i)) (WWaiting cur)
                      (CAssign (negb cur)) [])
               = Some (at_ (negb cur) (Some (OCallback i)) (WWaiting cur)
                           CBroadcast [EAssign cur (negb cur)])).
  { subst at_. unfold step, callback_step, set_listener, assign.
    cbn [listeners connected mutex waiter history].
    now rewrite Hlook, Hins, app_nil_r. }
  assert (E5 : step (LCallback i)
                 (at_ (negb cur) (Some (OCallback i)) (WWaiting cur)
                      CBroadcast [EAssign cur (negb cur)])
               = Some (at_ (negb cur) (Some (OCallback i)) (WWoken cur)
                           CUnlock [EAssign cur (negb cur)])).
  { subst at_. unfold step, callback_step, set_listener, broadcast, set_waiter.
    cbn [listeners connected mutex waiter history].
    now rewrite Hlook, Hins. }
  assert (E6 : step (LCallback i)
                 (at_ (negb cur) (Some (OCallback i)) (WWoken cur)
                      CUnlock [EAssign cur (negb cur)])
               = Some (at_ (negb cur) None (WWoken cur)
                           CReturned [EAssign cur (negb cur)])).
  { subst at_. unfold step, callback_step, set_listener, set_mutex.
    cbn [listeners connected mutex waiter history].
    now rewrite Hlook, Hins. }
  assert (E7 : step LWaiter
                 (at_ (negb cur) None (WWoken cur)
                      CReturned [EAssign cur (negb cur)])
               = Some (at_ (negb cur) (Some OWaiter) (WLoop cur)
                           CReturned [EAssign cur (negb cur)]))
    by reflexivity.
  assert (E8 : step LWaiter
                 (at_ (negb cur) (Some OWaiter) (WLoop cur)
                      CReturned [EAssign cur (negb cur)])
               = Some (at_ (negb cur) None (WReturned cur)
                           CReturned [EAssign cur (negb cur); EReturn])).
  { subst at_. unfold step, waiter_step, set_waiter, set_mutex, record.
    cbn [listeners connected mutex waiter history].
    now rewrite Hne', <- app_assoc. }
  unfold change_seen.
  rewrite (run_step _ _ _ _ E1), (run_step _ _ _ _ E2), (run_step _ _ _ _ E3),
    (run_step _ _ _ _ E4), (run_step _ _ _ _ E5), (run_step _ _ _ _ E6),
    (run_step _ _ _ _ E7), (run_step _ _ _ _ E8).
  repeat split.
Qed.


(** The waiter parks, is woken without notification and parks again
    while the listener is called with a value that is no boolean and
    with the status the flag has. *)
Definition nothing_new : list label :=
  [LWaiter; LWaiter; LWaiter; LSpawn None; LCallback 0; LSpurious; LWaiter;
   LSpawn (Some false); LCallback 1; LWaiter; LWaiter].

Lemma wait_blocks_while_status_unchanged_witness :
  returned (run nothing_new (call_wait false)) = false /\
  connected (run nothing_new (call_wait false)) = false.
Proof.
  apply (wait_blocks_while_status_unchanged false nothing_new). reflexivity.
Defined.

Lemma wait_returns_after_change_witness :
  waiter (run (change_seen 0 true)
              (run [LWaiter; LWaiter; LWaiter] (call_wait false)))
  = WReturned false.
Proof.
  exact (proj1 (wait_returns_after_change
                  (run [LWaiter; LWaiter; LWaiter] (call_wait false)) false
                  eq_refl eq_refl eq_refl)).
Defined.


(** *** [Stop] *)

Section Stop.

Context `{UB : UnityBridge} `{F : Finder}.

Definition RemoveKeyListener (k : KeyName) (t : Token) (cm : Connection)
  : option error * Connection :=
  (RemoveKeyListener_answer (bridge_calls (trace cm)) k t,
   asked (Bridge (CRemoveKeyListener k t)) cm).

(** [Stop], lines 102-120.  [sched] is what the scheduler does while
    [Stop] is inside [waitForConnectionStatusChange]. *)
Definition Stop (sched : list label) (cm : Connection)
  : outcome * Connection :=
  match Send close_event cm with
  | (inr err, cm1) => (Returned (Some err), cm1)
  | (inl _, cm1) =>
      let cm2 := asked WaitStatusChange cm1 in
      let s := run sched (call_wait (connected (status cm2))) in
      let cm3 := {| connectionStatusToken := connectionStatusToken cm2;
                    status := s; trace := trace cm2 |} in
      if returned s then
        let '(err, cm4) :=
          RemoveKeyListener KeyAirLinkConnection (connectionStatusToken cm3)
            cm3 in
        (Returned err, cm4)
      else (Blocked, cm3)
  end.

Definition remove_listener (cm : Connection) : action :=
  Bridge (CRemoveKeyListener KeyAirLinkConnection (connectionStatusToken cm)).

Lemma Stop_outcomes (sched : list label) (cm : Connection) :
  let out := (Stop sched cm).1 in
  let tr := trace (Stop sched cm).2 in
  match answer (trace cm) close_event with
  | Some e => out = Returned (Some e) /\ tr = trace cm ++ [Bridge close_event]
  | None =>
      (out = Blocked /\
       tr = trace cm ++ [Bridge close_event; WaitStatusChange]) \/
      (out = Returned (RemoveKeyListener_answer
                         (bridge_calls (trace cm) ++ [close_event])
                         KeyAirLinkConnection (connectionStatusToken cm)) /\
       tr = trace cm ++ [Bridge close_event; WaitStatusChange;
                         remove_listener cm] /\
       forallb (harmless (connected (status cm))) sched = false)
  end.
Proof.
  intros out tr. subst out tr.
  unfold Stop, Send, RemoveKeyListener, asked, answer, remove_listener.
  cbn [trace status connectionStatusToken].
  destruct (SendEvent_answer (bridge_calls (trace cm)) close_event) as [e |].
  { cbn. split; reflexivity. }
  cbn [nil_or_error].
  destruct (returned (run sched (call_wait (connected (status cm))))) eqn:Hret.
  - right. cbn [fst snd trace]. split; [| split].
    + f_equal. f_equal. unfold bridge_calls.
      rewrite !omap_app. cbn. rewrite ?app_nil_r. reflexivity.
    + now rewrite <- !app_assoc.
    + destruct (forallb _ sched) eqn:Hq; [| reflexivity].
      destruct (unchanged_blocks _ sched Hq) as [Hb _].
      congruence.
  - left. cbn [fst snd trace]. split; [reflexivity |].
    now rewrite <- !app_assoc.
Qed.

(** X19. [Stop] sends the close event, waits for the status to change
    and only then removes the status listener, with the token the
    connection holds.  When the close event is refused it returns the
    error at once; otherwise it has no deadline: as long as the
    listener is not called with the other status it stays in the wait,
    and the listener stays registered. *)
Theorem Stop_event_sequence (sched : list label) (cm : Connection) :
  let out := (Stop sched cm).1 in
  let tr := trace (Stop sched cm).2 in
  match answer (trace cm) close_event with
  | Some e => out = Returned (Some e) /\ tr = trace cm ++ [Bridge close_event]
  | None =>
      (out = Blocked /\
       tr = trace cm ++ [Bridge close_event; WaitStatusChange]) \/
      (out = Returned (RemoveKeyListener_answer
                         (bridge_calls (trace cm) ++ [close_event])
                         KeyAirLinkConnection (connectionStatusToken cm)) /\
       tr = trace cm ++ [Bridge close_event; WaitStatusChange;
                         remove_listener cm] /\
       forallb (harmless (connected (status cm))) sched = false)
  end.
Proof. apply Stop_outcomes. Qed.

Lemma Start_calls_token (cm cm1 : Connection) (u : unit) :
  Start_calls cm = (inl u, cm1) ->
  exists tok,
    AddKeyListener_answer (bridge_calls (trace cm)) KeyAirLinkConnection false
    = inl tok /\
    connectionStatusToken cm1 = tok /\
    exists new, trace cm1 = trace cm ++ new.
Proof.
  unfold Start_calls, bind, AddKeyListener, Find, SendACK,
    set_connectionStatusToken, Send, ret, asked. cbn.
  destruct (AddKeyListener_answer _ _ _) as [tok | e]; cbn; [| discriminate].
  destruct (Find_answer _ _) as [b | e]; cbn; [| discriminate].
  repeat match goal with
  | |- context [SendEvent_answer ?l ?c] =>
      destruct (SendEvent_answer l c); cbn; try discriminate
  end.
  intros [= _ <-]. exists tok. cbn. split; [reflexivity |].
  split; [reflexivity |]. eexists. now rewrite <- !app_assoc.
Qed.

(** X20. The listener [Stop] removes is the one [Start] registered:
    after a [Start] that returned nil, whatever [Stop] asks the bridge
    to remove is the status listener with the token the bridge gave
    [Start]; and a [Stop] that returns nil has removed it. *)
Theorem Start_then_Stop_token (sched sched' : list label) (cm : Connection) :
  (Start sched cm).1 = Returned None ->
  exists tok,
    AddKeyListener_answer (bridge_calls (trace cm)) KeyAirLinkConnection false
    = inl tok /\
    let cm' := (Start sched cm).2 in
    let new := drop (length (trace cm')) (trace (Stop sched' cm').2) in
    (forall k t, Bridge (CRemoveKeyListener k t) ∈ new ->
                 k = KeyAirLinkConnection /\ t = tok) /\
    ((Stop sched' cm').1 = Returned None ->
     Bridge (CRemoveKeyListener KeyAirLinkConnection tok) ∈ new).
Proof.
  intros Hstart. unfold Start in Hstart |- *.
  destruct (Start_calls cm) as [[u | err] cm1] eqn:Hcalls; [| discriminate].
  destruct (Start_calls_token cm cm1 u Hcalls) as (tok & Hadd & Htok & _).
  exists tok. split; [exact Hadd |]. cbv zeta. cbn [snd].
  set (cm' := {| connectionStatusToken := _; status := _; trace := _ |}).
  assert (Htok' : connectionStatusToken cm' = tok) by exact Htok.
  pose proof (Stop_outcomes sched' cm') as Hseq. cbv zeta in Hseq.
  destruct (answer (trace cm') close_event) as [e |].
  - destruct Hseq as [Hout Htr]. rewrite Htr, drop_app_length. split.
    + intros k t Hin. apply list_elem_of_singleton in Hin. discriminate.
    + rewrite Hout. discriminate.
  - destruct Hseq as [[Hout Htr] | (Hout & Htr & _)];
      rewrite Htr, drop_app_length.
    + split; [| rewrite Hout; discriminate].
      intros k t Hin. repeat (apply elem_of_cons in Hin as [Hin | Hin];
                              [discriminate |]).
      inversion Hin.
    + unfold remove_listener. rewrite Htok'. split.
      * intros k t Hin.
        repeat (apply elem_of_cons in Hin as [Hin | Hin];
                [first [discriminate | injection Hin as -> ->; now split] |]).
        inversion Hin.
      * intros _. right. right. left.
Qed.

End Stop.

(** The status listener fires [true -> false] while the waiter is
    parked. *)
Definition true_to_false : list label :=
  [LWaiter; LWaiter; LWaiter;
   LSpawn (Some false); LCallback 0; LCallback 0; LCallback 0;
   LCallback 0; LCallback 0; LWaiter; LWaiter].

Lemma Start_then_Stop_token_witness :
  let cm' := (Start (UB := willing_bridge) (F := finder_at_once)
                    false_to_true new_connection).2 in
  Bridge (CRemoveKeyListener KeyAirLinkConnection 1%N)
  ∈ drop (length (trace cm'))
         (trace (Stop (UB := willing_bridge) true_to_false cm').2).
Proof.
  intros cm'.
  destruct (Start_then_Stop_token (UB := willing_bridge) (F := finder_at_once)
              false_to_true true_to_false new_connection eq_refl)
    as (tok & Hadd & _ & Hin).
  injection Hadd as <-. apply Hin. reflexivity.
Defined.


End connection.

(** ** The client and its modules (sdk2, [Client.Start] and
    [Client.Stop]) *)

Module client.

(** The modules a [Client] holds. *)
Inductive module_ := Connection | Robot | Camera | Controller.

#[global] Instance module_eq_dec : EqDecision module_.
Proof. solve_decision. Defined.

(** What the client asks of the bridge and of its modules. *)
Inductive call :=
| BridgeStart
| BridgeStop
| ModuleStart (m : module_)
| WaitForConnection (m : module_)
| ModuleStop (m : module_).

#[global] Instance call_eq_dec : EqDecision call.
Proof. solve_decision. Defined.

(** The bridge and the modules are external collaborators: what they
    return may depend on everything they were asked before. *)
Class Modules := {
  returns : list call -> call -> option error;
  connects : list call -> module_ -> bool;
}.

(** The fields of [Client] that [Start] and [Stop] use, and what has
    been asked of the bridge and the modules. *)
Record Client := { started : bool; log : list call }.

Section Client.

Context `{MS : Modules}.

Definition M (A : Type) : Type := Client -> (A + error) * Client.

Definition ret {A} (a : A) : M A := fun c => (inl a, c).

Definition bind {A B} (m : M A) (k : A -> M B) : M B :=
  fun c =>
    match m c with
    | (inl a, c') => k a c'
    | (inr e, c') => (inr e, c')
    end.

Notation "'do' x <- m ; k" := (bind m (fun x => k))
  (at level 10, x name, m at level 100, k at level 200).

(** A call that returns an error or nil. *)
Definition ask (r : call) : M unit :=
  fun c =>
    (match returns (log c) r with Some e => inr e | None => inl tt end,
     {| started := started c; log := log c ++ [r] |}).

(** [if !m.WaitForConnection() { return fmt.Errorf(...) }]. *)
Definition wait (m : module_) (msg : string) : M unit :=
  fun c =>
    (if connects (log c) m then inl tt else inr (str msg),
     {| started := started c; log := log c ++ [WaitForConnection m] |}).

Definition set_started (b : bool) : M unit :=
  fun c => (inl tt, {| started := b; log := log c |}).

Definition result (r : (unit + error) * Client) : option error * Client :=
  (match r.1 with inl _ => None | inr e => Some e end, r.2).

(** [Start], lines 65-123. *)
Definition Start (c : Client) : option error * Client :=
  if started c then (Some (str "client already started"), c)
  else
    result
      ((do _ <- ask BridgeStart;
        do _ <- ask (ModuleStart Connection);
        do _ <- wait Connection
                  "network connection unexpectedly not established";
        do _ <- ask (ModuleStart Robot);
        do _ <- wait Robot "robot connection unexpectedly not established";
        do _ <- ask (ModuleStart Camera);
        do _ <- wait Camera "camera connection unexpectedly not established";
        do _ <- ask (ModuleStart Controller);
        do _ <- wait Controller
                  "controller connection unexpectedly not established";
        set_started true) c).

(** [Stop], lines 146-187. *)
Definition Stop (c : Client) : option error * Client :=
  if negb (started c) then (Some (str "client not started"), c)
  else
    result
      ((do _ <- ask (ModuleStop Controller);
        do _ <- ask (ModuleStop Camera);
        do _ <- ask (ModuleStop Robot);
        do _ <- ask (ModuleStop Connection);
        ask BridgeStop) c).

(** What a [Start] and a [Stop] that meet no error ask for. *)
Definition Start_calls : list call :=
  [BridgeStart;
   ModuleStart Connection; WaitForConnection Connection;
   ModuleStart Robot; WaitForConnection Robot;
   ModuleStart Camera; WaitForConnection Camera;
   ModuleStart Controller; WaitForConnection Controller].

Definition Stop_calls : list call :=
  [ModuleStop Controller; ModuleStop Camera; ModuleStop Robot;
   ModuleStop Connection; BridgeStop].

Definition started_modules (l : list call) : list module_ :=
  omap (fun r => match r with ModuleStart m => Some m | _ => None end) l.

Definition stopped_modules (l : list call) : list module_ :=
  omap (fun r => match r with ModuleStop m => Some m | _ => None end) l.

(** What [Start] does on a client that is not started. *)
Lemma Start_spec (c : Client) :
  started c = false ->
  exists n,
    (1 <= n <= 9)%nat /\
    log (Start c).2 = log c ++ take n Start_calls /\
    match (Start c).1 with
    | None => n = 9%nat /\ started (Start c).2 = true
    | Some _ => started (Start c).2 = false
    end.
Proof.
  intros Hs. unfold Start. rewrite Hs.
  unfold result, bind, ask, wait, set_started. cbn [log started fst snd].
  destruct (returns (log c) BridgeStart).
  { exists 1%nat. cbn. repeat split; first [lia | assumption | reflexivity]. }
  destruct (returns _ (ModuleStart Connection)).
  { exists 2%nat. cbn. rewrite <- !app_assoc. repeat split; first [lia | assumption | reflexivity]. }
  destruct (connects _ Connection).
  2: { exists 3%nat. cbn. rewrite <- !app_assoc. repeat split; first [lia | assumption | reflexivity]. }
  destruct (returns _ (ModuleStart Robot)).
  { exists 4%nat. cbn. rewrite <- !app_assoc. repeat split; first [lia | assumption | reflexivity]. }
  destruct (connects _ Robot).
  2: { exists 5%nat. cbn. rewrite <- !app_assoc. repeat split; first [lia | assumption | reflexivity]. }
  destruct (returns _ (ModuleStart Camera)).
  { exists 6%nat. cbn. rewrite <- !app_assoc. repeat split; first [lia | assumption | reflexivity]. }
  destruct (connects _ Camera).
  2: { exists 7%nat. cbn. rewrite <- !app_assoc. repeat split; first [lia | assumption | reflexivity]. }
  destruct (returns _ (ModuleStart Controller)).
  { exists 8%nat. cbn. rewrite <- !app_assoc. repeat split; first [lia | assumption | reflexivity]. }
  destruct (connects _ Controller);
    exists 9%nat; cbn; rewrite <- !app_assoc; repeat split; first [lia | assumption | reflexivity].
Qed.

(** What [Stop] does on a client that is started. *)
Lemma Stop_spec (c : Client) :
  started c = true ->
  exists n,
    (1 <= n <= 5)%nat /\
    log (Stop c).2 = log c ++ take n Stop_calls /\
    started (Stop c).2 = true /\
    ((Stop c).1 = None -> n = 5%nat).
Proof.
  intros Hs. unfold Stop. rewrite Hs.
  unfold result, bind, ask. cbn [negb log started fst snd].
  destruct (returns (log c) (ModuleStop Controller)).
  { exists 1%nat. cbn. repeat split; first [lia | assumption | discriminate | reflexivity]. }
  destruct (returns _ (ModuleStop Camera)).
  { exists 2%nat. cbn. rewrite <- !app_assoc.
    repeat split; first [lia | assumption | discriminate | reflexivity]. }
  destruct (returns _ (ModuleStop Robot)).
  { exists 3%nat. cbn. rewrite <- !app_assoc.
    repeat split; first [lia | assumption | discriminate | reflexivity]. }
  destruct (returns _ (ModuleStop Connection)).
  { exists 4%nat. cbn. rewrite <- !app_assoc.
    repeat split; first [lia | assumption | discriminate | reflexivity]. }
  destruct (returns _ BridgeStop);
    exists 5%nat; cbn; rewrite <- !app_assoc;
    repeat split; first [lia | assumption | discriminate | reflexivity].
Qed.

(** X21. Once started, a client cannot be started again, not even
    after [Stop]: [Stop] leaves the client marked as started, so a
    [Start] that follows it, whether [Stop] returned an error or nil,
    returns "client already started" and asks nothing of the bridge or
    of the modules. *)
Theorem Start_after_Stop_is_refused (c : Client) :
  (Start c).1 = None ->
  let c1 := (Stop (Start c).2).2 in
  started (Start c).2 = true /\
  started c1 = true /\
  Start c1 = (Some (str "client already started"), c1).
Proof.
  intros Hok.
  assert (H1 : started (Start c).2 = true).
  { destruct (started c) eqn:Hs.
    - unfold Start in Hok. rewrite Hs in Hok. discriminate.
    - destruct (Start_spec c Hs) as (n & _ & _ & H). rewrite Hok in H. tauto. }
  destruct (Stop_spec _ H1) as (n & _ & _ & H2 & _).
  cbv zeta. repeat split; try assumption.
  unfold Start at 1. now rewrite H2.
Qed.

(** X22. A [Start] that fails leaves behind what it had started: the
    client is still marked as not started, so [Stop] refuses with
    "client not started" and stops neither the bridge nor any of the
    modules that [Start] had started before the error. *)
Theorem Stop_after_failed_Start_is_refused (c : Client) (e : error) :
  started c = false ->
  (Start c).1 = Some e ->
  let c1 := (Start c).2 in
  Stop c1 = (Some (str "client not started"), c1) /\
  exists n, (1 <= n)%nat /\ log c1 = log c ++ take n Start_calls.
Proof.
  intros Hs Herr. destruct (Start_spec c Hs) as (n & Hn & Hlog & H).
  rewrite Herr in H. cbv zeta. split.
  - unfold Stop. now rewrite H.
  - exists n. split; [lia | exact Hlog].
Qed.

(** X23. A [Start] that returns nil has started the bridge and then
    the four modules, waiting for each module to be connected before
    the next is started; a [Stop] that returns nil has stopped the
    modules in the reverse order, and the bridge last. *)
Theorem Stop_reverses_Start (c : Client) :
  started c = false ->
  (Start c).1 = None ->
  (Stop (Start c).2).1 = None ->
  let c1 := (Start c).2 in
  let c2 := (Stop c1).2 in
  log c1 = log c ++ Start_calls /\
  log c2 = log c1 ++ Stop_calls /\
  stopped_modules (drop (length (log c1)) (log c2))
  = rev (started_modules (drop (length (log c)) (log c1))).
Proof.
  intros Hs Hok Hstop. cbv zeta.
  destruct (Start_spec c Hs) as (n & _ & Hlog & H). rewrite Hok in H.
  destruct H as [-> Hst].
  destruct (Stop_spec _ Hst) as (m & _ & Hlog' & _ & Hm).
  rewrite (Hm Hstop) in Hlog'.
  change (take 9 Start_calls) with Start_calls in Hlog.
  change (take 5 Stop_calls) with Stop_calls in Hlog'.
  split; [exact Hlog |]. split; [exact Hlog' |].
  rewrite Hlog', drop_app_length, Hlog, drop_app_length. reflexivity.
Qed.

End Client.

(** A bridge and modules that accept everything, and ones whose camera
    does not start. *)
Definition willing : Modules :=
  {| returns _ _ := None; connects _ _ := true |}.

Definition no_camera : Modules :=
  {| returns _ r :=
       match r with
       | ModuleStart Camera => Some (str "no camera")
       | _ => None
       end;
     connects _ _ := true |}.

(** A client as [New], lines 31-62, returns it when no constructor
    fails. *)
Definition New : Client := {| started := false; log := [] |}.

Lemma Start_after_Stop_is_refused_witness :
  Start (MS := willing) (Stop (MS := willing) (Start (MS := willing) New).2).2
  = (Some (str "client already started"),
     (Stop (MS := willing) (Start (MS := willing) New).2).2).
Proof.
  apply (Start_after_Stop_is_refused (MS := willing) New). reflexivity.
Defined.

Lemma Stop_after_failed_Start_is_refused_witness :
  Stop (MS := no_camera) (Start (MS := no_camera) New).2
  = (Some (str "client not started"), (Start (MS := no_camera) New).2) /\
  log (Start (MS := no_camera) New).2
  = [BridgeStart; ModuleStart Connection; WaitForConnection Connection;
     ModuleStart Robot; WaitForConnection Robot; ModuleStart Camera].
Proof.
  split; [| reflexivity].
  apply (Stop_after_failed_Start_is_refused (MS := no_camera) New
           (str "no camera")); reflexivity.
Defined.

Lemma Stop_reverses_Start_witness :
  stopped_modules (log (Stop (MS := willing) (Start (MS := willing) New).2).2)
  = [Controller; Camera; Robot; Connection] /\
  started_modules (log (Start (MS := willing) New).2)
  = [Connection; Robot; Camera; Controller].
Proof.
  destruct (Stop_reverses_Start (MS := willing) New eq_refl eq_refl eq_refl)
    as (H1 & H2 & _).
  rewrite H2, H1. split; reflexivity.
Defined.

End client.

(** ** The bridge library loader
    (unitybridge/wrapper/internal/implementations/dlopen.go) *)

Module dlopen.

#[local] Open Scope string_scope.

(** Whether a build tag holds on a platform.  A tag naming an
    operating system or an architecture holds when it is the one
    compiled for; as the [go] command documents, [GOOS=ios] also
    matches the tag [darwin], and [GOOS=android] the tag [linux]. *)
Definition tag_holds (goos goarch tag : string) : bool :=
  String.eqb tag goos || String.eqb tag goarch
  || (String.eqb tag "darwin" && String.eqb goos "ios")
  || (String.eqb tag "linux" && String.eqb goos "android").

(** The constraint of line 1:
    [(ios && arm64) || (darwin && amd64) || (android && (arm || arm64))]. *)
Definition build_constraint (goos goarch : string) : bool :=
  let t := tag_holds goos goarch in
  (t "ios" && t "arm64") || (t "darwin" && t "amd64")
  || (t "android" && (t "arm" || t "arm64")).

(** [libPaths], lines 64-69. *)
Definition libPaths : list (string * string) :=
  [("android/arm", "./lib/android/arm/libunitybridge.so");
   ("android/arm64", "./lib/android/arm64/libunitybridge.so");
   ("darwin/amd64",
    "./lib/darwin/amd64/unitybridge.bundle/Contents/MacOS/unitybridge");
   ("ios/arm64", "./Frameworks/unitybridge.framework/unitybridge")].

Fixpoint lookup (k : string) (m : list (string * string)) : option string :=
  match m with
  | [] => None
  | (k', v) :: m' => if String.eqb k' k then Some v else lookup k m'
  end.

(** [init], lines 74-81: the path looked up for the platform, [None]
    when there is none and [init] panics. *)
Definition init_libPath (goos goarch : string) : option string :=
  lookup (goos ++ "/" ++ goarch) libPaths.

(** The names of the operating systems and of the architectures the
    constraint mentions. *)
Definition names_no_arch (goos : string) : Prop :=
  goos <> "arm64" /\ goos <> "amd64" /\ goos <> "arm".

Definition names_no_os (goarch : string) : Prop :=
  goarch <> "ios" /\ goarch <> "darwin" /\ goarch <> "android".

(** X24. On a platform the build constraint admits, [init] finds a
    library path in [libPaths] except on one: [ios/amd64], admitted by
    the clause [(darwin && amd64)] since [GOOS=ios] matches the tag
    [darwin], has no entry, and there [init] panics with the message
    the source marks as never happening. *)
Theorem init_libPath_covers_the_build_constraint (goos goarch : string) :
  names_no_arch goos -> names_no_os goarch ->
  build_constraint goos goarch = true ->
  (init_libPath goos goarch = None <-> goos = "ios" /\ goarch = "amd64") /\
  (goos = "android" \/ goos = "darwin" \/ goos = "ios") /\
  (goarch = "arm" \/ goarch = "arm64" \/ goarch = "amd64").
Proof.
  intros (O1 & O2 & O3) (A1 & A2 & A3).
  unfold build_constraint, tag_holds, init_libPath.
  destruct (String.eqb_spec "ios" goos) as [E1 | N1];
    destruct (String.eqb_spec "darwin" goos) as [E2 | N2];
    destruct (String.eqb_spec "android" goos) as [E3 | N3];
    try congruence;
    destruct (String.eqb_spec "arm64" goarch) as [E4 | N4];
    destruct (String.eqb_spec "amd64" goarch) as [E5 | N5];
    destruct (String.eqb_spec "arm" goarch) as [E6 | N6];
    try congruence;
    subst;
    repeat match goal with
    | |- context [String.eqb ?a ?b] =>
        destruct (String.eqb_spec a b); try congruence
    end;
    cbn; intros H; try discriminate H.
  all: split; [split | split].
  all: try (intros; discriminate).
  all: try (intros [? ?]; discriminate).
  all: try (intros; split; reflexivity).
  all: try reflexivity.
  all: auto.
Qed.

Lemma init_libPath_covers_the_build_constraint_witness :
  build_constraint "ios" "amd64" = true /\
  init_libPath "ios" "amd64" = None /\
  init_libPath "android" "arm64" = Some "./lib/android/arm64/libunitybridge.so".
Proof.
  split; [reflexivity |].
  split; [| reflexivity].
  apply (init_libPath_covers_the_build_constraint "ios" "amd64");
    [repeat split; discriminate .. | reflexivity | split; reflexivity].
Defined.

End dlopen.

(** ** example/example.go: the event callback *)

Module handler.

(** The byte order of the platform. *)
Inductive ByteOrder := LittleEndian | BigEndian.

Definition u64 (b : byte) : Z := Z.of_N (Byte.to_N b).

(** [binary.NativeEndian.Uint64]: the first eight bytes of [b] as a
    [uint64]; [None] when there are fewer, the index expression
    [b[7]] being out of range. *)
Definition Uint64 (o : ByteOrder) (b : gostring) : option Z :=
  match b with
  | b0 :: b1 :: b2 :: b3 :: b4 :: b5 :: b6 :: b7 :: _ =>
      Some
        match o with
        | LittleEndian =>
            Z.lor (u64 b0) (Z.lor (Z.shiftl (u64 b1) 8)
              (Z.lor (Z.shiftl (u64 b2) 16) (Z.lor (Z.shiftl (u64 b3) 24)
                (Z.lor (Z.shiftl (u64 b4) 32) (Z.lor (Z.shiftl (u64 b5) 40)
                  (Z.lor (Z.shiftl (u64 b6) 48) (Z.shiftl (u64 b7) 56)))))))
        | BigEndian =>
            Z.lor (u64 b7) (Z.lor (Z.shiftl (u64 b6) 8)
              (Z.lor (Z.shiftl (u64 b5) 16) (Z.lor (Z.shiftl (u64 b4) 24)
                (Z.lor (Z.shiftl (u64 b3) 32) (Z.lor (Z.shiftl (u64 b2) 40)
                  (Z.lor (Z.shiftl (u64 b1) 48) (Z.shiftl (u64 b0) 56)))))))
        end
  | _ => None
  end.

(** Lines 15-21. *)
Definition dataTypeStr (dataType : Z) : gostring :=
  match dataType with
  | 0 => str "string"
  | 1 => str "uint64"
  | _ => str "unknown"
  end.

(** What a call has written to the standard output, and whether it
    ended in a panic. *)
Record run := { stdout : list gostring; panicked : bool }.

(** [callbackHandler], lines 12-33.  [typ] is what [%s] prints for
    [e.Type()], [subType] is [e.SubType()]. *)
Definition callbackHandler (o : ByteOrder) (typ : gostring) (subType : Z)
    (data : gostring) (tag : Z) : run :=
  let dataType := Tag.dataType tag in
  let tag := Tag.sequence tag in
  let header :=
    str "Callback handler called for event with type " ++ typ ++
    str ", sub-type " ++ strconv.FormatInt subType ++
    str ", data type " ++ dataTypeStr dataType ++
    str " and tag " ++ strconv.FormatUint (Z.to_N tag) ++ ["010"%byte] in
  if dataType =? 0 then
    {| stdout := [header; str "Data: " ++ data ++ ["010"%byte]];
       panicked := false |}
  else
    match Uint64 o data with
    | Some n =>
        {| stdout := [header; str "Data: " ++ strconv.FormatUint (Z.to_N n)
                              ++ ["010"%byte]];
           panicked := false |}
    | None => {| stdout := [header]; panicked := true |}
    end.

Lemma Uint64_None (o : ByteOrder) (b : gostring) :
  Uint64 o b = None <-> (length b < 8)%nat.
Proof.
  unfold Uint64.
  do 8 (destruct b as [| ? b]; [simpl; split; [lia | reflexivity] |]).
  simpl. split; [discriminate | lia].
Qed.

(** X8. [callbackHandler] panics exactly when the discriminator of the
    tag is not 0 and the data is shorter than eight bytes: every
    discriminator but 0, the ones announced as unknown among them, has
    the data read as a [uint64].  The header line is written in every
    case, the data line unless the call panics. *)
Theorem callbackHandler_panics_iff
    (o : ByteOrder) (typ : gostring) (subType : Z) (data : gostring) (tag : Z) :
  let r := callbackHandler o typ subType data tag in
  (panicked r = true <-> Tag.dataType tag <> 0 /\ (length data < 8)%nat) /\
  length (stdout r) = (if panicked r then 1 else 2)%nat /\
  (Tag.dataType tag = 0 ->
   nth 1 (stdout r) [] = str "Data: " ++ data ++ ["010"%byte]) /\
  (forall n, Tag.dataType tag <> 0 -> Uint64 o data = Some n ->
   nth 1 (stdout r) [] =
   str "Data: " ++ strconv.FormatUint (Z.to_N n) ++ ["010"%byte]).
Proof.
  intros r. subst r. unfold callbackHandler.
  destruct (Z.eqb_spec (Tag.dataType tag) 0) as [E | E].
  - simpl. repeat split; try congruence; try tauto.
  - destruct (Uint64 o data) as [n |] eqn:Hu; simpl.
    + repeat split; try congruence; try tauto.
      intros [_ Hl]. apply (Uint64_None o) in Hl. congruence.
    + repeat split; try congruence; try tauto.
      now apply (Uint64_None o).
Qed.

End handler.
